(** * Skip-gram word2vec with negative sampling: the training core

    A shallow embedding of the notebook's preprocessing and training code
    (subsampling, vocabulary, context pairs, negative sampling, the loss,
    early stopping and batching), followed by the properties proved of it.

    Conventions of the embedding.
    - Python [float] values and numpy scalars are modelled by the real
      numbers [R]; rounding is not modelled.  A quotient of numpy scalars
      can also be infinite or not a number.
    - Exceptions are explicit: a computation has type [outcome A].
    - A [dict] keeps its keys in insertion order, as Python's does.
    - The process-wide random generator is an explicit stream of draws
      together with a cursor counting the draws consumed so far. *)

From Stdlib Require Import String List Arith ZArith Bool Lia.
From Stdlib Require Import Reals Lra Psatz Permutation Sorted.
Import ListNotations.

Set Implicit Arguments.

(* ================================================================= *)
(** * Part I: the program *)
(* ================================================================= *)

(** ** Exceptions and fallible computations *)

Inductive exn : Type :=
| KeyError
| IndexError
| ValueError
| ZeroDivisionError.

Inductive outcome (A : Type) : Type :=
| Returns (a : A)
| Raises (e : exn).

Arguments Returns {A} a.
Arguments Raises {A} e.

Definition bind {A B : Type} (m : outcome A) (k : A -> outcome B) : outcome B :=
  match m with
  | Returns a => k a
  | Raises e => Raises e
  end.

Notation "x <- m ;; k" := (bind m (fun x => k))
  (at level 61, m at next level, right associativity).
Notation "' pat <- m ;; k" := (bind m (fun x => match x with pat => k end))
  (at level 61, pat pattern, m at next level, right associativity).

(** [a / b] on floats. *)
Definition truediv (a b : R) : outcome R :=
  if Req_dec_T b 0 then Raises ZeroDivisionError else Returns (a / b)%R.

(** [l[i]] for a non-negative index. *)
Definition getindex {A : Type} (l : list A) (i : nat) : outcome A :=
  match nth_error l i with
  | Some a => Returns a
  | None => Raises IndexError
  end.

(** [range(a, b)] and [enumerate(l)]. *)
Definition range (a b : nat) : list nat := seq a (b - a).

Definition enumerate {A : Type} (l : list A) : list (nat * A) :=
  combine (seq 0 (length l)) l.

(** [sum] of a list of floats and of a list of integers. *)
Definition fsum (l : list R) : R := fold_left Rplus l 0%R.

Definition isum (l : list nat) : nat := fold_left Nat.add l 0.

(** ** Dictionaries with string keys, in insertion order *)

Definition dict (V : Type) : Type := list (string * V).

Fixpoint dict_find {V : Type} (d : dict V) (k : string) : option V :=
  match d with
  | [] => None
  | (k', v) :: d' => if String.eqb k' k then Some v else dict_find d' k
  end.

(** [d[k]] *)
Definition getitem {V : Type} (d : dict V) (k : string) : outcome V :=
  match dict_find d k with
  | Some v => Returns v
  | None => Raises KeyError
  end.

(** [d.get(k, default)] *)
Definition get {V : Type} (d : dict V) (k : string) (default : V) : V :=
  match dict_find d k with
  | Some v => v
  | None => default
  end.

(** [d[k] = v]: an existing key keeps its place, a new key goes last. *)
Fixpoint setitem {V : Type} (d : dict V) (k : string) (v : V) : dict V :=
  match d with
  | [] => [(k, v)]
  | (k', v') :: d' =>
      if String.eqb k' k then (k', v) :: d' else (k', v') :: setitem d' k v
  end.

Definition keys {V : Type} (d : dict V) : list string := map fst d.

Definition values {V : Type} (d : dict V) : list V := map snd d.

(** [collections.Counter(l)]: each element does [c[elem] = c.get(elem, 0) + 1]. *)
Definition Counter (l : list string) : dict nat :=
  fold_left (fun c elem => setitem c elem (get c elem 0 + 1)) l [].

(** [itertools.chain.from_iterable(corpus)] *)
Definition chain (corpus : list (list string)) : list string := concat corpus.

(** ** Subsampling of frequent words *)

(** The random source: [draws n] is the value of the [n]-th call of
    [random.random()]; a cursor is threaded through the code. *)
Definition random_source : Type := nat -> R.

(** The right-hand side of the comparison in [subsample_frequent_words],
    for a word of relative frequency [p]. *)
Definition keep_probability (p : R) : R :=
  ((1 + sqrt (p * 1e3)) * 1e-3 / p)%R.

(** The dict comprehension
    [{word: word_counts[word]/float(sum_word_counts) for word in word_counts}]. *)
Fixpoint normalize_counts (word_counts : dict nat) (sum_word_counts : nat)
    (words : list string) (acc : dict R) : outcome (dict R) :=
  match words with
  | [] => Returns acc
  | word :: words' =>
      c <- getitem word_counts word ;;
      p <- truediv (INR c) (INR sum_word_counts) ;;
      normalize_counts word_counts sum_word_counts words' (setitem acc word p)
  end.

(** The inner loop [for word in text]; [n] is the cursor of the random
    source when the loop is entered. *)
Fixpoint subsample_text (word_counts : dict R) (draws : random_source)
    (text : list string) (n : nat) : outcome (list string * nat) :=
  match text with
  | [] => Returns ([], n)
  | word :: text' =>
      let u := draws n in
      p <- getitem word_counts word ;;
      q <- getitem word_counts word ;;
      P <- truediv ((1 + sqrt (p * 1e3)) * 1e-3)%R q ;;
      '(kept, n') <- subsample_text word_counts draws text' (S n) ;;
      Returns (if Rlt_dec u P then word :: kept else kept, n')
  end.

(** The outer loop [for text in corpus]. *)
Fixpoint subsample_corpus (word_counts : dict R) (draws : random_source)
    (corpus : list (list string)) (n : nat)
    : outcome (list (list string) * nat) :=
  match corpus with
  | [] => Returns ([], n)
  | text :: corpus' =>
      '(kept, n') <- subsample_text word_counts draws text n ;;
      '(filtered, n'') <- subsample_corpus word_counts draws corpus' n' ;;
      Returns (kept :: filtered, n'')
  end.

Definition subsample_frequent_words (draws : random_source)
    (corpus : list (list string)) (n : nat)
    : outcome (list (list string) * nat) :=
  let word_counts := Counter (chain corpus) in
  let sum_word_counts := isum (values word_counts) in
  word_counts <- normalize_counts word_counts sum_word_counts (keys word_counts) [] ;;
  subsample_corpus word_counts draws corpus n.

(** ** Vocabulary *)

(** The cell that builds the vocabulary:
    [vocabulary = set(itertools.chain.from_iterable(corpus))], then the two
    dict comprehensions over [enumerate(vocabulary)].  The iteration order
    of a Python set is not specified; [set_order l] is the order in which
    [set(l)] is iterated (the same at every iteration of an unchanged set). *)
Section Vocabulary.

Variable set_order : list string -> list string.

Definition vocabulary (corpus : list (list string)) : list string :=
  set_order (chain corpus).

Definition word_to_index (corpus : list (list string)) : dict nat :=
  fold_left (fun d '(idx, w) => setitem d w idx)
            (enumerate (vocabulary corpus)) [].

(** A dict with integer keys, as an association list. *)
Fixpoint setindex (d : list (nat * string)) (k : nat) (v : string)
    : list (nat * string) :=
  match d with
  | [] => [(k, v)]
  | (k', v') :: d' =>
      if Nat.eqb k' k then (k', v) :: d' else (k', v') :: setindex d' k v
  end.

Definition index_to_word (corpus : list (list string)) : list (nat * string) :=
  fold_left (fun d '(idx, w) => setindex d idx w)
            (enumerate (vocabulary corpus)) [].

(** The whole cell; no statement of it raises. *)
Definition build_vocabulary (corpus : list (list string))
    : outcome (list string * dict nat * list (nat * string)) :=
  Returns (vocabulary corpus, word_to_index corpus, index_to_word corpus).

End Vocabulary.

Fixpoint find_index (d : list (nat * string)) (k : nat) : option string :=
  match d with
  | [] => None
  | (k', v) :: d' => if Nat.eqb k' k then Some v else find_index d' k
  end.

(** ** Context pairs *)

(** The loop that fills [context_tuple_list], with one [next(negative_samples)]
    per appended tuple.  The generator is any state [G] with a [next]
    operation yielding a value of type [N]. *)
Section ContextPairs.

Variables G N : Type.
Variable next : G -> outcome (N * G).

(** [for j in range(first, last): if i != j: append (word, text[j], next(..))] *)
Fixpoint window_loop (text : list string) (i : nat) (word : string)
    (js : list nat) (g : G) : outcome (list (string * string * N) * G) :=
  match js with
  | [] => Returns ([], g)
  | j :: js' =>
      if negb (i =? j) then
        c <- getindex text j ;;
        '(negs, g1) <- next g ;;
        '(rest, g2) <- window_loop text i word js' g1 ;;
        Returns ((word, c, negs) :: rest, g2)
      else window_loop text i word js' g
  end.

(** [for i, word in enumerate(text)].  On naturals [i - w] is already
    [max(0, i - w)]; the [max] of the source is kept. *)
Fixpoint text_loop (w : nat) (text : list string) (iws : list (nat * string))
    (g : G) : outcome (list (string * string * N) * G) :=
  match iws with
  | [] => Returns ([], g)
  | (i, word) :: iws' =>
      let first_context_word_index := Nat.max 0 (i - w) in
      let last_context_word_index := Nat.min (i + w) (length text) in
      '(here, g1) <- window_loop text i word
                       (range first_context_word_index last_context_word_index) g ;;
      '(rest, g2) <- text_loop w text iws' g1 ;;
      Returns (here ++ rest, g2)
  end.

(** [for text in corpus] *)
Fixpoint context_tuple_list (w : nat) (corpus : list (list string)) (g : G)
    : outcome (list (string * string * N) * G) :=
  match corpus with
  | [] => Returns ([], g)
  | text :: corpus' =>
      '(here, g1) <- text_loop w text (enumerate text) g ;;
      '(rest, g2) <- context_tuple_list w corpus' g1 ;;
      Returns (here ++ rest, g2)
  end.

End ContextPairs.

(** The (target, context) part of a tuple. *)
Definition pair_of {N : Type} (t : string * string * N) : string * string :=
  (fst (fst t), snd (fst t)).

(** ** Negative sampling *)

(** [v**0.75] for a count [v >= 1]. *)
Definition pow075 (v : nat) : R := Rpower (INR v) 0.75.

(** The loop [for word in word_counts: sample_probability[word] = ...]. *)
Fixpoint fill_sample_probability (word_counts : dict nat)
    (normalizing_factor : R) (ws : list string) (sample_probability : dict R)
    : outcome (dict R) :=
  match ws with
  | [] => Returns sample_probability
  | word :: ws' =>
      c <- getitem word_counts word ;;
      p <- truediv (pow075 c) normalizing_factor ;;
      fill_sample_probability word_counts normalizing_factor ws'
        (setitem sample_probability word p)
  end.

(** [for _ in range(count): word_list.append(words[index])] *)
Fixpoint append_word (words : list string) (index count : nat)
    (word_list : list string) : outcome (list string) :=
  match count with
  | O => Returns word_list
  | S count' =>
      wd <- getindex words index ;;
      append_word words index count' (word_list ++ [wd])
  end.

(** [for index, count in enumerate(sampled_index)] *)
Fixpoint expand_sample (words : list string) (ics : list (nat * nat))
    (word_list : list string) : outcome (list string) :=
  match ics with
  | [] => Returns word_list
  | (index, count) :: ics' =>
      word_list' <- append_word words index count word_list ;;
      expand_sample words ics' word_list'
  end.

(** A generator object made by [sample_negative(sample_size)]: its body has
    not started, or it is suspended at the [yield] with its local variables.
    [calls] counts the multinomial draws made so far. *)
Inductive generator : Type :=
| Created (sample_size : nat)
| Suspended (sample_size : nat) (sample_probability : dict R)
            (words : list string) (calls : nat).

Section NegativeSampler.

(** [multinomial c k pvals] is the array returned by the [c]-th call of
    [numpy.random.multinomial(k, pvals)]. *)
Variable multinomial : nat -> nat -> list R -> list nat.

(** The code before [while True], reading the global [corpus]. *)
Definition sample_negative_prologue (corpus : list (list string))
    : outcome (dict R * list string) :=
  let word_counts := Counter (chain corpus) in
  let normalizing_factor := fsum (map pow075 (values word_counts)) in
  sample_probability <-
    fill_sample_probability word_counts normalizing_factor (keys word_counts) [] ;;
  Returns (sample_probability, keys word_counts).

(** One iteration of [while True], up to the [yield]. *)
Definition sample_negative_draw (sample_size : nat)
    (sample_probability : dict R) (words : list string) (calls : nat)
    : outcome (list string * generator) :=
  let sampled_index := multinomial calls sample_size (values sample_probability) in
  word_list <- expand_sample words (enumerate sampled_index) [] ;;
  Returns (word_list, Suspended sample_size sample_probability words (S calls)).

(** [next(negative_samples)], with [corpus] the global at that moment. *)
Definition sample_negative (corpus : list (list string)) (gen : generator)
    : outcome (list string * generator) :=
  match gen with
  | Created sample_size =>
      '(sample_probability, words) <- sample_negative_prologue corpus ;;
      sample_negative_draw sample_size sample_probability words 0
  | Suspended sample_size sample_probability words calls =>
      sample_negative_draw sample_size sample_probability words calls
  end.

(** The notebook up to the pair loop: [corpus] is rebound to the subsampled
    corpus, then [negative_samples = sample_negative(4)] is created and the
    pair loop pulls from it with window [w = 2]. *)
Definition notebook_pairs (draws : random_source) (corpus : list (list string))
    : outcome (list (list string) * list (string * string * list string) * generator) :=
  '(corpus1, _) <- subsample_frequent_words draws corpus 0 ;;
  '(tuples, gen) <- context_tuple_list (sample_negative corpus1) 2 corpus1 (Created 4) ;;
  Returns (corpus1, tuples, gen).

End NegativeSampler.

(** ** The model and its loss *)

(** Tensors are nested lists: a matrix is a list of rows.  Shape errors of
    the tensor library are not modelled; the operations below are used on
    operands of matching shapes. *)
Definition matrix : Type := list (list R).

Fixpoint map2 {A B C : Type} (f : A -> B -> C) (l : list A) (l' : list B)
    : list C :=
  match l, l' with
  | a :: t, b :: t' => f a b :: map2 f t t'
  | _, _ => []
  end.

Fixpoint mapM {A B : Type} (f : A -> outcome B) (l : list A)
    : outcome (list B) :=
  match l with
  | [] => Returns []
  | a :: l' => b <- f a ;; bs <- mapM f l' ;; Returns (b :: bs)
  end.

(** [nn.Embedding] applied to a vector of indices, and to a matrix of indices. *)
Definition embedding (weight : matrix) (idx : list nat) : outcome matrix :=
  mapM (getindex weight) idx.

Definition embedding2 (weight : matrix) (idx : list (list nat))
    : outcome (list matrix) :=
  mapM (embedding weight) idx.

(** [torch.mul] on two matrices of one shape. *)
Definition mul (a b : matrix) : matrix := map2 (map2 Rmult) a b.

(** [torch.sum(m, dim=1)] on a matrix: the sum of each row. *)
Definition sum_dim1 (m : matrix) : list R := map fsum m.

Definition sigmoid (x : R) : R := (1 / (1 + exp (- x)))%R.

(** [F.logsigmoid] *)
Definition logsigmoid (x : R) : R := ln (sigmoid x).

Fixpoint transpose (m : matrix) : matrix :=
  match m with
  | [] => []
  | [row] => map (fun x => [x]) row
  | row :: m' => map2 cons row (transpose m')
  end.

Definition dot (u v : list R) : R := fsum (map2 Rmult u v).

Definition matmul (a b : matrix) : matrix :=
  map (fun row => map (dot row) (transpose b)) a.

(** [torch.bmm]: one matrix product per batch entry. *)
Definition bmm (a b : list matrix) : list matrix := map2 matmul a b.

(** [t.unsqueeze(2)] on a matrix: shape (B, D) becomes (B, D, 1). *)
Definition unsqueeze2 (t : matrix) : list matrix :=
  map (map (fun x => [x])) t.

(** [torch.sum(t, dim=1)] on a 3-d tensor of shape (B, k, m) with k >= 1:
    per batch entry, the sum of the k rows. *)
Definition sum_dim1_3d (t : list matrix) : matrix :=
  map (fun rows => map fsum (transpose rows)) t.

(** [torch.sum] of all the entries. *)
Definition sum_all (m : matrix) : R := fsum (concat m).

Record Word2Vec : Type := {
  embeddings_target : matrix;
  embeddings_context : matrix
}.

Definition forward (self : Word2Vec) (target_word context_word : list nat)
    (negative_example : list (list nat)) : outcome R :=
  emb_target <- embedding (embeddings_target self) target_word ;;
  emb_context <- embedding (embeddings_context self) context_word ;;
  let emb_product := mul emb_target emb_context in
  let emb_product := sum_dim1 emb_product in
  let out := fsum (map logsigmoid emb_product) in
  emb_negative <- embedding2 (embeddings_context self) negative_example ;;
  let emb_product := bmm emb_negative (unsqueeze2 emb_target) in
  let emb_product := sum_dim1_3d emb_product in
  let out := (out + sum_all (map (map (fun x => logsigmoid (- x))) emb_product))%R in
  Returns (- out)%R.

(** The loss of the notebook's formula, for one (target, context, negatives)
    triple of embedding vectors:
    [-log(sigma(eT . eC)) - sum_i log(sigma(- eT . eN_i))]. *)
Definition documented_loss (eT eC : list R) (eN : list (list R)) : R :=
  (- logsigmoid (dot eT eC)
   - fsum (map (fun eNi => logsigmoid (- dot eT eNi)) eN))%R.

(** ** Early stopping *)

Record EarlyStopping : Type := {
  patience : Z;
  loss_list : list R;
  min_percent_gain : R
}.

(** [EarlyStopping(patience, min_percent_gain)] *)
Definition EarlyStopping_init (patience : Z) (min_percent_gain : R)
    : EarlyStopping :=
  {| patience := patience;
     loss_list := [];
     min_percent_gain := (min_percent_gain / 100)%R |}.

Definition update_loss (self : EarlyStopping) (loss : R) : EarlyStopping :=
  let loss_list := (loss_list self ++ [loss])%list in
  {| patience := patience self;
     loss_list := if (Z.of_nat (length loss_list) >? patience self)%Z
                  then tl loss_list else loss_list;
     min_percent_gain := min_percent_gain self |}.

(** [max(l)] and [min(l)]; both raise on an empty list. *)
Definition pymax (l : list R) : outcome R :=
  match l with
  | [] => Raises ValueError
  | x :: l' => Returns (fold_left Rmax l' x)
  end.

Definition pymin (l : list R) : outcome R :=
  match l with
  | [] => Raises ValueError
  | x :: l' => Returns (fold_left Rmin l' x)
  end.

(** The losses are numpy scalars: both training loops record
    [np.mean(losses)].  A quotient of numpy scalars can be infinite or not a
    number: a division by zero raises nothing (numpy only warns). *)
Inductive np_float : Type :=
| np_finite (x : R)
| np_inf
| np_neg_inf
| np_nan.

(** [a / b] on numpy scalars. *)
Definition np_truediv (a b : R) : np_float :=
  if Req_dec_T b 0 then
    if Rlt_dec 0 a then np_inf
    else if Rlt_dec a 0 then np_neg_inf
    else np_nan
  else np_finite (a / b)%R.

(** [x < y] for a numpy scalar [x] and a float [y]. *)
Definition np_lt (x : np_float) (y : R) : bool :=
  match x with
  | np_finite r => if Rlt_dec r y then true else false
  | np_neg_inf => true
  | np_inf | np_nan => false
  end.

Definition stop_training (self : EarlyStopping) : outcome bool :=
  if length (loss_list self) =? 1 then Returns false
  else
    hi <- pymax (loss_list self) ;;
    lo <- pymin (loss_list self) ;;
    hi' <- pymax (loss_list self) ;;
    let gain := np_truediv (hi - lo) hi' in
    if np_lt gain (min_percent_gain self) then Returns true
    else Returns false.

(** The losses recorded one after the other into a fresh instance. *)
Definition record_losses (patience : Z) (min_percent_gain : R)
    (losses : list R) : EarlyStopping :=
  fold_left update_loss losses (EarlyStopping_init patience min_percent_gain).

(** ** Batches *)

Definition example : Type := string * string * list string.

(** A batch: the three tensors, as lists. *)
Definition batch : Type := list nat * list nat * list (list nat).

(** [a % b] on non-negative integers. *)
Definition pymod (a b : nat) : outcome nat :=
  if b =? 0 then Raises ZeroDivisionError else Returns (a mod b).

(** [torch.from_numpy(np.array(rows)).long()] on a list of lists of integers.
    The rows must have one length: on rows of unequal lengths [np.array]
    raises [ValueError] (numpy from 1.24 on; before that it builds an array
    of objects, which [torch.from_numpy] refuses). *)
Definition long_tensor (rows : list (list nat)) : outcome (list (list nat)) :=
  match rows with
  | [] => Returns []
  | r :: rows' =>
      if forallb (fun r' => length r' =? length r) rows' then Returns rows
      else Raises ValueError
  end.

Section Batches.

(** [shuffle l] is the list after [random.shuffle(l)]. *)
Variable shuffle : list example -> list example.

Variable word_to_index : dict nat.

(** The loop of [get_batches] from index [i] on; [rest] holds
    [context_tuple_list[i:]] and [len] is [len(context_tuple_list)]. *)
Fixpoint batch_loop (batch_size len : nat) (rest : list example) (i : nat)
    (batch_target batch_context : list nat) (batch_negative : list (list nat))
    (batches : list batch) : outcome (list batch) :=
  match rest with
  | [] => Returns batches
  | (target, context, negatives) :: rest' =>
      t <- getitem word_to_index target ;;
      let batch_target := batch_target ++ [t] in
      c <- getitem word_to_index context ;;
      let batch_context := batch_context ++ [c] in
      ns <- mapM (getitem word_to_index) negatives ;;
      let batch_negative := batch_negative ++ [ns] in
      r <- pymod (i + 1) batch_size ;;
      if (r =? 0) || (i =? len - 1) then
        tensor_negative <- long_tensor batch_negative ;;
        batch_loop batch_size len rest' (S i) [] [] []
          (batches ++ [(batch_target, batch_context, tensor_negative)])
      else
        batch_loop batch_size len rest' (S i)
          batch_target batch_context batch_negative batches
  end.

Definition get_batches (context_tuple_list : list example) (batch_size : nat)
    : outcome (list batch) :=
  let context_tuple_list := shuffle context_tuple_list in
  batch_loop batch_size (length context_tuple_list) context_tuple_list 0
    [] [] [] [].

End Batches.

(** The triples held by a batch, and the index triple of an example. *)
Definition batch_triples (b : batch) : list (nat * nat * list nat) :=
  let '(ts, cs, ns) := b in combine (combine ts cs) ns.

Definition index_triple (word_to_index : dict nat) (e : example)
    : option (nat * nat * list nat) :=
  let '(target, context, negatives) := e in
  match getitem word_to_index target, getitem word_to_index context,
        mapM (getitem word_to_index) negatives with
  | Returns t, Returns c, Returns ns => Some (t, c, ns)
  | _, _, _ => None
  end.

(** The earlier cell runs the same loop and appends [(word, text[j])] only:
    it is the loop above with a generator that yields nothing. *)
Definition no_negatives (g : unit) : outcome (unit * unit) := Returns (tt, tt).

(** ** Pulling from a generator *)

(** [k] successive [next(gen)]: the values yielded and the generator left. *)
Fixpoint pull {G N : Type} (next : G -> outcome (N * G)) (k : nat) (g : G)
    : outcome (list N * G) :=
  match k with
  | O => Returns ([], g)
  | S k' =>
      '(x, g1) <- next g ;;
      '(xs, g2) <- pull next k' g1 ;;
      Returns (x :: xs, g2)
  end.

(** ** The first network: a softmax over the vocabulary *)

Module CBOW.

(** [nn.Embedding(vocab_size, embedding_size)] and
    [nn.Linear(embedding_size, vocab_size)]: the weight of the linear layer
    has one row per output, its bias one entry per output. *)
Record Word2Vec : Type := {
  embeddings : matrix;
  linear_weight : matrix;
  linear_bias : list R
}.

(** [nn.Linear] on one input row: [x W^T + b]. *)
Definition linear (weight : matrix) (bias : list R) (x : list R) : list R :=
  map2 (fun row b => (dot x row + b)%R) weight bias.

(** [F.log_softmax] along the last dimension (the dimension chosen for a
    2-d input when none is given): [x_i - log(sum_j exp(x_j))]. *)
Definition log_softmax (x : list R) : list R :=
  map (fun xi => (xi - ln (fsum (map exp x)))%R) x.

Definition forward (self : Word2Vec) (context_word : list nat) : outcome matrix :=
  emb <- embedding (embeddings self) context_word ;;
  let hidden := map (linear (linear_weight self) (linear_bias self)) emb in
  let out := map log_softmax hidden in
  Returns out.

End CBOW.

(** ** Nearest words *)

(** [index_to_word[j]] *)
Definition getitem_index (d : list (nat * string)) (k : nat) : outcome string :=
  match find_index d k with
  | Some v => Returns v
  | None => Raises KeyError
  end.

(** [nn.PairwiseDistance()] on two rows: the 2-norm of [x1 - x2 + eps] with
    [eps = 1e-6]. *)
Definition pairwise_distance (x1 x2 : list R) : R :=
  sqrt (fsum (map (fun d => d * d)%R (map2 (fun a b => a - b + 1e-6)%R x1 x2))).

Definition pdist (x1 x2 : matrix) : list R := map2 pairwise_distance x1 x2.

(** [float(t)] of a tensor with one element. *)
Definition float_of (t : list R) : outcome R :=
  match t with
  | [d] => Returns d
  | _ => Raises ValueError
  end.

(** [l.sort(key=lambda x: x[1])]: the stable sort by distance, as an
    insertion sort that puts an element before the first one that is not
    closer. *)
Fixpoint insert_by_distance (x : string * R) (l : list (string * R))
    : list (string * R) :=
  match l with
  | [] => [x]
  | y :: l' =>
      if Rle_dec (snd x) (snd y) then x :: y :: l'
      else y :: insert_by_distance x l'
  end.

Definition sort_by_distance (l : list (string * R)) : list (string * R) :=
  fold_right insert_by_distance [] l.

(** [for j in range(len(vocabulary)): if j != i: ...] *)
Fixpoint distance_loop (emb : matrix) (index_to_word : list (nat * string))
    (i : nat) (v_i : matrix) (js : list nat) (word_distance : list (string * R))
    : outcome (list (string * R)) :=
  match js with
  | [] => Returns word_distance
  | j :: js' =>
      if negb (j =? i) then
        v_j <- embedding emb [j] ;;
        w <- getitem_index index_to_word j ;;
        d <- float_of (pdist v_i v_j) ;;
        distance_loop emb index_to_word i v_i js' (word_distance ++ [(w, d)])
      else distance_loop emb index_to_word i v_i js' word_distance
  end.

(** [net] is the trained network, [vocabulary_len] is [len(vocabulary)];
    [topn] is a natural number. *)
Definition get_closest_word (net : Word2Vec) (word_to_index : dict nat)
    (index_to_word : list (nat * string)) (vocabulary_len : nat)
    (word : string) (topn : nat) : outcome (list (string * R)) :=
  let word_distance := [] in
  let emb := embeddings_target net in
  i <- getitem word_to_index word ;;
  v_i <- embedding emb [i] ;;
  word_distance <- distance_loop emb index_to_word i v_i
                     (range 0 vocabulary_len) word_distance ;;
  let word_distance := sort_by_distance word_distance in
  Returns (firstn topn word_distance).

(* ================================================================= *)
(** * Part II: definitions used to state the properties *)
(* ================================================================= *)

(** ** Context pairs, as the specification words them *)

(** The token at position [i] of document [d]. *)
Definition token (corpus : list (list string)) (d i : nat) : string :=
  nth i (nth d corpus []) ""%string.

(** The context positions of target position [i] in a document of length
    [len]: every [j] in [[max(0, i-w), min(len, i+w))] other than [i]. *)
Definition window (len w i : nat) : list nat :=
  filter (fun j => negb (j =? i))
         (seq (Nat.max 0 (i - w)) (Nat.min len (i + w) - Nat.max 0 (i - w))).

(** The (target, context) positions of one document, by target position,
    then by context position. *)
Definition doc_positions (w len : nat) : list (nat * nat) :=
  flat_map (fun i => map (fun j => (i, j)) (window len w i)) (seq 0 len).

(** The (document, target, context) positions of a corpus, by document. *)
Definition window_positions (w : nat) (corpus : list (list string))
    : list (nat * nat * nat) :=
  flat_map (fun d => map (fun ij => (d, fst ij, snd ij))
                         (doc_positions w (length (nth d corpus []))))
           (seq 0 (length corpus)).

(** The lexicographic order on positions. *)
Definition lex_lt (p q : nat * nat * nat) : Prop :=
  let '(d, i, j) := p in
  let '(d', i', j') := q in
  d < d' \/ (d = d' /\ (i < i' \/ (i = i' /\ j < j'))).

(** The (target, context) tokens of one document. *)
Definition doc_pairs (w : nat) (text : list string) : list (string * string) :=
  map (fun ij => (nth (fst ij) text ""%string, nth (snd ij) text ""%string))
      (doc_positions w (length text)).

(** The context tokens paired with the target token [target]. *)
Definition contexts_of (target : string) (pairs : list (string * string))
    : list string :=
  map snd (filter (fun p => String.eqb (fst p) target) pairs).

(** ** Counting *)

(** The counter built from [l] on top of the counts [c]. *)
Definition count_into (c : dict nat) (l : list string) : dict nat :=
  fold_left (fun c elem => setitem c elem (get c elem 0 + 1)) l c.

(** ** Subsampling, as the specification words it *)

(** The corpus-wide relative frequency of a word. *)
Definition relative_frequency (corpus : list (list string)) (word : string) : R :=
  (INR (count_occ string_dec (chain corpus) word) / INR (length (chain corpus)))%R.

(** The comparison [a < b] as a boolean. *)
Definition Rltb (a b : R) : bool := if Rlt_dec a b then true else false.

(** Whether the occurrence of [word] that is the [k]-th token of the corpus
    is kept, when the random source stood at draw [n] on entry: its draw is
    the [k]-th one from there. *)
Definition keeps (draws : random_source) (n : nat) (corpus : list (list string))
    (k : nat) (word : string) : bool :=
  Rltb (draws (n + k)) (keep_probability (relative_frequency corpus word)).

(** The tokens of [text] kept when its loop is entered at draw [n], for
    words of relative frequencies [freq]. *)
Definition kept_from (draws : random_source) (freq : string -> R) (n : nat)
    (text : list string) : list string :=
  map snd (filter (fun iw => Rltb (draws (n + fst iw))
                                  (keep_probability (freq (snd iw))))
                  (enumerate text)).

(** The number of tokens before document [d]. *)
Definition offset (corpus : list (list string)) (d : nat) : nat :=
  length (chain (firstn d corpus)).

(** The tokens of document [d] whose occurrences are kept. *)
Definition kept_tokens (draws : random_source) (n : nat)
    (corpus : list (list string)) (d : nat) : list string :=
  map snd
      (filter (fun iw => keeps draws n corpus (offset corpus d + fst iw) (snd iw))
              (enumerate (nth d corpus []))).

(** ** Vocabulary *)

(** The two dict comprehensions, started at index [k] on a dict [acc]. *)
Definition word_indices_from (k : nat) (v : list string) (acc : dict nat)
    : dict nat :=
  fold_left (fun d '(idx, w) => setitem d w idx) (combine (seq k (length v)) v) acc.

Definition index_words_from (k : nat) (v : list string)
    (acc : list (nat * string)) : list (nat * string) :=
  fold_left (fun d '(idx, w) => setindex d idx w) (combine (seq k (length v)) v) acc.

(** ** Batches *)

(** A batch holding [n] triples. *)
Definition batch_len (n : nat) (b : batch) : Prop :=
  let '(ts, cs, ns) := b in
  length ts = n /\ length cs = n /\ length ns = n.

(** All the tokens of an example are keys of the vocabulary. *)
Definition in_vocabulary (word_to_index : dict nat) (e : example) : Prop :=
  let '(target, context, negatives) := e in
  In target (keys word_to_index) /\ In context (keys word_to_index) /\
  Forall (fun w => In w (keys word_to_index)) negatives.

(** The negative lists of the examples have one length, as [np.array] needs
    to make a rectangular array of the negatives of a batch. *)
Definition same_negatives (l : list example) : Prop :=
  exists k, Forall (fun e : example => length (snd e) = k) l.

(** ** Negative sampling, as the specification words it *)

(** The weight [count(w)^0.75] of a word, from the counts of [corpus]. *)
Definition sampling_weight (corpus : list (list string)) (word : string) : R :=
  pow075 (count_occ string_dec (chain corpus) word).

(** The weight of a word divided by the sum of the weights of [words]. *)
Definition sampling_probability (corpus : list (list string))
    (words : list string) (word : string) : R :=
  (sampling_weight corpus word / fsum (map (sampling_weight corpus) words))%R.

(** The words that stand for the counts of one multinomial draw: the first
    word as many times as the first count says, then the second word, and
    so on. *)
Definition drawn_words (words : list string) (counts : list nat) : list string :=
  concat (map2 (fun word count => repeat word count) words counts).

(** The states of the generator after [k] pulls, when the prologue has
    computed [sample_probability] and [words]. *)
Definition generator_after (sample_size : nat) (sample_probability : dict R)
    (words : list string) (k : nat) (gen : generator) : Prop :=
  match k with
  | O => gen = Created sample_size
  | S _ => gen = Suspended sample_size sample_probability words k
  end.

(** ** Concrete random sources for the examples *)

(** A multinomial draw that puts every sample on the first index. *)
Definition first_bin (c k : nat) (pvals : list R) : list nat :=
  match pvals with
  | [] => []
  | _ :: pvals' => k :: map (fun _ => 0) pvals'
  end.

(** Uniform draws: one half first, then zero for ever. *)
Definition half_then_zero (n : nat) : R :=
  match n with
  | O => (1 / 2)%R
  | S _ => 0%R
  end.

(** A generator that yields the number of pulls made before. *)
Definition counting (n : nat) : outcome (nat * nat) := Returns (n, S n).

(** A corpus of one document of 400 different two-letter words. *)
Definition numbered_word (n : nat) : string :=
  String (Ascii.ascii_of_nat (97 + n / 20))
         (String (Ascii.ascii_of_nat (97 + n mod 20)) EmptyString).

Definition numbered_corpus : list (list string) :=
  [map numbered_word (seq 0 400)].

(** ** The loss of one example, as [forward] computes it *)

(** [-log(sigma(eT . eC)) - log(sigma(-(eN_1 . eT + ... + eN_k . eT)))] *)
Definition example_loss (eT eC : list R) (eNs : list (list R)) : R :=
  (- logsigmoid (dot eT eC)
   - logsigmoid (- fsum (map (fun eN => dot eN eT) eNs)))%R.

(** The row of index [i] of an embedding table. *)
Definition row (weight : matrix) (i : nat) : list R := nth i weight [].

(** The losses of the examples of a batch, one per example. *)
Definition batch_losses (self : Word2Vec) (target_word context_word : list nat)
    (negative_example : list (list nat)) : list R :=
  map (fun e : nat * nat * list nat =>
         let '(t, c, ns) := e in
         example_loss (row (embeddings_target self) t)
                      (row (embeddings_context self) c)
                      (map (row (embeddings_context self)) ns))
      (combine (combine target_word context_word) negative_example).

(** The two tables have rows of one positive dimension, as
    [Word2Vec(embedding_size, vocab_size)] makes them. *)
Definition same_dimension (self : Word2Vec) : Prop :=
  exists D, 0 < D /\
    Forall (fun r => length r = D) (embeddings_target self) /\
    Forall (fun r => length r = D) (embeddings_context self).

(** A batch whose three tensors have one shape, with at least one negative
    per example, and whose indices are rows of the tables.  The rows of the
    tensor of negatives have one length; the properties proved of such
    batches do not depend on it, so it is not asked for here. *)
Definition well_shaped (self : Word2Vec) (target_word context_word : list nat)
    (negative_example : list (list nat)) : Prop :=
  length context_word = length target_word /\
  length negative_example = length target_word /\
  Forall (fun i => i < length (embeddings_target self)) target_word /\
  Forall (fun i => i < length (embeddings_context self)) context_word /\
  Forall (Forall (fun i => i < length (embeddings_context self))) negative_example /\
  Forall (fun ns => ns <> []) negative_example /\
  same_dimension self.

(** A network on three words in dimension 2. *)
Definition small_net : Word2Vec :=
  {| embeddings_target := [[1; 0]; [0; 1]; [1; 1]]%R;
     embeddings_context := [[0; 1]; [1; 0]; [1; 1]]%R |}.

(** ** Nearest words *)

(** A list in non-decreasing order of distance. *)
Definition sorted_by_distance (l : list (string * R)) : Prop :=
  StronglySorted (fun a b => (snd a <= snd b)%R) l.

(** A softmax network on two words in dimension 1. *)
Definition small_cbow : CBOW.Word2Vec :=
  {| CBOW.embeddings := [[1]; [2]]%R;
     CBOW.linear_weight := [[1]; [-1]]%R;
     CBOW.linear_bias := [0; 0]%R |}.

(* ================================================================= *)
(** * Part III: properties *)
(* ================================================================= *)

(** ** Context pairs *)

Lemma getindex_nth {A : Type} (l : list A) (i : nat) (d : A) :
  i < length l -> getindex l i = Returns (nth i l d).
Proof.
  intros Hi. unfold getindex.
  rewrite (nth_error_nth' l d Hi). reflexivity.
Qed.

Lemma enumerate_seq (l : list string) :
  enumerate l = map (fun i => (i, nth i l ""%string)) (seq 0 (length l)).
Proof.
  unfold enumerate.
  enough (H : forall k, combine (seq k (length l)) l
                        = map (fun i => (i, nth (i - k) l ""%string)) (seq k (length l))).
  { rewrite H. apply map_ext. intros i. now rewrite Nat.sub_0_r. }
  induction l as [|a l IH]; intros k; simpl; [reflexivity|].
  rewrite Nat.sub_diag. f_equal.
  rewrite IH. apply map_ext_in. intros i Hi. apply in_seq in Hi.
  replace (i - k) with (S (i - S k)) by lia. reflexivity.
Qed.

Lemma flat_map_of_map {A B C : Type} (f : B -> list C) (g : A -> B) (l : list A) :
  flat_map f (map g l) = flat_map (fun x => f (g x)) l.
Proof. induction l as [|a l IH]; simpl; [reflexivity | now rewrite IH]. Qed.

Lemma map_of_flat_map {A B C : Type} (h : B -> C) (f : A -> list B) (l : list A) :
  map h (flat_map f l) = flat_map (fun x => map h (f x)) l.
Proof.
  induction l as [|a l IH]; simpl; [reflexivity | now rewrite map_app, IH].
Qed.

Section PairLoops.

Variables G N : Type.
Variable next : G -> outcome (N * G).

(** [Inv k g]: [g] is a state the generator can be in after [k] pulls. *)
Variable Inv : nat -> G -> Prop.
Hypothesis next_total :
  forall k g, Inv k g -> exists x g', next g = Returns (x, g') /\ Inv (S k) g'.

Lemma window_loop_pairs (text : list string) (i : nat) (word : string) :
  forall (js : list nat) (k : nat) (g : G),
    Forall (fun j => j < length text) js ->
    Inv k g ->
    exists tuples g',
      window_loop next text i word js g = Returns (tuples, g') /\
      Inv (k + length tuples) g' /\
      map pair_of tuples
      = map (fun j => (word, nth j text ""%string))
            (filter (fun j => negb (j =? i)) js).
Proof.
  induction js as [|j js IH]; intros k g Hjs Hg.
  - exists [], g. simpl. rewrite Nat.add_0_r. repeat split. exact Hg.
  - pose proof (Forall_inv Hjs) as Hj. pose proof (Forall_inv_tail Hjs) as Hjs'.
    simpl. rewrite (Nat.eqb_sym j i).
    destruct (i =? j); simpl.
    + apply IH; assumption.
    + rewrite (getindex_nth text ""%string Hj). simpl.
      destruct (next_total Hg) as (negs & g1 & Hn & Hg1). rewrite Hn. simpl.
      destruct (IH (S k) g1 Hjs' Hg1) as (tuples & g2 & Hrun & Hg2 & Hmap).
      rewrite Hrun. simpl.
      exists ((word, nth j text ""%string, negs) :: tuples), g2.
      split; [reflexivity|]. split.
      * simpl. now rewrite Nat.add_succ_r.
      * simpl. unfold pair_of at 1. simpl. now rewrite Hmap.
Qed.

Lemma range_below (a b len : nat) :
  b <= len -> Forall (fun j => j < len) (range a b).
Proof.
  intros Hb. apply Forall_forall. intros j Hj.
  unfold range in Hj. apply in_seq in Hj. lia.
Qed.

Lemma text_loop_pairs (w : nat) (text : list string) :
  forall (iws : list (nat * string)) (k : nat) (g : G),
    Inv k g ->
    exists tuples g',
      text_loop next w text iws g = Returns (tuples, g') /\
      Inv (k + length tuples) g' /\
      map pair_of tuples
      = flat_map (fun iw => map (fun j => (snd iw, nth j text ""%string))
                                (window (length text) w (fst iw))) iws.
Proof.
  induction iws as [|[i word] iws IH]; intros k g Hg.
  - exists [], g. simpl. rewrite Nat.add_0_r. repeat split. exact Hg.
  - cbn [text_loop].
    destruct (window_loop_pairs text i word
                (range_below (Nat.max 0 (i - w)) (Nat.le_min_r (i + w) (length text)))
                Hg)
      as (here & g1 & Hrun & Hg1 & Hmap).
    rewrite Hrun. simpl.
    destruct (IH _ g1 Hg1) as (rest & g2 & Hrun' & Hg2 & Hmap').
    rewrite Hrun'. simpl.
    exists (here ++ rest), g2. split; [reflexivity|]. split.
    + rewrite length_app, Nat.add_assoc. exact Hg2.
    + rewrite map_app, Hmap, Hmap'. f_equal.
      unfold window, range. now rewrite (Nat.min_comm (length text)).
Qed.

Lemma context_tuple_list_pairs (w : nat) :
  forall (corpus : list (list string)) (k : nat) (g : G),
    Inv k g ->
    exists tuples g',
      context_tuple_list next w corpus g = Returns (tuples, g') /\
      Inv (k + length tuples) g' /\
      map pair_of tuples = flat_map (doc_pairs w) corpus.
Proof.
  induction corpus as [|text corpus IH]; intros k g Hg.
  - exists [], g. simpl. rewrite Nat.add_0_r. repeat split. exact Hg.
  - simpl.
    destruct (text_loop_pairs w text (enumerate text) Hg)
      as (here & g1 & Hrun & Hg1 & Hmap).
    rewrite Hrun. simpl.
    destruct (IH _ g1 Hg1) as (rest & g2 & Hrun' & Hg2 & Hmap').
    rewrite Hrun'. simpl.
    exists (here ++ rest), g2. split; [reflexivity|]. split.
    + rewrite length_app, Nat.add_assoc. exact Hg2.
    + rewrite map_app, Hmap, Hmap'. f_equal.
      rewrite enumerate_seq. unfold doc_pairs, doc_positions.
      rewrite flat_map_of_map, map_of_flat_map.
      apply flat_map_ext. intros i. simpl. now rewrite map_map.
Qed.

End PairLoops.

(** The same for a generator that yields in every state. *)
Lemma context_tuple_list_pairs_total (G N : Type) (next : G -> outcome (N * G))
    (w : nat) (corpus : list (list string)) (g : G) :
  (forall g, exists r, next g = Returns r) ->
  exists tuples g',
    context_tuple_list next w corpus g = Returns (tuples, g') /\
    map pair_of tuples = flat_map (doc_pairs w) corpus.
Proof.
  intros Htotal.
  destruct (@context_tuple_list_pairs G N next (fun _ _ => True)) with
    (w := w) (corpus := corpus) (k := 0) (g := g)
    as (tuples & g' & Hrun & _ & Hmap).
  - intros k g0 _. destruct (Htotal g0) as [[x g1] Hn]. exists x, g1. auto.
  - exact I.
  - exists tuples, g'. auto.
Qed.

Lemma flat_map_doc_pairs (w : nat) (corpus : list (list string)) :
  flat_map (doc_pairs w) corpus
  = map (fun p : nat * nat * nat =>
           let '(d, i, j) := p in (token corpus d i, token corpus d j))
        (window_positions w corpus).
Proof.
  unfold window_positions.
  enough (H : forall pre,
             flat_map (doc_pairs w) corpus
             = map (fun p : nat * nat * nat =>
                      let '(d, i, j) := p in
                      (token (pre ++ corpus) d i, token (pre ++ corpus) d j))
                   (flat_map (fun d => map (fun ij => (d, fst ij, snd ij))
                                (doc_positions w (length (nth d (pre ++ corpus) []))))
                             (seq (length pre) (length corpus)))).
  { exact (H []). }
  induction corpus as [|text corpus IH]; intros pre; [reflexivity|].
  simpl. rewrite map_app. f_equal.
  - rewrite app_nth2, Nat.sub_diag by lia. simpl.
    unfold doc_pairs. rewrite map_map. apply map_ext. intros [i j]. simpl.
    unfold token. rewrite app_nth2, Nat.sub_diag by lia. reflexivity.
  - specialize (IH (pre ++ [text])).
    rewrite <- app_assoc, length_app, Nat.add_1_r in IH. simpl in IH. exact IH.
Qed.

Lemma window_In (len w i j : nat) :
  In j (window len w i)
  <-> Nat.max 0 (i - w) <= j < Nat.min len (i + w) /\ j <> i.
Proof.
  unfold window. rewrite filter_In, in_seq, negb_true_iff, Nat.eqb_neq. lia.
Qed.

Lemma doc_positions_In (w len i j : nat) :
  In (i, j) (doc_positions w len)
  <-> i < len /\ Nat.max 0 (i - w) <= j < Nat.min len (i + w) /\ j <> i.
Proof.
  unfold doc_positions. rewrite in_flat_map. split.
  - intros (i' & Hi' & Hin). apply in_map_iff in Hin.
    destruct Hin as (j' & Heq & Hj'). inversion Heq; subst.
    apply in_seq in Hi'. apply window_In in Hj'. lia.
  - intros (Hi & Hj). exists i. split; [apply in_seq; lia|].
    apply in_map. apply window_In. exact Hj.
Qed.

Lemma window_positions_In (w : nat) (corpus : list (list string)) (d i j : nat) :
  In (d, i, j) (window_positions w corpus)
  <-> d < length corpus /\
      i < length (nth d corpus []) /\
      Nat.max 0 (i - w) <= j < Nat.min (length (nth d corpus [])) (i + w) /\
      j <> i.
Proof.
  unfold window_positions. rewrite in_flat_map. split.
  - intros (d' & Hd' & Hin). apply in_map_iff in Hin.
    destruct Hin as ([i' j'] & Heq & Hij). inversion Heq; subst.
    apply in_seq in Hd'. apply doc_positions_In in Hij. simpl. lia.
  - intros (Hd & Hij). exists d. split; [apply in_seq; lia|].
    apply in_map_iff. exists (i, j). split; [reflexivity|].
    apply doc_positions_In. exact Hij.
Qed.

(** Sortedness of concatenations of sorted chunks. *)

Lemma StronglySorted_app {A : Type} (R : A -> A -> Prop) (l l' : list A) :
  StronglySorted R l -> StronglySorted R l' ->
  (forall a b, In a l -> In b l' -> R a b) ->
  StronglySorted R (l ++ l').
Proof.
  induction l as [|a l IH]; intros Hl Hl' Hx; simpl; [assumption|].
  inversion Hl as [|? ? Hs Hf]; subst. constructor.
  - apply IH; [assumption | assumption |]. intros; apply Hx; simpl; auto.
  - apply Forall_app. split; [assumption|].
    apply Forall_forall. intros b Hb. apply Hx; simpl; auto.
Qed.

Lemma StronglySorted_flat_map {A B : Type} (RA : A -> A -> Prop)
    (RB : B -> B -> Prop) (f : A -> list B) (l : list A) :
  StronglySorted RA l ->
  (forall a, In a l -> StronglySorted RB (f a)) ->
  (forall a a' b b', RA a a' -> In b (f a) -> In b' (f a') -> RB b b') ->
  StronglySorted RB (flat_map f l).
Proof.
  intros Hl Hin Hx. induction Hl as [|a l Hs IH Hf]; simpl; [constructor|].
  apply StronglySorted_app.
  - apply Hin. simpl; auto.
  - apply IH. intros; apply Hin; simpl; auto.
  - intros b b' Hb Hb'. apply in_flat_map in Hb'. destruct Hb' as (a' & Ha' & Hb').
    apply (Hx a a'); [|assumption|assumption].
    rewrite Forall_forall in Hf. apply Hf. assumption.
Qed.

Lemma StronglySorted_map {A B : Type} (RA : A -> A -> Prop)
    (RB : B -> B -> Prop) (f : A -> B) (l : list A) :
  (forall a a', RA a a' -> RB (f a) (f a')) ->
  StronglySorted RA l -> StronglySorted RB (map f l).
Proof.
  intros Hm Hl. induction Hl as [|a l Hs IH Hf]; simpl; constructor.
  - exact IH.
  - apply Forall_map. revert Hf. apply Forall_impl. intros a'. apply Hm.
Qed.

Lemma StronglySorted_filter {A : Type} (R : A -> A -> Prop) (p : A -> bool)
    (l : list A) :
  StronglySorted R l -> StronglySorted R (filter p l).
Proof.
  intros Hl. induction Hl as [|a l Hs IH Hf]; simpl; [constructor|].
  destruct (p a); [|exact IH]. constructor; [exact IH|].
  rewrite Forall_forall in *. intros b Hb. apply filter_In in Hb. apply Hf, Hb.
Qed.

Lemma StronglySorted_seq (a n : nat) : StronglySorted lt (seq a n).
Proof.
  revert a. induction n as [|n IH]; intros a; simpl; constructor.
  - apply IH.
  - apply Forall_forall. intros b Hb. apply in_seq in Hb. lia.
Qed.

Lemma window_positions_sorted (w : nat) (corpus : list (list string)) :
  StronglySorted lex_lt (window_positions w corpus).
Proof.
  unfold window_positions.
  apply StronglySorted_flat_map with (RA := lt).
  - apply StronglySorted_seq.
  - intros d _.
    apply StronglySorted_map
      with (RA := fun p q : nat * nat =>
                    fst p < fst q \/ (fst p = fst q /\ snd p < snd q)).
    + intros [i j] [i' j']. simpl. intros H. right. split; [reflexivity | exact H].
    + unfold doc_positions. apply StronglySorted_flat_map with (RA := lt).
      * apply StronglySorted_seq.
      * intros i _. apply StronglySorted_map with (RA := lt).
        -- intros j j' H. simpl. right. split; [reflexivity | exact H].
        -- unfold window. apply StronglySorted_filter, StronglySorted_seq.
      * intros i i' p q Hlt Hp Hq.
        apply in_map_iff in Hp. destruct Hp as (j & <- & _).
        apply in_map_iff in Hq. destruct Hq as (j' & <- & _).
        simpl. left. exact Hlt.
  - intros d d' p q Hlt Hp Hq.
    apply in_map_iff in Hp. destruct Hp as ([i j] & <- & _).
    apply in_map_iff in Hq. destruct Hq as ([i' j'] & <- & _).
    simpl. left. exact Hlt.
Qed.

Lemma lex_lt_irrefl (p : nat * nat * nat) : ~ lex_lt p p.
Proof. destruct p as [[d i] j]. simpl. lia. Qed.

Lemma StronglySorted_NoDup {A : Type} (R : A -> A -> Prop) (l : list A) :
  (forall a, ~ R a a) -> StronglySorted R l -> NoDup l.
Proof.
  intros Hirr Hl. induction Hl as [|a l Hs IH Hf]; constructor; [|exact IH].
  intros Hin. rewrite Forall_forall in Hf. exact (Hirr a (Hf a Hin)).
Qed.

Section ExactPairs.

Variables G N : Type.
Variable next : G -> outcome (N * G).
Hypothesis next_total : forall g, exists r, next g = Returns r.

(** C3.  With a generator that always yields, the pair loop returns, and the
    (target, context) parts of its tuples are, in this order, the tokens at
    the positions [(d, i, j)] of [window_positions]: document [d], target
    position [i], context position [j] in the same document.  These are
    exactly the positions with [max(0, i-w) <= j < min(len, i+w)] and
    [j <> i], each once, in increasing order of document, then target
    position, then context position.  The list does not depend on the
    generator. *)
Theorem context_tuple_list_exact (w : nat) (corpus : list (list string)) (g : G) :
  (exists tuples g',
      context_tuple_list next w corpus g = Returns (tuples, g') /\
      map pair_of tuples
      = map (fun p : nat * nat * nat =>
               let '(d, i, j) := p in (token corpus d i, token corpus d j))
            (window_positions w corpus)) /\
  (forall d i j,
      In (d, i, j) (window_positions w corpus)
      <-> d < length corpus /\
          i < length (nth d corpus []) /\
          Nat.max 0 (i - w) <= j < Nat.min (length (nth d corpus [])) (i + w) /\
          j <> i) /\
  NoDup (window_positions w corpus) /\
  StronglySorted lex_lt (window_positions w corpus).
Proof.
  split; [|split; [|split]].
  - destruct (context_tuple_list_pairs_total next w corpus g next_total)
      as (tuples & g' & Hrun & Hmap).
    exists tuples, g'. split; [exact Hrun|].
    rewrite Hmap. apply flat_map_doc_pairs.
  - intros d i j. apply window_positions_In.
  - apply StronglySorted_NoDup with (R := lex_lt).
    + apply lex_lt_irrefl.
    + apply window_positions_sorted.
  - apply window_positions_sorted.
Qed.
End ExactPairs.

Lemma context_tuple_list_exact_witness :
  (forall g, exists r, no_negatives g = Returns r) /\
  exists tuples g',
    context_tuple_list no_negatives 2 [["x"; "y"; "z"]%string; ["u"%string]] tt
    = Returns (tuples, g') /\
    map pair_of tuples
    = [("x", "y"); ("y", "x"); ("y", "z"); ("z", "x"); ("z", "y")]%string.
Proof.
  assert (Ht : forall g, exists r, no_negatives g = Returns r).
  { intros g. exists (tt, tt). reflexivity. }
  split; [exact Ht|].
  destruct (context_tuple_list_exact no_negatives Ht 2
              [["x"; "y"; "z"]%string; ["u"%string]] tt)
    as ((tuples & g' & Hrun & Hmap) & _).
  exists tuples, g'. split; [exact Hrun | exact Hmap].
Defined.

(** C4.  What the loop does on the document a b c d e with w = 2: the
    contexts paired with the target c are a, b and d; e is not among them,
    because [range] stops before [i + w]. *)
Theorem window_example_contexts :
  exists tuples g',
    context_tuple_list no_negatives 2 [["a"; "b"; "c"; "d"; "e"]%string] tt
    = Returns (tuples, g') /\
    contexts_of "c" (map pair_of tuples) = ["a"; "b"; "d"]%string /\
    ~ In "e"%string (contexts_of "c" (map pair_of tuples)).
Proof.
  eexists. eexists. split; [reflexivity|]. split; [reflexivity|].
  simpl. intros [H|[H|[H|[]]]]; discriminate H.
Qed.

(** The notebook's own example, "My cat is lazy, it sleeps all day long" with
    the target lazy and a window of 2: the text gives the contexts cat, is,
    it and sleeps; the loop pairs lazy with cat, is and it only. *)
Lemma notebook_example_contexts :
  exists tuples g',
    context_tuple_list no_negatives 2
      [["my"; "cat"; "is"; "lazy"; "it"; "sleeps"; "all"; "day"; "long"]%string] tt
    = Returns (tuples, g') /\
    contexts_of "lazy" (map pair_of tuples) = ["cat"; "is"; "it"]%string.
Proof. eexists. eexists. split; reflexivity. Qed.

(** C5 as stated fails: a word next to another occurrence of itself is
    paired with it. *)
Lemma repeated_word_pair :
  exists tuples g',
    context_tuple_list no_negatives 2 [["a"; "a"]%string] tt
    = Returns (tuples, g') /\
    exists t, In t tuples /\ fst (pair_of t) = snd (pair_of t).
Proof.
  eexists. eexists. split; [reflexivity|].
  exists ("a"%string, "a"%string, tt). split; [left; reflexivity | reflexivity].
Qed.

Lemma NoDup_nth_neq (text : list string) (i j : nat) :
  NoDup text -> i < length text -> j < length text -> i <> j ->
  nth i text ""%string <> nth j text ""%string.
Proof.
  intros Hnd Hi Hj Hij Heq. apply Hij.
  apply (proj1 (NoDup_nth text ""%string) Hnd i j Hi Hj Heq).
Qed.

Section DistinctPositions.

Variables G N : Type.
Variable next : G -> outcome (N * G).
Hypothesis next_total : forall g, exists r, next g = Returns r.

(** C5, as the code has it.  Every emitted pair joins two different
    positions of one document; its two tokens differ whenever no document
    repeats a token. *)
Theorem context_pairs_distinct_positions (w : nat) (corpus : list (list string))
    (g : G) :
  exists tuples g',
    context_tuple_list next w corpus g = Returns (tuples, g') /\
    (forall t, In t tuples ->
       exists d i j,
         d < length corpus /\
         i < length (nth d corpus []) /\ j < length (nth d corpus []) /\
         i <> j /\
         pair_of t = (token corpus d i, token corpus d j)) /\
    ((forall text, In text corpus -> NoDup text) ->
     forall t, In t tuples -> fst (pair_of t) <> snd (pair_of t)).
Proof.
  destruct (context_tuple_list_pairs_total next w corpus g next_total)
    as (tuples & g' & Hrun & Hmap).
  rewrite flat_map_doc_pairs in Hmap.
  assert (Hpos : forall t, In t tuples ->
            exists d i j,
              d < length corpus /\
              i < length (nth d corpus []) /\ j < length (nth d corpus []) /\
              i <> j /\
              pair_of t = (token corpus d i, token corpus d j)).
  { intros t Ht. apply (in_map pair_of) in Ht. rewrite Hmap in Ht.
    apply in_map_iff in Ht. destruct Ht as ([[d i] j] & Heq & Hin).
    apply window_positions_In in Hin.
    exists d, i, j. repeat split; try lia. symmetry. exact Heq. }
  exists tuples, g'. split; [exact Hrun|]. split; [exact Hpos|].
  intros Hnd t Ht. destruct (Hpos t Ht) as (d & i & j & Hd & Hi & Hj & Hij & Heq).
  rewrite Heq. simpl. unfold token.
  apply NoDup_nth_neq; try assumption.
  apply Hnd. apply nth_In. exact Hd.
Qed.
End DistinctPositions.

Lemma context_pairs_distinct_positions_witness :
  (forall g, exists r, no_negatives g = Returns r) /\
  exists tuples g',
    context_tuple_list no_negatives 2 [["x"; "y"; "z"]%string] tt
    = Returns (tuples, g') /\
    forall t, In t tuples -> fst (pair_of t) <> snd (pair_of t).
Proof.
  assert (Ht : forall g, exists r, no_negatives g = Returns r).
  { intros g. exists (tt, tt). reflexivity. }
  split; [exact Ht|].
  destruct (context_pairs_distinct_positions no_negatives Ht 2
              [["x"; "y"; "z"]%string] tt)
    as (tuples & g' & Hrun & _ & Hneq).
  exists tuples, g'. split; [exact Hrun|].
  apply Hneq. intros text [<-|[]].
  repeat constructor; simpl; intuition discriminate.
Defined.

(** ** Dictionaries and counters *)

Lemma dict_find_setitem_same {V : Type} (d : dict V) (k : string) (v : V) :
  dict_find (setitem d k v) k = Some v.
Proof.
  induction d as [|[k' v'] d IH]; simpl.
  - now rewrite String.eqb_refl.
  - destruct (String.eqb k' k) eqn:E; simpl; rewrite E; [reflexivity | exact IH].
Qed.

Lemma dict_find_setitem_other {V : Type} (d : dict V) (k k0 : string) (v : V) :
  k <> k0 -> dict_find (setitem d k v) k0 = dict_find d k0.
Proof.
  intros Hne. induction d as [|[k' v'] d IH]; simpl.
  - apply String.eqb_neq in Hne. now rewrite Hne.
  - destruct (String.eqb k' k) eqn:E; simpl.
    + apply String.eqb_eq in E. subst k'.
      apply String.eqb_neq in Hne. now rewrite Hne.
    + destruct (String.eqb k' k0); [reflexivity | exact IH].
Qed.

Lemma dict_find_keys {V : Type} (d : dict V) (k : string) :
  In k (keys d) <-> dict_find d k <> None.
Proof.
  induction d as [|[k' v'] d IH]; simpl; [tauto|].
  destruct (String.eqb k' k) eqn:E.
  - apply String.eqb_eq in E. split; [discriminate | tauto].
  - apply String.eqb_neq in E. rewrite <- IH. tauto.
Qed.

Lemma keys_setitem_old {V : Type} (d : dict V) (k : string) (v : V) :
  In k (keys d) -> keys (setitem d k v) = keys d.
Proof.
  induction d as [|[k' v'] d IH]; simpl; [tauto|].
  intros Hin. destruct (String.eqb k' k) eqn:E; simpl; [reflexivity|].
  apply String.eqb_neq in E. f_equal. apply IH. tauto.
Qed.

Lemma keys_setitem_new {V : Type} (d : dict V) (k : string) (v : V) :
  ~ In k (keys d) -> keys (setitem d k v) = keys d ++ [k].
Proof.
  induction d as [|[k' v'] d IH]; simpl; [reflexivity|].
  intros Hin. destruct (String.eqb k' k) eqn:E; simpl.
  - apply String.eqb_eq in E. tauto.
  - f_equal. apply IH. tauto.
Qed.

Lemma NoDup_snoc {A : Type} (l : list A) (a : A) :
  NoDup l -> ~ In a l -> NoDup (l ++ [a]).
Proof.
  intros Hl Ha. apply NoDup_app; [assumption | repeat constructor; simpl; tauto |].
  intros x Hx [<-|[]]. exact (Ha Hx).
Qed.

Lemma keys_setitem_NoDup {V : Type} (d : dict V) (k : string) (v : V) :
  NoDup (keys d) -> NoDup (keys (setitem d k v)).
Proof.
  intros Hnd. destruct (in_dec string_dec k (keys d)) as [Hin|Hin].
  - now rewrite keys_setitem_old.
  - rewrite keys_setitem_new by assumption. now apply NoDup_snoc.
Qed.

Lemma isum_shift (l : list nat) (a : nat) :
  fold_left Nat.add l a = a + isum l.
Proof.
  unfold isum. revert a. induction l as [|x l IH]; intros a; simpl; [lia|].
  rewrite (IH (a + x)), (IH x). lia.
Qed.

Lemma isum_cons (x : nat) (l : list nat) : isum (x :: l) = x + isum l.
Proof. unfold isum at 1. simpl. apply isum_shift. Qed.

Lemma isum_values_setitem (d : dict nat) (k : string) (v : nat) :
  isum (values (setitem d k v)) + get d k 0 = isum (values d) + v.
Proof.
  unfold get. induction d as [|[k' v'] d IH]; simpl.
  - rewrite isum_cons. unfold isum. simpl. lia.
  - destruct (String.eqb k' k) eqn:E; simpl; rewrite !isum_cons; lia.
Qed.

Lemma count_into_get (l : list string) :
  forall (c : dict nat) (w : string),
    get (count_into c l) w 0 = count_occ string_dec l w + get c w 0.
Proof.
  induction l as [|a l IH]; intros c w; simpl; [reflexivity|].
  rewrite IH. destruct (string_dec a w) as [->|Hne].
  - unfold get at 1. rewrite dict_find_setitem_same. lia.
  - unfold get at 1 3. now rewrite dict_find_setitem_other.
Qed.

Lemma count_into_keys_In (l : list string) :
  forall (c : dict nat) (w : string),
    In w (keys (count_into c l)) <-> In w l \/ In w (keys c).
Proof.
  induction l as [|a l IH]; intros c w; simpl; [tauto|].
  rewrite IH, !dict_find_keys. destruct (string_dec a w) as [->|Hne].
  - rewrite dict_find_setitem_same. split; [tauto | intros _; right; discriminate].
  - rewrite dict_find_setitem_other by assumption. tauto.
Qed.

Lemma count_into_keys_NoDup (l : list string) :
  forall c : dict nat, NoDup (keys c) -> NoDup (keys (count_into c l)).
Proof.
  induction l as [|a l IH]; intros c Hc; simpl; [exact Hc|].
  apply IH. now apply keys_setitem_NoDup.
Qed.

Lemma count_into_sum (l : list string) :
  forall c : dict nat,
    isum (values (count_into c l)) = length l + isum (values c).
Proof.
  induction l as [|a l IH]; intros c; simpl; [reflexivity|].
  rewrite IH. pose proof (isum_values_setitem c a (get c a 0 + 1)). lia.
Qed.

Lemma Counter_get (l : list string) (w : string) :
  get (Counter l) w 0 = count_occ string_dec l w.
Proof.
  unfold Counter. fold (count_into [] l). rewrite count_into_get.
  unfold get. simpl. lia.
Qed.

Lemma Counter_keys_In (l : list string) (w : string) :
  In w (keys (Counter l)) <-> In w l.
Proof.
  unfold Counter. fold (count_into [] l). rewrite count_into_keys_In.
  simpl. tauto.
Qed.

Lemma Counter_keys_NoDup (l : list string) : NoDup (keys (Counter l)).
Proof.
  unfold Counter. fold (count_into [] l). apply count_into_keys_NoDup. constructor.
Qed.

Lemma Counter_sum (l : list string) : isum (values (Counter l)) = length l.
Proof.
  unfold Counter. fold (count_into [] l). rewrite count_into_sum.
  unfold isum. simpl. lia.
Qed.

Lemma Counter_getitem (l : list string) (w : string) :
  In w l -> getitem (Counter l) w = Returns (count_occ string_dec l w).
Proof.
  intros Hin. pose proof (Counter_get l w) as Hget.
  apply Counter_keys_In, dict_find_keys in Hin.
  unfold getitem. unfold get in Hget.
  destruct (dict_find (Counter l) w); [now subst | contradiction].
Qed.

(** ** Subsampling *)

Lemma truediv_Returns (a b : R) : b <> 0%R -> truediv a b = Returns (a / b)%R.
Proof. intros Hb. unfold truediv. destruct (Req_dec_T b 0); [contradiction | reflexivity]. Qed.

Lemma getitem_find {V : Type} (d : dict V) (k : string) (v : V) :
  dict_find d k = Some v -> getitem d k = Returns v.
Proof. intros H. unfold getitem. now rewrite H. Qed.

Lemma getitem_get (d : dict nat) (k : string) :
  In k (keys d) -> getitem d k = Returns (get d k 0).
Proof.
  intros Hin. apply dict_find_keys in Hin. unfold getitem, get.
  destruct (dict_find d k); [reflexivity | contradiction].
Qed.

Lemma normalize_counts_find (word_counts : dict nat) (total : nat) :
  total <> 0 ->
  forall (words : list string) (acc : dict R),
    (forall w, In w words -> In w (keys word_counts)) ->
    exists d,
      normalize_counts word_counts total words acc = Returns d /\
      forall w,
        dict_find d w
        = if in_dec string_dec w words
          then Some (INR (get word_counts w 0%nat) / INR total)%R
          else dict_find acc w.
Proof.
  intros Htotal. induction words as [|word words IH]; intros acc Hsub.
  - exists acc. split; [reflexivity|]. intros w. reflexivity.
  - cbn [normalize_counts].
    rewrite (getitem_get word_counts word) by (apply Hsub; simpl; auto).
    cbn [bind]. rewrite truediv_Returns by (apply not_0_INR; exact Htotal).
    cbn [bind].
    destruct (IH (setitem acc word (INR (get word_counts word 0%nat) / INR total)%R))
      as (d & Hrun & Hfind).
    { intros w Hw. apply Hsub. simpl; auto. }
    exists d. split; [exact Hrun|]. intros w. rewrite Hfind.
    destruct (in_dec string_dec w words) as [Hin|Hin];
      destruct (in_dec string_dec w (word :: words)) as [Hin'|Hin'];
      simpl in Hin'; try reflexivity; try tauto.
    + destruct Hin' as [->|]; [|contradiction]. apply dict_find_setitem_same.
    + apply dict_find_setitem_other. intros ->. tauto.
Qed.

Lemma relative_frequency_pos (corpus : list (list string)) (word : string) :
  In word (chain corpus) -> (0 < relative_frequency corpus word)%R.
Proof.
  intros Hin. unfold relative_frequency.
  assert (Hc : 0 < count_occ string_dec (chain corpus) word)
    by (apply count_occ_In; exact Hin).
  assert (Hl : 0 < length (chain corpus))
    by (destruct (chain corpus); [contradiction | simpl; lia]).
  apply Rdiv_lt_0_compat; apply lt_0_INR; assumption.
Qed.

(** The dictionary of relative frequencies that the function computes. *)
Lemma subsample_word_counts (corpus : list (list string)) :
  exists d,
    normalize_counts (Counter (chain corpus))
      (isum (values (Counter (chain corpus))))
      (keys (Counter (chain corpus))) [] = Returns d /\
    forall w, In w (chain corpus) ->
              dict_find d w = Some (relative_frequency corpus w).
Proof.
  rewrite Counter_sum.
  destruct (chain corpus) as [|a l] eqn:E.
  - exists []. split; [reflexivity|]. intros w [].
  - rewrite <- E.
    assert (Hne : length (chain corpus) <> 0) by (rewrite E; simpl; lia).
    destruct (normalize_counts_find (Counter (chain corpus)) Hne
                (keys (Counter (chain corpus))) [] (fun w H => H))
      as (d & Hrun & Hfind).
    exists d. split; [exact Hrun|]. intros w Hw. rewrite Hfind.
    destruct (in_dec string_dec w (keys (Counter (chain corpus)))) as [Hin|Hin].
    + unfold relative_frequency. now rewrite Counter_get.
    + exfalso. apply Hin. apply Counter_keys_In. exact Hw.
Qed.

Lemma enumerate_cons {A : Type} (a : A) (l : list A) :
  enumerate (a :: l) = (0, a) :: map (fun iw => (S (fst iw), snd iw)) (enumerate l).
Proof.
  unfold enumerate. simpl. f_equal.
  rewrite <- seq_shift. generalize (seq 0 (length l)) as s.
  induction l as [|b l IH]; intros [|i s]; simpl; try reflexivity.
  f_equal. apply IH.
Qed.

Lemma filter_map_comm {A B : Type} (p : B -> bool) (f : A -> B) (l : list A) :
  filter p (map f l) = map f (filter (fun a => p (f a)) l).
Proof.
  induction l as [|a l IH]; simpl; [reflexivity|].
  destruct (p (f a)); simpl; now rewrite IH.
Qed.

Section SubsampleLoops.

Variable word_counts : dict R.
Variable draws : random_source.
Variable freq : string -> R.

Lemma subsample_text_kept :
  forall (text : list string) (n : nat),
    (forall w, In w text -> dict_find word_counts w = Some (freq w) /\ freq w <> 0%R) ->
    subsample_text word_counts draws text n
    = Returns (kept_from draws freq n text, n + length text).
Proof.
  induction text as [|word text IH]; intros n Hfind.
  - unfold kept_from. simpl. now rewrite Nat.add_0_r.
  - destruct (Hfind word (or_introl eq_refl)) as [Hw Hnz].
    cbn [subsample_text]. rewrite (getitem_find _ _ Hw). cbn [bind].
    rewrite truediv_Returns by exact Hnz. cbn [bind].
    rewrite IH by (intros w Hin; apply Hfind; simpl; auto). cbn [bind].
    f_equal. f_equal; [|simpl; lia].
    unfold kept_from. rewrite enumerate_cons. cbn [filter fst snd].
    rewrite Nat.add_0_r, filter_map_comm. cbn [fst snd].
    assert (Hext : forall l : list (nat * string),
               filter (fun a => Rltb (draws (n + S (fst a)))
                                     (keep_probability (freq (snd a)))) l
               = filter (fun iw => Rltb (draws (S n + fst iw))
                                        (keep_probability (freq (snd iw)))) l).
    { intros l. apply filter_ext. intros a. now rewrite Nat.add_succ_r. }
    rewrite Hext. set (rest := filter _ (enumerate text)).
    assert (Hrest : map snd (map (fun iw : nat * string => (S (fst iw), snd iw)) rest)
                    = map snd rest).
    { rewrite map_map. reflexivity. }
    unfold Rltb, keep_probability.
    destruct (Rlt_dec (draws n) ((1 + sqrt (freq word * 1e3)) * 1e-3 / freq word));
      cbn [map snd]; rewrite Hrest; reflexivity.
Qed.

Lemma subsample_corpus_kept :
  forall (corpus : list (list string)) (n : nat),
    (forall w, In w (chain corpus) ->
               dict_find word_counts w = Some (freq w) /\ freq w <> 0%R) ->
    exists out,
      subsample_corpus word_counts draws corpus n
      = Returns (out, n + length (chain corpus)) /\
      length out = length corpus /\
      forall d, d < length corpus ->
                nth d out [] = kept_from draws freq (n + offset corpus d) (nth d corpus []).
Proof.
  induction corpus as [|text corpus IH]; intros n Hfind.
  - exists []. simpl. rewrite Nat.add_0_r. repeat split. intros d Hd. lia.
  - cbn [subsample_corpus].
    rewrite subsample_text_kept
      by (intros w Hin; apply Hfind; unfold chain; simpl; apply in_or_app; auto).
    cbn [bind].
    destruct (IH (n + length text)) as (out & Hrun & Hlen & Hnth).
    { intros w Hin. apply Hfind. unfold chain; simpl. apply in_or_app; auto. }
    rewrite Hrun. cbn [bind].
    exists (kept_from draws freq n text :: out). split; [|split].
    + unfold chain. simpl. rewrite length_app. f_equal. f_equal. lia.
    + simpl. now rewrite Hlen.
    + intros [|d] Hd.
      * unfold offset. simpl. now rewrite Nat.add_0_r.
      * simpl in Hd. cbn [nth]. rewrite Hnth by lia.
        unfold offset, chain. simpl. rewrite length_app. f_equal. lia.
Qed.

End SubsampleLoops.

Lemma Rltb_true (a b : R) : Rltb a b = true <-> (a < b)%R.
Proof.
  unfold Rltb. destruct (Rlt_dec a b); split; intros H;
    try reflexivity; try assumption; try discriminate; contradiction.
Qed.

Lemma subsample_frequent_words_run (draws : random_source)
    (corpus : list (list string)) (n : nat) :
  exists out,
    subsample_frequent_words draws corpus n
    = Returns (out, n + length (chain corpus)) /\
    length out = length corpus /\
    (forall d, d < length corpus -> nth d out [] = kept_tokens draws n corpus d).
Proof.
  destruct (subsample_word_counts corpus) as (wc & Hwc & Hfind).
  destruct (subsample_corpus_kept wc draws (relative_frequency corpus) corpus n)
    as (out & Hrun & Hlen & Hnth).
  { intros w Hw. split; [apply Hfind; exact Hw|].
    pose proof (relative_frequency_pos corpus w Hw). lra. }
  exists out. split; [|split].
  - unfold subsample_frequent_words. rewrite Hwc. cbn [bind]. exact Hrun.
  - exact Hlen.
  - intros d Hd. rewrite (Hnth d Hd). unfold kept_tokens, kept_from. f_equal.
    apply filter_ext. intros iw. unfold keeps. now rewrite Nat.add_assoc.
Qed.

(** C6.  The subsampler never raises; it consumes one draw per token
    occurrence, in corpus order; an occurrence is kept exactly when its draw
    is below the keep-probability of its word's relative frequency, hence
    always when that value is at least 1; the output has one document per
    input document, in the same order, made of the kept tokens. *)
Theorem subsample_frequent_words_spec (draws : random_source)
    (corpus : list (list string)) (n : nat) :
  (forall m, 0 <= draws m < 1)%R ->
  exists out,
    subsample_frequent_words draws corpus n
    = Returns (out, n + length (chain corpus)) /\
    length out = length corpus /\
    (forall d, d < length corpus -> nth d out [] = kept_tokens draws n corpus d) /\
    (forall k word,
        keeps draws n corpus k word = true
        <-> (draws (n + k)%nat < keep_probability (relative_frequency corpus word))%R) /\
    (forall k word,
        (1 <= keep_probability (relative_frequency corpus word))%R ->
        keeps draws n corpus k word = true).
Proof.
  intros Hdraws.
  destruct (subsample_frequent_words_run draws corpus n)
    as (out & Hrun & Hlen & Hnth).
  exists out. split; [exact Hrun|]. split; [exact Hlen|]. split; [exact Hnth|].
  split.
  - intros k word. unfold keeps. apply Rltb_true.
  - intros k word HP. unfold keeps. apply Rltb_true.
    destruct (Hdraws (n + k)). lra.
Qed.

Lemma subsample_frequent_words_spec_witness :
  (forall m : nat, 0 <= (fun _ : nat => 0) m < 1)%R /\
  exists out,
    subsample_frequent_words (fun _ => 0%R) [["a"; "b"]%string; ["a"%string]] 0
    = Returns (out, 3) /\
    length out = 2.
Proof.
  assert (Hd : (forall m : nat, 0 <= (fun _ : nat => 0) m < 1)%R)
    by (intros m; lra).
  split; [exact Hd|].
  destruct (subsample_frequent_words_spec (fun _ => 0%R)
              [["a"; "b"]%string; ["a"%string]] 0 Hd)
    as (out & Hrun & Hlen & _).
  exists out. split; [exact Hrun | exact Hlen].
Defined.

(** ** The keep-probability as a function of the relative frequency *)

Lemma keep_probability_root (p : R) :
  (0 < p)%R ->
  exists s, (0 < s /\ s * s = p * 1e3 /\
             keep_probability p = (1 + s) / (s * s))%R.
Proof.
  intros Hp. exists (sqrt (p * 1e3)).
  assert (Hpos : (0 < p * 1e3)%R) by lra.
  assert (Hs : (0 < sqrt (p * 1e3))%R) by (apply sqrt_lt_R0; exact Hpos).
  assert (Hsq : (sqrt (p * 1e3) * sqrt (p * 1e3) = p * 1e3)%R)
    by (apply sqrt_sqrt; lra).
  repeat split; [exact Hs | exact Hsq |].
  unfold keep_probability. rewrite Hsq. field. lra.
Qed.

Lemma keep_probability_decreasing (p q : R) :
  (0 < p)%R -> (p < q)%R -> (keep_probability q < keep_probability p)%R.
Proof.
  intros Hp Hpq.
  destruct (keep_probability_root Hp) as (s & Hs & Hss & ->).
  destruct (keep_probability_root (Rlt_trans _ _ _ Hp Hpq)) as (t & Ht & Htt & ->).
  assert (Hst : (s < t)%R) by nra.
  assert (Hs2 : (0 < s * s)%R) by nra.
  assert (Ht2 : (0 < t * t)%R) by nra.
  apply (Rmult_lt_reg_r ((s * s) * (t * t))); [nra|].
  replace ((1 + t) / (t * t) * (s * s * (t * t)))%R with ((1 + t) * (s * s))%R
    by (field; lra).
  replace ((1 + s) / (s * s) * (s * s * (t * t)))%R with ((1 + s) * (t * t))%R
    by (field; lra).
  assert (H1 : (s * s < t * t)%R) by nra.
  assert (H0 : (0 < (s * t) * (t - s))%R)
    by (apply Rmult_lt_0_compat; [apply Rmult_lt_0_compat; assumption | lra]).
  lra.
Qed.

Lemma keep_probability_rare (p : R) :
  (0 < p <= 25e-4)%R -> (1 <= keep_probability p)%R.
Proof.
  intros [Hp Hle].
  destruct (keep_probability_root Hp) as (s & Hs & Hss & ->).
  assert (Hs2 : (0 < s * s)%R) by nra.
  apply (Rmult_le_reg_r (s * s)); [exact Hs2|].
  replace ((1 + s) / (s * s) * (s * s))%R with (1 + s)%R by (field; lra).
  assert (Hb : (s <= 16e-1)%R) by nra.
  nra.
Qed.

Lemma keep_probability_frequent (p : R) :
  (3e-3 <= p)%R -> (keep_probability p < 1)%R.
Proof.
  intros Hle.
  assert (Hp : (0 < p)%R) by lra.
  destruct (keep_probability_root Hp) as (s & Hs & Hss & ->).
  assert (Hs2 : (0 < s * s)%R) by nra.
  apply (Rmult_lt_reg_r (s * s)); [exact Hs2|].
  replace ((1 + s) / (s * s) * (s * s))%R with (1 + s)%R by (field; lra).
  assert (Hb : (17e-1 <= s)%R) by nra.
  nra.
Qed.

Lemma keep_probability_lower (p : R) :
  (0 < p)%R -> (1e-3 / p < keep_probability p)%R.
Proof.
  intros Hp.
  assert (Hs : (0 < sqrt (p * 1e3))%R) by (apply sqrt_lt_R0; lra).
  unfold keep_probability.
  apply (Rmult_lt_reg_r p); [exact Hp|].
  replace (1e-3 / p * p)%R with 1e-3%R by (field; lra).
  replace ((1 + sqrt (p * 1e3)) * 1e-3 / p * p)%R
    with ((1 + sqrt (p * 1e3)) * 1e-3)%R by (field; lra).
  lra.
Qed.

Lemma keep_probability_unbounded (M : R) :
  exists delta, (0 < delta)%R /\
                forall p, (0 < p < delta)%R -> (M < keep_probability p)%R.
Proof.
  exists (1e-3 / (Rabs M + 1))%R.
  assert (HM : (0 < Rabs M + 1)%R) by (pose proof (Rabs_pos M); lra).
  split.
  - apply Rdiv_lt_0_compat; lra.
  - intros p [Hp Hlt].
    apply Rlt_trans with (1e-3 / p)%R; [|apply keep_probability_lower; exact Hp].
    apply (Rmult_lt_compat_r (Rabs M + 1)) in Hlt; [|exact HM].
    replace (1e-3 / (Rabs M + 1) * (Rabs M + 1))%R with 1e-3%R in Hlt
      by (field; lra).
    apply (Rmult_lt_reg_r p); [exact Hp|].
    replace (1e-3 / p * p)%R with 1e-3%R by (field; lra).
    pose proof (Rle_abs M) as Habs.
    assert (Hprod : (M * p <= Rabs M * p)%R)
      by (apply Rmult_le_compat_r; lra).
    lra.
Qed.

(** C8, as the code has it.  The compared value is strictly decreasing in
    the relative frequency; it is not clamped: it is at least 1 for
    relative frequencies up to 0.0025, so that every draw below 1 keeps the
    word (the effective keep-probability is 1 there), and it grows without
    bound as the frequency tends to 0; it is below 1 from 0.003 on. *)
Theorem keep_probability_shape :
  (forall p q, 0 < p -> p < q -> keep_probability q < keep_probability p)%R /\
  (forall p, 0 < p <= 25e-4 ->
             Rmin 1 (keep_probability p) = 1 /\
             forall u, u < 1 -> u < keep_probability p)%R /\
  (forall M, exists delta,
      0 < delta /\ forall p, 0 < p < delta -> M < keep_probability p)%R /\
  (forall p, 3e-3 <= p -> keep_probability p < 1)%R.
Proof.
  split; [|split; [|split]].
  - intros p q. apply keep_probability_decreasing.
  - intros p Hp. pose proof (keep_probability_rare Hp) as H1. split.
    + apply Rmin_left. exact H1.
    + intros u Hu. lra.
  - apply keep_probability_unbounded.
  - apply keep_probability_frequent.
Qed.

Lemma keep_probability_shape_witness :
  (keep_probability 4e-3 < keep_probability 1e-3)%R /\
  (5e-1 < keep_probability 1e-3)%R /\
  (keep_probability 4e-3 < 1)%R.
Proof.
  destruct keep_probability_shape as (Hdec & Hrare & _ & Hfreq).
  split; [|split].
  - apply Hdec; lra.
  - apply (Hrare 1e-3%R); lra.
  - apply Hfreq. lra.
Defined.

(** C8 as stated fails: the value at relative frequency 0.001 is 2, and the
    values do not tend to 1 as the frequency tends to 0. *)
Lemma keep_probability_not_clamped :
  keep_probability 1e-3 = 2%R /\
  ~ (forall eps, (0 < eps)%R ->
       exists delta, (0 < delta)%R /\
         forall p, (0 < p < delta)%R -> (Rabs (keep_probability p - 1) < eps)%R).
Proof.
  split.
  - unfold keep_probability.
    replace (1e-3 * 1e3)%R with 1%R by lra. rewrite sqrt_1. lra.
  - intros H. destruct (H 1%R) as (delta & Hdelta & Hnear); [lra|].
    set (p := Rmin (delta / 2) 5e-4).
    assert (Hp : (0 < p)%R) by (unfold p; apply Rmin_glb_lt; lra).
    assert (Hpd : (p < delta)%R)
      by (unfold p; apply Rle_lt_trans with (delta / 2)%R; [apply Rmin_l | lra]).
    assert (Hp5 : (p <= 5e-4)%R) by (unfold p; apply Rmin_r).
    specialize (Hnear p (conj Hp Hpd)).
    pose proof (keep_probability_lower Hp) as Hlow.
    assert (H2 : (2 <= 1e-3 / p)%R).
    { apply (Rmult_le_reg_r p); [exact Hp|].
      replace (1e-3 / p * p)%R with 1e-3%R by (field; lra). lra. }
    apply Rabs_def2 in Hnear. lra.
Qed.

(** ** Vocabulary *)

Lemma find_index_setindex_same (d : list (nat * string)) (k : nat) (v : string) :
  find_index (setindex d k v) k = Some v.
Proof.
  induction d as [|[k' v'] d IH]; simpl.
  - now rewrite Nat.eqb_refl.
  - destruct (Nat.eqb k' k) eqn:E; simpl; rewrite E; [reflexivity | exact IH].
Qed.

Lemma find_index_setindex_other (d : list (nat * string)) (k k0 : nat) (v : string) :
  k <> k0 -> find_index (setindex d k v) k0 = find_index d k0.
Proof.
  intros Hne. induction d as [|[k' v'] d IH]; simpl.
  - apply Nat.eqb_neq in Hne. now rewrite Hne.
  - destruct (Nat.eqb k' k) eqn:E; simpl.
    + apply Nat.eqb_eq in E. subst k'.
      apply Nat.eqb_neq in Hne. now rewrite Hne.
    + destruct (Nat.eqb k' k0); [reflexivity | exact IH].
Qed.

Lemma word_indices_find (v : list string) :
  NoDup v ->
  forall (k : nat) (acc : dict nat),
    (forall i w, nth_error v i = Some w ->
                 dict_find (word_indices_from k v acc) w = Some (k + i)) /\
    (forall w, ~ In w v ->
               dict_find (word_indices_from k v acc) w = dict_find acc w).
Proof.
  unfold word_indices_from.
  induction 1 as [|a v Hnotin Hnd IH]; intros k acc; simpl.
  - split; [intros [|i] w H; discriminate | reflexivity].
  - destruct (IH (S k) (setitem acc a k)) as [IHin IHout]. split.
    + intros [|i] w Hnth; simpl in Hnth.
      * inversion Hnth; subst w. rewrite IHout by assumption.
        rewrite dict_find_setitem_same. now rewrite Nat.add_0_r.
      * rewrite (IHin i w Hnth). f_equal. lia.
    + intros w Hw. rewrite IHout by tauto.
      apply dict_find_setitem_other. intros ->. tauto.
Qed.

Lemma index_words_find (v : list string) :
  forall (k : nat) (acc : list (nat * string)) (j : nat),
    find_index (index_words_from k v acc) j
    = if (k <=? j) && (j <? k + length v) then nth_error v (j - k)
      else find_index acc j.
Proof.
  unfold index_words_from.
  induction v as [|a v IH]; intros k acc j; cbn [length seq combine fold_left].
  - destruct (Nat.leb_spec k j), (Nat.ltb_spec j (k + 0)); cbn [andb];
      try reflexivity; lia.
  - rewrite IH.
    destruct (Nat.leb_spec k j), (Nat.ltb_spec j (k + S (length v))),
             (Nat.leb_spec (S k) j), (Nat.ltb_spec j (S k + length v));
      cbn [andb]; try lia.
    + replace (j - k) with (S (j - S k)) by lia. reflexivity.
    + assert (j = k) by lia. subst j. rewrite Nat.sub_diag. simpl.
      apply find_index_setindex_same.
    + apply find_index_setindex_other. lia.
    + apply find_index_setindex_other. lia.
Qed.

Section VocabularyProperties.

Variable set_order : list string -> list string.
Hypothesis set_order_NoDup : forall l, NoDup (set_order l).
Hypothesis set_order_In : forall l x, In x (set_order l) <-> In x l.

(** C9, as the code has it.  Building the vocabulary never raises, on an
    empty corpus too; every token observed in the corpus gets one index,
    below the vocabulary size, from which [index_to_word] gives the token
    back; only observed tokens get an index, and no two share one. *)
Theorem build_vocabulary_total (corpus : list (list string)) :
  exists v w2i i2w,
    build_vocabulary set_order corpus = Returns (v, w2i, i2w) /\
    (forall w, In w (chain corpus) ->
       exists idx, dict_find w2i w = Some idx /\ idx < length v /\
                   find_index i2w idx = Some w) /\
    (forall w idx, dict_find w2i w = Some idx -> In w (chain corpus)) /\
    (forall w w' idx,
        dict_find w2i w = Some idx -> dict_find w2i w' = Some idx -> w = w').
Proof.
  exists (vocabulary set_order corpus), (word_to_index set_order corpus),
         (index_to_word set_order corpus).
  split; [reflexivity|].
  pose proof (set_order_NoDup (chain corpus)) as Hnd.
  fold (vocabulary set_order corpus) in Hnd.
  destruct (word_indices_find Hnd 0 []) as [Hin Hout].
  change (word_indices_from 0 (vocabulary set_order corpus) [])
    with (word_to_index set_order corpus) in Hin, Hout.
  assert (Hfind : forall w idx,
             dict_find (word_to_index set_order corpus) w = Some idx ->
             nth_error (vocabulary set_order corpus) idx = Some w).
  { intros w idx Hw.
    destruct (in_dec string_dec w (vocabulary set_order corpus)) as [Hi|Hi].
    - destruct (In_nth_error _ _ Hi) as [i Hi'].
      rewrite (Hin i w Hi') in Hw. inversion Hw; subst. exact Hi'.
    - rewrite (Hout w Hi) in Hw. discriminate. }
  split; [|split].
  - intros w Hw. apply set_order_In in Hw.
    destruct (In_nth_error _ _ Hw) as [i Hi].
    exists i. split; [exact (Hin i w Hi)|].
    assert (Hlt : i < length (vocabulary set_order corpus))
      by (apply nth_error_Some; unfold vocabulary; rewrite Hi; discriminate).
    split; [exact Hlt|].
    change (index_to_word set_order corpus)
      with (index_words_from 0 (vocabulary set_order corpus) []).
    rewrite index_words_find. simpl.
    apply Nat.ltb_lt in Hlt. rewrite Hlt, Nat.sub_0_r. exact Hi.
  - intros w idx Hw. apply Hfind in Hw. apply nth_error_In in Hw.
    unfold vocabulary in Hw. apply (proj1 (set_order_In _ _)) in Hw. exact Hw.
  - intros w w' idx Hw Hw'. apply Hfind in Hw. apply Hfind in Hw'. congruence.
Qed.

End VocabularyProperties.

Lemma build_vocabulary_total_witness :
  (forall l, NoDup (nodup string_dec l)) /\
  (forall l x, In x (nodup string_dec l) <-> In x l) /\
  exists v w2i i2w,
    build_vocabulary (nodup string_dec) [["b"; "a"; "b"]%string] = Returns (v, w2i, i2w) /\
    exists idx, dict_find w2i "b"%string = Some idx /\ idx < length v.
Proof.
  split; [exact (NoDup_nodup string_dec)|].
  split; [exact (fun l x => nodup_In string_dec l x)|].
  destruct (build_vocabulary_total (nodup string_dec) (NoDup_nodup string_dec)
              (fun l x => nodup_In string_dec l x)
              [["b"; "a"; "b"]%string])
    as (v & w2i & i2w & Hrun & Hin & _).
  exists v, w2i, i2w. split; [exact Hrun|].
  destruct (Hin "b"%string) as (idx & Hidx & Hlt & _).
  { simpl. auto. }
  exists idx. split; [exact Hidx | exact Hlt].
Defined.

(** C9 as stated fails: on a corpus without tokens the cell returns, with an
    empty vocabulary and empty mappings, and raises nothing. *)
Lemma build_vocabulary_empty_corpus :
  build_vocabulary (nodup string_dec) [] = Returns ([], [], []) /\
  build_vocabulary (nodup string_dec) [[]; []] = Returns ([], [], []).
Proof. split; reflexivity. Qed.

(** ** Early stopping *)

Lemma fold_left_Rmax_spec (l : list R) :
  forall x : R,
    In (fold_left Rmax l x) (x :: l) /\
    forall y, In y (x :: l) -> (y <= fold_left Rmax l x)%R.
Proof.
  induction l as [|a l IH]; intros x; simpl.
  - split; [auto | intros y [<-|[]]; lra].
  - destruct (IH (Rmax x a)) as [Hin Hub]. split.
    + destruct Hin as [Heq|Hin]; [|auto].
      rewrite <- Heq. pattern (Rmax x a). apply Rmax_case; simpl; auto.
    + intros y [<-|[<-|Hy]].
      * apply Rle_trans with (Rmax x a); [apply Rmax_l | apply Hub; simpl; auto].
      * apply Rle_trans with (Rmax x a); [apply Rmax_r | apply Hub; simpl; auto].
      * apply Hub. simpl; auto.
Qed.

Lemma fold_left_Rmin_spec (l : list R) :
  forall x : R,
    In (fold_left Rmin l x) (x :: l) /\
    forall y, In y (x :: l) -> (fold_left Rmin l x <= y)%R.
Proof.
  induction l as [|a l IH]; intros x; simpl.
  - split; [auto | intros y [<-|[]]; lra].
  - destruct (IH (Rmin x a)) as [Hin Hlb]. split.
    + destruct Hin as [Heq|Hin]; [|auto].
      rewrite <- Heq. pattern (Rmin x a). apply Rmin_case; simpl; auto.
    + intros y [<-|[<-|Hy]].
      * apply Rle_trans with (Rmin x a); [apply Hlb; simpl; auto | apply Rmin_l].
      * apply Rle_trans with (Rmin x a); [apply Hlb; simpl; auto | apply Rmin_r].
      * apply Hlb. simpl; auto.
Qed.

Lemma tl_skipn {A : Type} (k : nat) (l : list A) : tl (skipn k l) = skipn (S k) l.
Proof.
  revert l. induction k as [|k IH]; intros l.
  - destruct l; reflexivity.
  - destruct l as [|a l]; [reflexivity|].
    change (tl (skipn k l) = skipn (S k) l). apply IH.
Qed.

Lemma record_losses_snoc (p : Z) (g : R) (losses : list R) (x : R) :
  record_losses p g (losses ++ [x])
  = update_loss (record_losses p g losses) x.
Proof. unfold record_losses. now rewrite fold_left_app. Qed.

Lemma record_losses_fields (p : Z) (g : R) (losses : list R) :
  patience (record_losses p g losses) = p /\
  min_percent_gain (record_losses p g losses) = (g / 100)%R.
Proof.
  induction losses as [|x losses IH] using rev_ind.
  - split; reflexivity.
  - rewrite record_losses_snoc. exact IH.
Qed.

Lemma record_losses_window (p : Z) (g : R) (losses : list R) :
  loss_list (record_losses p g losses)
  = skipn (length losses - Z.to_nat p) losses.
Proof.
  induction losses as [|x losses IH] using rev_ind; [reflexivity|].
  rewrite record_losses_snoc. unfold update_loss. cbn [loss_list].
  destruct (record_losses_fields p g losses) as [Hp _].
  rewrite Hp, IH, !length_app, length_skipn. cbn [length].
  destruct (Z.gtb_spec
              (Z.of_nat (length losses - (length losses - Z.to_nat p) + 1))
              p) as [Hgt|Hle].
  - assert (Hk : Z.to_nat p <= length losses) by lia.
    replace (length losses + 1 - Z.to_nat p)
      with (S (length losses - Z.to_nat p)) by lia.
    rewrite <- tl_skipn. f_equal.
    rewrite skipn_app.
    replace (length losses - Z.to_nat p - length losses) with 0 by lia.
    reflexivity.
  - replace (length losses - Z.to_nat p) with 0 by lia.
    replace (length losses + 1 - Z.to_nat p) with 0 by lia.
    reflexivity.
Qed.

Lemma stop_training_window (es : EarlyStopping) :
  (length (loss_list es) = 1 -> stop_training es = Returns false) /\
  (2 <= length (loss_list es) ->
   exists hi lo,
     In hi (loss_list es) /\ (forall x, In x (loss_list es) -> (x <= hi)%R) /\
     In lo (loss_list es) /\ (forall x, In x (loss_list es) -> (lo <= x)%R) /\
     (hi <> 0%R ->
      stop_training es
      = Returns (Rltb ((hi - lo) / hi) (min_percent_gain es)))).
Proof.
  unfold stop_training. split.
  - intros ->. reflexivity.
  - intros Hlen. destruct (loss_list es) as [|x l] eqn:E; [simpl in Hlen; lia|].
    destruct (fold_left_Rmax_spec l x) as [Hmax_in Hmax].
    destruct (fold_left_Rmin_spec l x) as [Hmin_in Hmin].
    exists (fold_left Rmax l x), (fold_left Rmin l x).
    repeat split; try assumption.
    intros Hnz.
    destruct (length (x :: l) =? 1) eqn:E1;
      [apply Nat.eqb_eq in E1; lia|].
    cbn [pymax pymin bind]. unfold np_truediv.
    destruct (Req_dec_T (fold_left Rmax l x) 0) as [Hz|_]; [contradiction|].
    cbn [np_lt]. unfold Rltb.
    destruct (Rlt_dec ((fold_left Rmax l x - fold_left Rmin l x) / fold_left Rmax l x)
                      (min_percent_gain es)); reflexivity.
Qed.

(** C7, as the code has it.  The retained window is made of the last
    [patience] recorded losses (all of them while fewer were recorded).
    With exactly one loss in the window the decision is "do not stop".
    With two or more, and a maximum other than zero, the decision is "stop"
    exactly when (max - min) / max over the window is below the configured
    percentage divided by 100. *)
Theorem stop_training_spec (p : Z) (g : R) (losses : list R) :
  let es := record_losses p g losses in
  loss_list es = skipn (length losses - Z.to_nat p) losses /\
  length (loss_list es) = Nat.min (length losses) (Z.to_nat p) /\
  (length (loss_list es) = 1 -> stop_training es = Returns false) /\
  (2 <= length (loss_list es) ->
   exists hi lo,
     In hi (loss_list es) /\ (forall x, In x (loss_list es) -> (x <= hi)%R) /\
     In lo (loss_list es) /\ (forall x, In x (loss_list es) -> (lo <= x)%R) /\
     (hi <> 0%R ->
      exists stop,
        stop_training es = Returns stop /\
        (stop = true <-> ((hi - lo) / hi < g / 100)%R))).
Proof.
  intros es.
  pose proof (record_losses_window p g losses) as Hw. fold es in Hw.
  destruct (record_losses_fields p g losses) as [_ Hg]. fold es in Hg.
  destruct (stop_training_window es) as [H1 H2].
  split; [exact Hw|]. split; [rewrite Hw, length_skipn; lia|].
  split; [exact H1|].
  intros Hlen. destruct (H2 Hlen) as (hi & lo & Hhi & Hub & Hlo & Hlb & Hrun).
  exists hi, lo. repeat split; try assumption.
  - exists (Rltb ((hi - lo) / hi) (g / 100)). split.
    + rewrite <- Hg. apply Hrun. assumption.
    + apply Rltb_true.
Qed.

Lemma stop_training_spec_witness :
  exists stop,
    stop_training (record_losses 5 1 [10; 9; 9]%R) = Returns stop /\
    (stop = true <-> ((10 - 9) / 10 < 1 / 100)%R).
Proof.
  destruct (stop_training_spec 5 1 [10; 9; 9]%R) as (Hw & _ & _ & H2).
  destruct H2 as (hi & lo & Hhi & Hub & Hlo & Hlb & Hrun).
  { rewrite Hw. simpl. lia. }
  rewrite Hw in Hhi, Hub, Hlo, Hlb. simpl in Hhi, Hub, Hlo, Hlb.
  assert (Hhi10 : hi = 10%R).
  { pose proof (Hub 10%R (or_introl eq_refl)).
    destruct Hhi as [<-|[<-|[<-|[]]]]; lra. }
  assert (Hlo9 : lo = 9%R).
  { pose proof (Hlb 9%R (or_intror (or_introl eq_refl))).
    destruct Hlo as [<-|[<-|[<-|[]]]]; lra. }
  subst hi lo. apply Hrun. lra.
Defined.

(** C7 as stated fails: asked before any loss is recorded, the stop decision
    raises (the maximum of an empty list) instead of answering "do not
    stop"; and with a patience of 1 it answers "do not stop" after two
    recorded losses, although the gain over the retained window is 0. *)
Lemma stop_training_no_loss :
  stop_training (record_losses 5 1 []) = Raises ValueError /\
  stop_training (record_losses 5 1 []) <> Returns false /\
  stop_training (record_losses 1 1 [10; 9]%R) = Returns false /\
  loss_list (record_losses 1 1 [10; 9]%R) = [9%R] /\
  ((9 - 9) / 9 < 1 / 100)%R.
Proof.
  assert (H : stop_training (record_losses 5 1 []) = Raises ValueError)
    by reflexivity.
  split; [exact H|]. split; [rewrite H; discriminate|].
  split; [reflexivity|]. split; [reflexivity|]. lra.
Qed.

(** ** Batches *)

Lemma succ_mod (i bs : nat) :
  0 < bs ->
  (i + 1) mod bs = if i mod bs + 1 =? bs then 0 else i mod bs + 1.
Proof.
  intros Hbs.
  pose proof (Nat.div_mod_eq i bs) as Hdiv.
  pose proof (Nat.mod_upper_bound i bs ltac:(lia)) as Hlt.
  destruct (Nat.eqb_spec (i mod bs + 1) bs) as [Heq|Hne].
  - symmetry. apply (Nat.mod_unique (i + 1) bs (S (i / bs)) 0); [lia|]. nia.
  - symmetry. apply (Nat.mod_unique (i + 1) bs (i / bs) (i mod bs + 1)); [lia|]. nia.
Qed.

Lemma mapM_getitem (d : dict nat) (ws : list string) :
  Forall (fun w => In w (keys d)) ws ->
  mapM (getitem d) ws = Returns (map (fun w => get d w 0) ws).
Proof.
  induction 1 as [|w ws Hw _ IH]; [reflexivity|].
  cbn [mapM map]. rewrite (getitem_get d w Hw). cbn [bind].
  rewrite IH. reflexivity.
Qed.

Lemma index_triple_in_vocabulary (d : dict nat) (target context : string)
    (negatives : list string) :
  in_vocabulary d (target, context, negatives) ->
  getitem d target = Returns (get d target 0) /\
  getitem d context = Returns (get d context 0) /\
  mapM (getitem d) negatives = Returns (map (fun w => get d w 0) negatives) /\
  index_triple d (target, context, negatives)
  = Some (get d target 0, get d context 0, map (fun w => get d w 0) negatives).
Proof.
  intros (Ht & Hc & Hn).
  pose proof (getitem_get d target Ht) as H1.
  pose proof (getitem_get d context Hc) as H2.
  pose proof (mapM_getitem d Hn) as H3.
  repeat split; try assumption.
  unfold index_triple. now rewrite H1, H2, H3.
Qed.

Lemma combine_snoc {A B : Type} (l : list A) (l' : list B) (a : A) (b : B) :
  length l = length l' ->
  combine (l ++ [a]) (l' ++ [b]) = combine l l' ++ [(a, b)].
Proof.
  revert l'. induction l as [|x l IH]; intros [|y l'] Hlen;
    simpl in *; try discriminate; [reflexivity|].
  f_equal. apply IH. lia.
Qed.

Lemma batch_triples_snoc (ts cs : list nat) (ns : list (list nat))
    (t c : nat) (n : list nat) (m : nat) :
  length ts = m -> length cs = m -> length ns = m ->
  batch_triples (ts ++ [t], cs ++ [c], ns ++ [n])
  = batch_triples (ts, cs, ns) ++ [(t, c, n)].
Proof.
  intros H1 H2 H3. unfold batch_triples.
  rewrite combine_snoc by lia.
  rewrite combine_snoc by (rewrite length_combine; lia).
  reflexivity.
Qed.

Lemma long_tensor_same (rows : list (list nat)) (k : nat) :
  Forall (fun r => length r = k) rows -> long_tensor rows = Returns rows.
Proof.
  intros Hrows. destruct rows as [|r rows]; [reflexivity|].
  pose proof (Forall_inv Hrows) as Hr. pose proof (Forall_inv_tail Hrows) as Ht.
  cbn [long_tensor].
  replace (forallb (fun r' => length r' =? length r) rows) with true;
    [reflexivity|].
  symmetry. apply forallb_forall. intros r' Hr'.
  rewrite Forall_forall in Ht. rewrite (Ht r' Hr'), Hr. apply Nat.eqb_refl.
Qed.

Lemma same_negatives_Permutation (l l' : list example) :
  Permutation l l' -> same_negatives l -> same_negatives l'.
Proof.
  intros Hperm [k Hk]. exists k. apply Forall_forall. intros e He.
  rewrite Forall_forall in Hk. apply Hk.
  apply Permutation_in with l'; [apply Permutation_sym; exact Hperm | exact He].
Qed.

Section BatchLoop.

Variable word_to_index : dict nat.
Variables batch_size len : nat.
Hypothesis batch_size_pos : 0 < batch_size.

(** The length of every negative list. *)
Variable k : nat.

Lemma batch_loop_spec :
  forall (rest : list example) (i : nat)
         (bt bc : list nat) (bn : list (list nat)) (batches : list batch)
         (m : nat),
    length rest + i = len ->
    Forall (in_vocabulary word_to_index) rest ->
    Forall (fun e : example => length (snd e) = k) rest ->
    Forall (fun r => length r = k) bn ->
    length bt = m -> length bc = m -> length bn = m ->
    (rest <> [] -> m = i mod batch_size) ->
    (rest = [] -> m = 0) ->
    exists new,
      batch_loop word_to_index batch_size len rest i bt bc bn batches
      = Returns (batches ++ new) /\
      map Some (batch_triples (bt, bc, bn)) ++ map (index_triple word_to_index) rest
      = map Some (concat (map batch_triples new)) /\
      (rest = [] -> new = []) /\
      (rest <> [] ->
       exists front last n,
         new = front ++ [last] /\ Forall (batch_len batch_size) front /\
         batch_len n last /\ 1 <= n <= batch_size).
Proof.
  induction rest as [|[[target context] negatives] rest IH];
    intros i bt bc bn batches m Hlen Hvoc Hsame Hrows Hbt Hbc Hbn Hmod Hnil.
  - exists []. rewrite app_nil_r. split; [reflexivity|].
    specialize (Hnil eq_refl). subst m.
    destruct bt, bc, bn; simpl in *; try discriminate.
    repeat split; try reflexivity. intros H; contradiction.
  - pose proof (Forall_inv Hvoc) as He. pose proof (Forall_inv_tail Hvoc) as Hvoc'.
    destruct (index_triple_in_vocabulary He) as (Ht & Hc & Hn & Hidx).
    specialize (Hmod ltac:(discriminate)).
    pose proof (Nat.mod_upper_bound i batch_size ltac:(lia)) as Hub.
    cbn [batch_loop]. rewrite Ht. cbn [bind]. rewrite Hc. cbn [bind].
    rewrite Hn. cbn [bind]. unfold pymod.
    destruct (Nat.eqb_spec batch_size 0) as [|_]; [lia|]. cbn [bind].
    rewrite (succ_mod i batch_size_pos), <- Hmod.
    set (t := get word_to_index target 0) in *.
    set (c := get word_to_index context 0) in *.
    set (ns := map (fun w => get word_to_index w 0) negatives) in *.
    pose proof (batch_triples_snoc bt bc bn t c ns Hbt Hbc Hbn) as Hsnoc.
    pose proof (Forall_inv Hsame) as Hk. pose proof (Forall_inv_tail Hsame) as Hsame'.
    cbn [snd] in Hk.
    assert (Hrows' : Forall (fun r => length r = k) (bn ++ [ns])).
    { apply Forall_app. split; [exact Hrows|].
      constructor; [|constructor]. unfold ns. now rewrite length_map. }
    pose proof (long_tensor_same Hrows') as Hten.
    simpl in Hlen.
    destruct (Nat.eqb_spec (m + 1) batch_size) as [Hfull|Hpart].
    + (* the batch is full *)
      cbn [Nat.eqb orb]. rewrite Hten. cbn [bind].
      destruct (IH (S i) [] [] [] (batches ++ [(bt ++ [t], bc ++ [c], bn ++ [ns])]) 0)
        as (new & Hrun & Hcont & Hnew_nil & Hnew); try reflexivity; try lia;
        try assumption; try apply Forall_nil.
      { intros Hrest. replace (S i) with (i + 1) by lia.
        rewrite (succ_mod i batch_size_pos), <- Hmod.
        destruct (Nat.eqb_spec (m + 1) batch_size); [reflexivity | contradiction]. }
      exists ((bt ++ [t], bc ++ [c], bn ++ [ns]) :: new).
      split; [rewrite Hrun, <- app_assoc; reflexivity|].
      split; [|split; [discriminate|]].
      * cbn [map concat]. rewrite map_app, Hsnoc, map_app, <- app_assoc.
        f_equal. cbn [map app]. rewrite Hidx. f_equal. exact Hcont.
      * intros _. destruct rest as [|e rest].
        -- rewrite (Hnew_nil eq_refl).
           exists [], (bt ++ [t], bc ++ [c], bn ++ [ns]), (m + 1).
           split; [reflexivity|]. split; [constructor|].
           split; [|lia]. unfold batch_len. rewrite !length_app. simpl. lia.
        -- destruct (Hnew ltac:(discriminate)) as (front & last & n & -> & Hfront & Hlast & Hn').
           exists ((bt ++ [t], bc ++ [c], bn ++ [ns]) :: front), last, n.
           split; [reflexivity|]. split; [|split; assumption].
           constructor; [|exact Hfront].
           unfold batch_len. rewrite !length_app. simpl. lia.
    + (* the batch is not full *)
      cbn [orb]. replace (m + 1 =? 0) with false by (symmetry; apply Nat.eqb_neq; lia).
      cbn [orb].
      destruct (Nat.eqb_spec i (len - 1)) as [Hlast|Hmore].
      * (* last example: flush *)
        assert (Hrest : rest = []) by (destruct rest; [reflexivity | simpl in Hlen; lia]).
        subst rest. rewrite Hten. cbn [bind batch_loop].
        exists [(bt ++ [t], bc ++ [c], bn ++ [ns])].
        split; [reflexivity|]. split; [|split; [discriminate|]].
        -- cbn [map concat]. rewrite app_nil_r, Hsnoc, map_app. cbn [map].
           now rewrite Hidx.
        -- intros _. exists [], (bt ++ [t], bc ++ [c], bn ++ [ns]), (m + 1).
           split; [reflexivity|]. split; [constructor|].
           split; [|lia]. unfold batch_len. rewrite !length_app. simpl. lia.
      * assert (Hrest : rest <> []) by (destruct rest; [simpl in Hlen; lia | discriminate]).
        destruct (IH (S i) (bt ++ [t]) (bc ++ [c]) (bn ++ [ns]) batches (m + 1))
          as (new & Hrun & Hcont & _ & Hnew); try assumption; try lia;
          try (rewrite length_app; simpl; lia).
        { intros _. replace (S i) with (i + 1) by lia.
          rewrite (succ_mod i batch_size_pos), <- Hmod.
          destruct (Nat.eqb_spec (m + 1) batch_size); [contradiction | reflexivity]. }
        { intros ->. contradiction. }
        exists new. split; [exact Hrun|]. split; [|split; [discriminate|]].
        -- rewrite <- Hcont, Hsnoc, map_app, <- app_assoc. cbn [map app].
           now rewrite Hidx.
        -- intros _. apply Hnew. exact Hrest.
Qed.

End BatchLoop.

Section GetBatches.

Variable shuffle : list example -> list example.
Hypothesis shuffle_Permutation : forall l, Permutation l (shuffle l).

Variable word_to_index : dict nat.

(** C10, as the code has it.  On a non-empty list of examples whose tokens
    are all in the vocabulary and whose negative lists have one length,
    with a positive batch size, [get_batches] returns batches
    whose triples, read batch after batch, are the index triples of the
    shuffled list, a permutation of the input; every batch but the last
    holds [batch_size] triples and the last holds between 1 and
    [batch_size]. *)
Theorem get_batches_spec (context_tuple_list : list example) (batch_size : nat) :
  context_tuple_list <> [] ->
  Forall (in_vocabulary word_to_index) context_tuple_list ->
  same_negatives context_tuple_list ->
  0 < batch_size ->
  exists batches front last n,
    get_batches shuffle word_to_index context_tuple_list batch_size
    = Returns batches /\
    Permutation context_tuple_list (shuffle context_tuple_list) /\
    map Some (concat (map batch_triples batches))
    = map (index_triple word_to_index) (shuffle context_tuple_list) /\
    batches = front ++ [last] /\
    Forall (batch_len batch_size) front /\
    batch_len n last /\ 1 <= n <= batch_size.
Proof.
  intros Hne Hvoc Hsame Hbs.
  pose proof (shuffle_Permutation context_tuple_list) as Hperm.
  destruct (same_negatives_Permutation Hperm Hsame) as [k Hk].
  assert (Hne' : shuffle context_tuple_list <> []).
  { intros Hnil. rewrite Hnil in Hperm. apply Permutation_sym in Hperm.
    apply Permutation_nil in Hperm. contradiction. }
  assert (Hvoc' : Forall (in_vocabulary word_to_index) (shuffle context_tuple_list)).
  { apply Forall_forall. intros e He. rewrite Forall_forall in Hvoc.
    apply Hvoc. apply Permutation_in with (shuffle context_tuple_list);
      [apply Permutation_sym; exact Hperm | exact He]. }
  assert (Hmod : shuffle context_tuple_list <> [] -> 0 = 0 mod batch_size)
    by (intros _; symmetry; apply Nat.Div0.mod_0_l).
  destruct (@batch_loop_spec word_to_index batch_size
              (length (shuffle context_tuple_list)) Hbs k
              (shuffle context_tuple_list) 0 [] [] [] [] 0
              (Nat.add_0_r _) Hvoc' Hk (Forall_nil _)
              eq_refl eq_refl eq_refl Hmod (fun _ => eq_refl))
    as (new & Hrun & Hcont & _ & Hnew).
  destruct (Hnew Hne') as (front & last & n & Hsplit & Hfront & Hlast & Hn).
  exists new, front, last, n.
  split; [exact Hrun|]. split; [exact Hperm|]. split; [|auto].
  rewrite <- Hcont. reflexivity.
Qed.

End GetBatches.

Lemma get_batches_spec_witness :
  (forall l : list example, Permutation l (rev l)) /\
  exists batches,
    get_batches (@rev example) [("a", 0); ("b", 1)]%string
      [("a", "b", ["a"; "a"]); ("b", "a", ["b"; "a"]); ("a", "b", ["b"; "b"])]%string
      2
    = Returns batches /\
    map Some (concat (map batch_triples batches))
    = [Some (0, 1, [1; 1]); Some (1, 0, [1; 0]); Some (0, 1, [0; 0])].
Proof.
  split; [exact (@Permutation_rev example)|].
  destruct (@get_batches_spec (@rev example) (@Permutation_rev example)
              [("a", 0); ("b", 1)]%string
              [("a", "b", ["a"; "a"]); ("b", "a", ["b"; "a"]);
               ("a", "b", ["b"; "b"])]%string
              2)
    as (batches & _ & _ & _ & Hrun & _ & Hcont & _).
  - discriminate.
  - repeat (apply Forall_cons || apply Forall_nil);
      cbv [in_vocabulary keys map fst]; repeat split;
      repeat (apply Forall_cons || apply Forall_nil); simpl; auto.
  - exists 2. repeat constructor.
  - lia.
  - exists batches. split; [exact Hrun | exact Hcont].
Defined.

(** C10 as stated fails: two examples of known tokens, the first with one
    negative and the second with two, fall in one batch; the negatives of
    the batch do not make a rectangular array and no batch is returned. *)
Lemma get_batches_unequal_negatives :
  let word_to_index := [("a", 0); ("b", 1)]%string in
  let context_tuple_list :=
    [("a", "b", ["a"]); ("b", "a", ["a"; "b"])]%string in
  context_tuple_list <> [] /\
  Forall (in_vocabulary word_to_index) context_tuple_list /\
  Permutation context_tuple_list (rev context_tuple_list) /\
  get_batches (@rev example) word_to_index context_tuple_list 2
  = Raises ValueError /\
  forall batches,
    get_batches (@rev example) word_to_index context_tuple_list 2
    <> Returns batches.
Proof.
  intros word_to_index context_tuple_list.
  assert (Hrun : get_batches (@rev example) word_to_index context_tuple_list 2
                 = Raises ValueError) by reflexivity.
  split; [discriminate|]. split.
  { repeat (apply Forall_cons || apply Forall_nil);
      cbv [in_vocabulary keys map fst word_to_index]; repeat split;
      repeat (apply Forall_cons || apply Forall_nil); simpl; auto. }
  split; [apply Permutation_rev|]. split; [exact Hrun|].
  intros batches. rewrite Hrun. discriminate.
Qed.

(** ** The loss *)

Lemma logsigmoid_at_0 (x : R) : x = 0%R -> logsigmoid x = (- ln 2)%R.
Proof.
  intros ->. unfold logsigmoid, sigmoid.
  rewrite Ropp_0, exp_0.
  replace (1 / (1 + 1))%R with (/ 2)%R by lra.
  apply ln_Rinv. lra.
Qed.

Lemma ln_2_pos : (0 < ln 2)%R.
Proof. rewrite <- ln_1. apply ln_increasing; lra. Qed.

(** [forward] on one example with two negatives, in dimension 2: the
    positive score is the dot product of the target and context rows; the
    two negative scores are summed inside one log-sigmoid. *)
Lemma forward_one_example (t1 t2 c1 c2 n1 n2 m1 m2 : R) :
  let net := {| embeddings_target := [[t1; t2]];
                embeddings_context := [[c1; c2]; [n1; n2]; [m1; m2]] |} in
  forward net [0] [0] [[1; 2]]
  = Returns (- (logsigmoid (t1 * c1 + t2 * c2)
                + logsigmoid (- ((n1 * t1 + n2 * t2) + (m1 * t1 + m2 * t2)))))%R.
Proof.
  cbv [forward embedding embedding2 mapM getindex nth_error bind mul map2
       sum_dim1 map fsum fold_left bmm unsqueeze2 matmul transpose dot
       sum_dim1_3d sum_all concat app embeddings_target embeddings_context].
  f_equal.
  replace (0 + t1 * c1 + t2 * c2)%R with (t1 * c1 + t2 * c2)%R by lra.
  replace (- (0 + (0 + n1 * t1 + n2 * t2) + (0 + m1 * t1 + m2 * t2)))%R
    with (- ((n1 * t1 + n2 * t2) + (m1 * t1 + m2 * t2)))%R by lra.
  lra.
Qed.

Lemma logsigmoid_neg_sum (a b : R) :
  (logsigmoid (- a) + logsigmoid (- b) < logsigmoid (- (a + b)))%R.
Proof.
  unfold logsigmoid, sigmoid. rewrite !Ropp_involutive, exp_plus.
  pose proof (exp_pos a) as Ha. pose proof (exp_pos b) as Hb.
  set (A := exp a) in *. set (B := exp b) in *.
  assert (HAB : (0 < A * B)%R) by (apply Rmult_lt_0_compat; assumption).
  rewrite <- ln_mult by (apply Rdiv_lt_0_compat; lra).
  apply ln_increasing.
  - apply Rmult_lt_0_compat; apply Rdiv_lt_0_compat; lra.
  - replace (1 / (1 + A) * (1 / (1 + B)))%R with (/ ((1 + A) * (1 + B)))%R
      by (field; lra).
    replace (1 / (1 + A * B))%R with (/ (1 + A * B))%R by (field; lra).
    apply Rinv_lt_contravar; nra.
Qed.

(** C2.  On one example with two negatives, whatever the embeddings, the
    value of [forward] is strictly below the loss of the notebook's formula:
    the two negative scores are added up before the log-sigmoid is taken,
    where the formula has one log-sigmoid per negative.  With all embeddings
    zero, [forward] gives 2 ln 2 and the formula 3 ln 2. *)
Theorem forward_sums_negative_scores :
  (forall t1 t2 c1 c2 n1 n2 m1 m2 : R,
      exists loss,
        forward {| embeddings_target := [[t1; t2]];
                   embeddings_context := [[c1; c2]; [n1; n2]; [m1; m2]] |}
                [0] [0] [[1; 2]]
        = Returns loss /\
        (loss < documented_loss [t1; t2] [c1; c2] [[n1; n2]; [m1; m2]])%R) /\
  forward {| embeddings_target := [[0%R]]; embeddings_context := [[0%R]] |}
          [0] [0] [[0; 0]]
  = Returns (2 * ln 2)%R /\
  documented_loss [0%R] [0%R] [[0%R]; [0%R]] = (3 * ln 2)%R /\
  (2 * ln 2 <> 3 * ln 2)%R.
Proof.
  split; [|split; [|split]].
  - intros t1 t2 c1 c2 n1 n2 m1 m2. eexists. split.
    + apply forward_one_example.
    + cbv [documented_loss dot map2 map fsum fold_left].
      pose proof (logsigmoid_neg_sum (n1 * t1 + n2 * t2) (m1 * t1 + m2 * t2)) as H.
      replace (0 + t1 * c1 + t2 * c2)%R with (t1 * c1 + t2 * c2)%R by lra.
      replace (0 + t1 * n1 + t2 * n2)%R with (n1 * t1 + n2 * t2)%R by lra.
      replace (0 + t1 * m1 + t2 * m2)%R with (m1 * t1 + m2 * t2)%R by lra.
      lra.
  - cbv [forward embedding embedding2 mapM getindex nth_error bind mul map2
         sum_dim1 map fsum fold_left bmm unsqueeze2 matmul transpose dot
         sum_dim1_3d sum_all concat app embeddings_target embeddings_context].
    f_equal. rewrite !logsigmoid_at_0 by lra. lra.
  - cbv [documented_loss dot map2 map fsum fold_left].
    rewrite !logsigmoid_at_0 by lra. lra.
  - pose proof ln_2_pos. lra.
Qed.

(** ** The pulls of the pair loop and the words of a draw *)

(** Case analysis on the first computation of a [bind] that returns. *)
Ltac inv_bind H :=
  match type of H with
  | bind ?m _ = Returns _ =>
      let E := fresh "E" in
      destruct m eqn:E; cbn [bind] in H; [|discriminate H]
  end.

Lemma pull_app {G N : Type} (next : G -> outcome (N * G)) (a b : nat) :
  forall (g g1 g2 : G) (xs ys : list N),
    pull next a g = Returns (xs, g1) ->
    pull next b g1 = Returns (ys, g2) ->
    pull next (a + b) g = Returns (xs ++ ys, g2).
Proof.
  induction a as [|a IH]; intros g g1 g2 xs ys Ha Hb; simpl in *.
  - inversion Ha; subst. exact Hb.
  - inv_bind Ha. destruct a0 as [x g0]. inv_bind Ha. destruct a0 as [xs' g1'].
    inversion Ha; subst. cbn [bind]. rewrite (IH _ _ _ _ _ E0 Hb). reflexivity.
Qed.

Section PairLoopPulls.

Variables G N : Type.
Variable next : G -> outcome (N * G).

Lemma window_loop_pull (text : list string) (i : nat) (word : string) :
  forall (js : list nat) (g g' : G) (tuples : list (string * string * N)),
    window_loop next text i word js g = Returns (tuples, g') ->
    pull next (length tuples) g = Returns (map snd tuples, g').
Proof.
  induction js as [|j js IH]; intros g g' tuples Hrun; simpl in Hrun.
  - inversion Hrun; subst. reflexivity.
  - destruct (negb (i =? j)).
    + inv_bind Hrun. inv_bind Hrun. destruct a0 as [negs g1].
      inv_bind Hrun. destruct a0 as [rest g2]. inversion Hrun; subst.
      simpl. rewrite E0. cbn [bind]. rewrite (IH _ _ _ E1). reflexivity.
    + apply IH. exact Hrun.
Qed.

Lemma text_loop_pull (w : nat) (text : list string) :
  forall (iws : list (nat * string)) (g g' : G)
         (tuples : list (string * string * N)),
    text_loop next w text iws g = Returns (tuples, g') ->
    pull next (length tuples) g = Returns (map snd tuples, g').
Proof.
  induction iws as [|[i word] iws IH]; intros g g' tuples Hrun;
    cbn [text_loop] in Hrun.
  - inversion Hrun; subst. reflexivity.
  - inv_bind Hrun. destruct a as [here g1]. inv_bind Hrun.
    destruct a as [rest g2]. inversion Hrun; subst.
    rewrite length_app, map_app.
    apply pull_app with (g1 := g1).
    + apply (window_loop_pull _ _ _ _ _ E).
    + apply IH. exact E0.
Qed.

Lemma context_tuple_list_pull (w : nat) :
  forall (corpus : list (list string)) (g g' : G)
         (tuples : list (string * string * N)),
    context_tuple_list next w corpus g = Returns (tuples, g') ->
    pull next (length tuples) g = Returns (map snd tuples, g').
Proof.
  induction corpus as [|text corpus IH]; intros g g' tuples Hrun;
    cbn [context_tuple_list] in Hrun.
  - inversion Hrun; subst. reflexivity.
  - inv_bind Hrun. destruct a as [here g1]. inv_bind Hrun.
    destruct a as [rest g2]. inversion Hrun; subst.
    rewrite length_app, map_app.
    apply pull_app with (g1 := g1).
    + apply (text_loop_pull _ _ _ _ E).
    + apply IH. exact E0.
Qed.

End PairLoopPulls.

Lemma append_word_spec (words : list string) (index : nat) :
  index < length words ->
  forall (count : nat) (word_list : list string),
    append_word words index count word_list
    = Returns (word_list ++ repeat (nth index words ""%string) count).
Proof.
  intros Hi. induction count as [|count IH]; intros word_list; simpl.
  - now rewrite app_nil_r.
  - rewrite (@getindex_nth _ words index ""%string Hi). cbn [bind].
    rewrite IH, <- app_assoc. reflexivity.
Qed.

Lemma expand_sample_spec (words : list string) :
  forall (ics : list (nat * nat)) (word_list : list string),
    Forall (fun ic => fst ic < length words) ics ->
    expand_sample words ics word_list
    = Returns (word_list
               ++ flat_map (fun ic => repeat (nth (fst ic) words ""%string) (snd ic))
                           ics).
Proof.
  induction ics as [|[index count] ics IH]; intros word_list Hics; simpl.
  - now rewrite app_nil_r.
  - pose proof (Forall_inv Hics) as Hi. simpl in Hi.
    rewrite (append_word_spec words Hi). cbn [bind].
    rewrite IH by exact (Forall_inv_tail Hics). now rewrite <- app_assoc.
Qed.


(** ** Negative sampling *)

Lemma fsum_shift (l : list R) (a : R) : fold_left Rplus l a = (a + fsum l)%R.
Proof.
  unfold fsum. revert a. induction l as [|x l IH]; intros a; simpl; [lra|].
  rewrite (IH (a + x)%R), (IH (0 + x)%R). lra.
Qed.

Lemma fsum_cons (x : R) (l : list R) : fsum (x :: l) = (x + fsum l)%R.
Proof. unfold fsum at 1. simpl. rewrite fsum_shift. lra. Qed.

Lemma fsum_Permutation (l l' : list R) : Permutation l l' -> fsum l = fsum l'.
Proof.
  induction 1 as [|x l l' _ IH|x y l|l l' l'' _ IH1 _ IH2];
    rewrite ?fsum_cons; try lra; congruence.
Qed.

Lemma fsum_pos (l : list R) :
  l <> [] -> Forall (fun x => 0 < x)%R l -> (0 < fsum l)%R.
Proof.
  intros Hne Hpos. induction Hpos as [|x l Hx Hl IH]; [contradiction|].
  rewrite fsum_cons. destruct l as [|y l].
  - unfold fsum. simpl. lra.
  - assert (0 < fsum (y :: l))%R by (apply IH; discriminate). lra.
Qed.

Lemma fsum_map_div (l : list R) (c : R) :
  fsum (map (fun x => x / c) l)%R = (fsum l / c)%R.
Proof.
  induction l as [|x l IH]; simpl.
  - unfold fsum. simpl. lra.
  - rewrite !fsum_cons, IH. lra.
Qed.

Lemma pow075_pos (v : nat) : (0 < pow075 v)%R.
Proof. unfold pow075, Rpower. apply exp_pos. Qed.

Lemma values_by_keys {V : Type} (d : dict V) (default : V) :
  NoDup (keys d) -> values d = map (fun k => get d k default) (keys d).
Proof.
  induction d as [|[k v] d IH]; intros Hnd; [reflexivity|].
  simpl in Hnd. inversion Hnd as [|? ? Hnotin Hnd']; subst.
  simpl. unfold get at 1. simpl. rewrite String.eqb_refl. f_equal.
  rewrite (IH Hnd'). apply map_ext_in. intros k' Hk'.
  unfold get. simpl. destruct (String.eqb k k') eqn:E; [|reflexivity].
  apply String.eqb_eq in E. subst k'. contradiction.
Qed.

Lemma fill_sample_probability_spec (word_counts : dict nat) (nf : R) :
  nf <> 0%R ->
  forall (ws : list string) (acc : dict R),
    (forall w, In w ws -> In w (keys word_counts)) ->
    NoDup (keys acc ++ ws) ->
    exists d,
      fill_sample_probability word_counts nf ws acc = Returns d /\
      keys d = keys acc ++ ws /\
      forall w,
        dict_find d w
        = if in_dec string_dec w ws
          then Some (pow075 (get word_counts w 0%nat) / nf)%R
          else dict_find acc w.
Proof.
  intros Hnf. induction ws as [|word ws IH]; intros acc Hsub Hnd.
  - exists acc. rewrite app_nil_r. repeat split.
  - cbn [fill_sample_probability].
    rewrite (getitem_get word_counts word) by (apply Hsub; simpl; auto).
    cbn [bind]. rewrite truediv_Returns by exact Hnf. cbn [bind].
    assert (Hnew : ~ In word (keys acc)).
    { intros Hin. apply NoDup_remove_2 in Hnd. apply Hnd.
      apply in_or_app. auto. }
    destruct (IH (setitem acc word (pow075 (get word_counts word 0%nat) / nf)%R))
      as (d & Hrun & Hkeys & Hfind).
    { intros w Hw. apply Hsub. simpl; auto. }
    { rewrite keys_setitem_new by exact Hnew.
      rewrite <- app_assoc. exact Hnd. }
    exists d. split; [exact Hrun|]. split.
    + rewrite Hkeys, keys_setitem_new by exact Hnew. now rewrite <- app_assoc.
    + intros w. rewrite Hfind.
      destruct (in_dec string_dec w ws) as [Hin|Hin];
        destruct (in_dec string_dec w (word :: ws)) as [Hin'|Hin'];
        simpl in Hin'; try reflexivity; try tauto.
      * destruct Hin' as [->|]; [|contradiction]. apply dict_find_setitem_same.
      * apply dict_find_setitem_other. intros ->. tauto.
Qed.

Lemma sample_negative_prologue_spec (corpus : list (list string)) :
  let words := keys (Counter (chain corpus)) in
  exists sp,
    sample_negative_prologue corpus = Returns (sp, words) /\
    keys sp = words /\
    values sp = map (sampling_probability corpus words) words /\
    forall w, In w (chain corpus) ->
              dict_find sp w = Some (sampling_probability corpus words w).
Proof.
  intros words. unfold sample_negative_prologue.
  pose proof (Counter_keys_NoDup (chain corpus)) as Hnd. fold words in Hnd.
  assert (Hweights : map pow075 (values (Counter (chain corpus)))
                     = map (sampling_weight corpus) words).
  { rewrite (values_by_keys (Counter (chain corpus)) 0 Hnd), map_map.
    apply map_ext. intros w. unfold sampling_weight. now rewrite Counter_get. }
  rewrite Hweights. fold words.
  destruct words as [|w0 ws] eqn:Ew.
  - exists []. repeat split. intros w Hw.
    apply Counter_keys_In in Hw. fold words in Hw. rewrite Ew in Hw. contradiction.
  - rewrite <- Ew in *.
    assert (Hnf : fsum (map (sampling_weight corpus) words) <> 0%R).
    { apply Rgt_not_eq. apply fsum_pos.
      - rewrite Ew. discriminate.
      - apply Forall_forall. intros x Hx. apply in_map_iff in Hx.
        destruct Hx as (w & <- & _). apply pow075_pos. }
    destruct (fill_sample_probability_spec (Counter (chain corpus)) Hnf
                words [] (fun w H => H) Hnd)
      as (sp & Hrun & Hkeys & Hfind).
    assert (Hprob : forall w, In w words ->
              dict_find sp w = Some (sampling_probability corpus words w)).
    { intros w Hw. rewrite Hfind.
      destruct (in_dec string_dec w words); [|contradiction].
      unfold sampling_probability, sampling_weight. now rewrite Counter_get. }
    exists sp. rewrite Hrun. cbn [bind]. simpl in Hkeys.
    split; [reflexivity|]. split; [exact Hkeys|]. split.
    + rewrite (values_by_keys sp 0%R) by (rewrite Hkeys; exact Hnd).
      rewrite Hkeys. apply map_ext_in. intros w Hw.
      unfold get. now rewrite (Hprob w Hw).
    + intros w Hw. apply Hprob. apply Counter_keys_In. exact Hw.
Qed.

Lemma append_word_total (words : list string) (index : nat) :
  index < length words ->
  forall (count : nat) (word_list : list string),
    exists word_list', append_word words index count word_list = Returns word_list'.
Proof.
  intros Hi. induction count as [|count IH]; intros word_list; simpl.
  - eauto.
  - rewrite (getindex_nth words ""%string Hi). simpl. apply IH.
Qed.

Lemma expand_sample_total (words : list string) :
  forall (ics : list (nat * nat)) (word_list : list string),
    Forall (fun ic => fst ic < length words) ics ->
    exists word_list', expand_sample words ics word_list = Returns word_list'.
Proof.
  induction ics as [|[index count] ics IH]; intros word_list Hics; simpl.
  - eauto.
  - pose proof (Forall_inv Hics) as Hi. simpl in Hi.
    destruct (append_word_total words Hi count word_list) as [wl Hwl].
    rewrite Hwl. simpl. apply IH. exact (Forall_inv_tail Hics).
Qed.

Lemma enumerate_index_bound {A : Type} (l : list A) :
  Forall (fun ic => fst ic < length l) (enumerate l).
Proof.
  apply Forall_forall. intros [i a] Hin. unfold enumerate in Hin.
  apply in_combine_l in Hin. apply in_seq in Hin. simpl. lia.
Qed.

Lemma doc_pairs_nonempty (w : nat) (corpus : list (list string)) :
  flat_map (doc_pairs w) corpus <> [] -> chain corpus <> [].
Proof.
  induction corpus as [|text corpus IH]; simpl; [tauto|].
  destruct text as [|a text]; [|discriminate].
  exact IH.
Qed.

Lemma drawn_words_enumerate (counts : list nat) :
  forall (words prefix : list string),
    length counts = length words ->
    flat_map (fun ic : nat * nat =>
                repeat (nth (fst ic) (prefix ++ words) ""%string) (snd ic))
             (combine (seq (length prefix) (length counts)) counts)
    = drawn_words words counts.
Proof.
  induction counts as [|c counts IH]; intros [|w words] prefix Hlen;
    simpl in Hlen; try discriminate; [reflexivity|].
  cbn [length seq combine flat_map fst snd]. unfold drawn_words.
  cbn [map2 concat]. rewrite nth_middle. f_equal.
  specialize (IH words (prefix ++ [w])).
  rewrite length_app, <- app_assoc in IH. cbn [length app] in IH.
  rewrite Nat.add_1_r in IH. apply IH. lia.
Qed.

Lemma sampling_probability_sum (corpus : list (list string)) (words : list string) :
  words <> [] ->
  fsum (map (sampling_probability corpus words) words) = 1%R.
Proof.
  intros Hne. unfold sampling_probability.
  rewrite <- (map_map (sampling_weight corpus)
                      (fun x => x / fsum (map (sampling_weight corpus) words))%R).
  rewrite fsum_map_div. apply Rdiv_diag.
  apply Rgt_not_eq. apply fsum_pos.
  - intros Hnil. apply map_eq_nil in Hnil. contradiction.
  - apply Forall_forall. intros x Hx. apply in_map_iff in Hx.
    destruct Hx as (w & <- & _). apply pow075_pos.
Qed.

Section SamplerRuns.

Variable multinomial : nat -> nat -> list R -> list nat.
Hypothesis multinomial_length :
  forall c k pvals, length (multinomial c k pvals) = length pvals.

Lemma sample_negative_draw_total (sample_size : nat) (sp : dict R)
    (words : list string) (calls : nat) :
  length (values sp) = length words ->
  exists word_list,
    sample_negative_draw multinomial sample_size sp words calls
    = Returns (word_list, Suspended sample_size sp words (S calls)).
Proof.
  intros Hlen. unfold sample_negative_draw.
  assert (Hbound : Forall (fun ic : nat * nat => fst ic < length words)
                           (enumerate (multinomial calls sample_size (values sp)))).
  { rewrite <- Hlen, <- (multinomial_length calls sample_size (values sp)).
    apply enumerate_index_bound. }
  destruct (@expand_sample_total words _ [] Hbound) as [wl Hwl].
  exists wl. rewrite Hwl. reflexivity.
Qed.

Lemma sample_negative_step (corpus : list (list string)) (sample_size : nat) :
  exists sp,
    sample_negative_prologue corpus = Returns (sp, keys (Counter (chain corpus))) /\
    forall k gen,
      generator_after sample_size sp (keys (Counter (chain corpus))) k gen ->
      exists word_list gen',
        sample_negative multinomial corpus gen = Returns (word_list, gen') /\
        generator_after sample_size sp (keys (Counter (chain corpus))) (S k) gen'.
Proof.
  destruct (sample_negative_prologue_spec corpus) as (sp & Hpro & Hkeys & Hvals & _).
  exists sp. split; [exact Hpro|].
  assert (Hlen : length (values sp) = length (keys (Counter (chain corpus)))).
  { rewrite <- Hkeys. unfold values, keys. now rewrite !length_map. }
  intros [|k] gen Hgen; simpl in Hgen; subst gen; cbn [sample_negative].
  - rewrite Hpro. cbn [bind].
    destruct (@sample_negative_draw_total sample_size sp _ 0 Hlen) as [wl Hwl].
    exists wl, (Suspended sample_size sp (keys (Counter (chain corpus))) 1).
    split; [exact Hwl | reflexivity].
  - destruct (@sample_negative_draw_total sample_size sp _ (S k) Hlen) as [wl Hwl].
    exists wl, (Suspended sample_size sp (keys (Counter (chain corpus))) (S (S k))).
    split; [exact Hwl | reflexivity].
Qed.

Lemma notebook_pairs_run (draws : random_source) (corpus : list (list string)) :
  exists corpus1 n tuples gen,
    subsample_frequent_words draws corpus 0 = Returns (corpus1, n) /\
    notebook_pairs multinomial draws corpus = Returns (corpus1, tuples, gen) /\
    map pair_of tuples = flat_map (doc_pairs 2) corpus1 /\
    (tuples = [] -> gen = Created 4) /\
    (tuples <> [] ->
     exists sp words,
       gen = Suspended 4 sp words (length tuples) /\
       sample_negative_prologue corpus1 = Returns (sp, words) /\
       NoDup words /\ (forall w, In w words <-> In w (chain corpus1)) /\
       keys sp = words /\
       values sp = map (sampling_probability corpus1 words) words /\
       fsum (values sp) = 1%R /\
       (forall w, In w (chain corpus1) ->
                  dict_find sp w = Some (sampling_probability corpus1 words w)) /\
       (forall calls global,
           exists word_list,
             sample_negative multinomial global (Suspended 4 sp words calls)
             = Returns (word_list, Suspended 4 sp words (S calls)))).
Proof.
  destruct (subsample_frequent_words_run draws corpus 0) as (corpus1 & Hsub & _).
  destruct (sample_negative_step corpus1 4) as (sp & Hpro & Hstep).
  set (words := keys (Counter (chain corpus1))) in *.
  destruct (@context_tuple_list_pairs generator (list string)
              (sample_negative multinomial corpus1)
              (generator_after 4 sp words) Hstep 2 corpus1 0 (Created 4) eq_refl)
    as (tuples & gen & Hrun & Hgen & Hpairs).
  exists corpus1, (0 + length (chain corpus)), tuples, gen.
  split; [exact Hsub|]. split.
  { unfold notebook_pairs. rewrite Hsub. cbn [bind]. rewrite Hrun. reflexivity. }
  split; [exact Hpairs|].
  simpl in Hgen. split.
  - intros ->. exact Hgen.
  - intros Hne. destruct tuples as [|t tuples]; [contradiction|].
    cbn [length generator_after] in Hgen.
    destruct (sample_negative_prologue_spec corpus1)
      as (sp' & Hpro' & Hkeys & Hvals & Hfind).
    fold words in Hpro', Hkeys, Hvals, Hfind.
    assert (sp' = sp) by congruence. subst sp'.
    exists sp, words. split; [exact Hgen|]. split; [exact Hpro|].
    split; [apply Counter_keys_NoDup|].
    split; [intros w; apply Counter_keys_In|].
    split; [exact Hkeys|]. split; [exact Hvals|]. split; [|split; [exact Hfind|]].
    + rewrite Hvals. unfold sampling_probability.
      rewrite <- (map_map (sampling_weight corpus1)
                          (fun x => x / fsum (map (sampling_weight corpus1) words))%R).
      rewrite fsum_map_div. apply Rdiv_diag.
      apply Rgt_not_eq. apply fsum_pos.
      * intros Hnil. apply map_eq_nil in Hnil.
        assert (Hchain : chain corpus1 <> []).
        { apply (@doc_pairs_nonempty 2). rewrite <- Hpairs. discriminate. }
        assert (Hex : exists w0, In w0 (chain corpus1))
          by (destruct (chain corpus1) as [|w0 l];
              [contradiction | exists w0; simpl; auto]).
        destruct Hex as [w0 Hw0]. apply Counter_keys_In in Hw0.
        fold words in Hw0. rewrite Hnil in Hw0. contradiction.
      * apply Forall_forall. intros x Hx. apply in_map_iff in Hx.
        destruct Hx as (w & <- & _). apply pow075_pos.
    + intros calls global. apply sample_negative_draw_total.
      rewrite <- Hkeys. unfold values, keys. now rewrite !length_map.
Qed.

Lemma sample_negative_draw_exact (sample_size : nat) (sp : dict R)
    (words : list string) (calls : nat) :
  length (values sp) = length words ->
  sample_negative_draw multinomial sample_size sp words calls
  = Returns (drawn_words words (multinomial calls sample_size (values sp)),
             Suspended sample_size sp words (S calls)).
Proof.
  intros Hlen. unfold sample_negative_draw.
  set (counts := multinomial calls sample_size (values sp)).
  assert (Hcounts : length counts = length words).
  { unfold counts. rewrite multinomial_length. exact Hlen. }
  assert (Hbound : Forall (fun ic : nat * nat => fst ic < length words)
                          (enumerate counts)).
  { rewrite <- Hcounts. apply enumerate_index_bound. }
  rewrite (expand_sample_spec words [] Hbound). cbn [bind app].
  pose proof (drawn_words_enumerate counts words [] Hcounts) as Hdrawn.
  cbn [length app] in Hdrawn. unfold enumerate. rewrite Hdrawn. reflexivity.
Qed.

Lemma sample_negative_pulls (corpus : list (list string)) (sample_size : nat)
    (sp : dict R) (words : list string) :
  sample_negative_prologue corpus = Returns (sp, words) ->
  length (values sp) = length words ->
  forall (n k : nat) (gen : generator),
    generator_after sample_size sp words k gen ->
    exists gen',
      pull (sample_negative multinomial corpus) n gen
      = Returns (map (fun calls =>
                        drawn_words words
                          (multinomial calls sample_size (values sp)))
                     (seq k n), gen') /\
      generator_after sample_size sp words (k + n) gen'.
Proof.
  intros Hpro Hlen. induction n as [|n IH]; intros k gen Hgen.
  - exists gen. rewrite Nat.add_0_r. split; [reflexivity | exact Hgen].
  - assert (Hnext : sample_negative multinomial corpus gen
                    = Returns (drawn_words words
                                 (multinomial k sample_size (values sp)),
                               Suspended sample_size sp words (S k))).
    { destruct k as [|k]; simpl in Hgen; subst gen; cbn [sample_negative].
      - rewrite Hpro. cbn [bind]. apply sample_negative_draw_exact. exact Hlen.
      - apply sample_negative_draw_exact. exact Hlen. }
    destruct (IH (S k) (Suspended sample_size sp words (S k)) eq_refl)
      as (gen' & Hpull & Hgen').
    exists gen'. cbn [pull seq map]. rewrite Hnext. cbn [bind].
    rewrite Hpull. cbn [bind]. split; [reflexivity|].
    replace (k + S n) with (S k + n) by lia. exact Hgen'.
Qed.

(** C1, as the code has it.  The sampler reads the corpus that is the global
    [corpus] when the generator first runs.  Its table gives every word of
    that corpus the probability count^0.75 over the sum of count^0.75, in
    the order of [words], and sums to 1.  The first pull computes the table
    and draws with it; every later pull draws with the same table, whatever
    [corpus] has become: the [calls]-th pull yields the words for the counts
    of the [calls]-th multinomial draw of [sample_size] samples with these
    probabilities.  In the notebook the corpus read is the subsampled one,
    and the negatives of the tuples are the successive draws. *)
Theorem sampler_distribution (corpus : list (list string)) (sample_size : nat) :
  exists sp words,
    let pvals := map (sampling_probability corpus words) words in
    let draw := fun sample_size calls =>
                  drawn_words words (multinomial calls sample_size pvals) in
    sample_negative_prologue corpus = Returns (sp, words) /\
    NoDup words /\ (forall x, In x words <-> In x (chain corpus)) /\
    keys sp = words /\
    values sp = pvals /\
    (chain corpus <> [] -> fsum pvals = 1%R) /\
    (forall x, In x (chain corpus) ->
               dict_find sp x = Some (sampling_probability corpus words x)) /\
    sample_negative multinomial corpus (Created sample_size)
    = Returns (draw sample_size 0, Suspended sample_size sp words 1) /\
    (forall calls global,
        sample_negative multinomial global
          (Suspended sample_size sp words calls)
        = Returns (draw sample_size calls,
                   Suspended sample_size sp words (S calls))) /\
    (forall n, exists gen,
        pull (sample_negative multinomial corpus) n (Created sample_size)
        = Returns (map (draw sample_size) (seq 0 n), gen) /\
        generator_after sample_size sp words n gen) /\
    (forall draws corpus0 n,
        subsample_frequent_words draws corpus0 0 = Returns (corpus, n) ->
        exists tuples gen,
          notebook_pairs multinomial draws corpus0
          = Returns (corpus, tuples, gen) /\
          map snd tuples = map (draw 4) (seq 0 (length tuples))).
Proof.
  destruct (sample_negative_prologue_spec corpus)
    as (sp & Hpro & Hkeys & Hvals & Hfind).
  set (words := keys (Counter (chain corpus))) in *.
  assert (Hlen : length (values sp) = length words).
  { rewrite <- Hkeys. unfold values, keys. now rewrite !length_map. }
  exists sp, words. cbv zeta. rewrite <- Hvals.
  split; [exact Hpro|]. split; [apply Counter_keys_NoDup|].
  split; [intros x; apply Counter_keys_In|].
  split; [exact Hkeys|]. split; [reflexivity|]. split; [|split; [exact Hfind|]].
  { intros Hne. rewrite Hvals. apply sampling_probability_sum.
    intros Hnil.
    assert (Hex : exists w0, In w0 (chain corpus))
      by (destruct (chain corpus) as [|w0 l];
          [contradiction | exists w0; simpl; auto]).
    destruct Hex as [w0 Hw0]. apply Counter_keys_In in Hw0.
    fold words in Hw0. rewrite Hnil in Hw0. contradiction. }
  split.
  { cbn [sample_negative]. rewrite Hpro. cbn [bind].
    apply sample_negative_draw_exact. exact Hlen. }
  split.
  { intros calls global. cbn [sample_negative].
    apply sample_negative_draw_exact. exact Hlen. }
  split.
  { intros n.
    destruct (@sample_negative_pulls corpus sample_size sp words Hpro Hlen
                n 0 (Created sample_size) eq_refl) as (gen & Hpull & Hgen).
    exists gen. split; [exact Hpull | exact Hgen]. }
  intros draws corpus0 n0 Hsub.
  destruct (sample_negative_step corpus 4) as (sp' & Hpro' & Hstep).
  fold words in Hpro', Hstep.
  assert (sp' = sp) by congruence. subst sp'.
  destruct (@context_tuple_list_pairs generator (list string)
              (sample_negative multinomial corpus)
              (generator_after 4 sp words) Hstep 2 corpus 0 (Created 4) eq_refl)
    as (tuples & gen & Hrun & _ & _).
  exists tuples, gen. split.
  { unfold notebook_pairs. rewrite Hsub. cbn [bind]. rewrite Hrun. reflexivity. }
  pose proof (@context_tuple_list_pull _ _ _ _ _ _ _ _ Hrun) as Hpull.
  destruct (@sample_negative_pulls corpus 4 sp words Hpro Hlen
              (length tuples) 0 (Created 4) eq_refl) as (gen' & Hpull' & _).
  rewrite Hpull in Hpull'. injection Hpull' as Hneg _. exact Hneg.
Qed.

End SamplerRuns.

(** *** The sampler on a small corpus *)

(** Replaces the counts of closed lists by their values. *)
Ltac eval_counts :=
  repeat match goal with
         | |- context [count_occ string_dec ?l ?x] =>
             let c := eval vm_compute in (count_occ string_dec l x) in
             replace (count_occ string_dec l x) with c by reflexivity
         end.

Lemma first_bin_length (c k : nat) (pvals : list R) :
  length (first_bin c k pvals) = length pvals.
Proof. destruct pvals; simpl; [reflexivity | now rewrite length_map]. Qed.

Lemma pow075_1 : pow075 1 = 1%R.
Proof.
  unfold pow075, Rpower. simpl INR. rewrite ln_1, Rmult_0_r. apply exp_0.
Qed.

Lemma keep_probability_third :
  (0 < keep_probability (1 / 3) < 1 / 2)%R.
Proof.
  assert (H3 : (0 < 1 / 3)%R) by lra.
  destruct (keep_probability_root H3) as (s & Hs & Hss & ->).
  assert (Hs2 : (0 < s * s)%R) by nra.
  split.
  - apply Rdiv_lt_0_compat; lra.
  - apply (Rmult_lt_reg_r (s * s)); [exact Hs2|].
    replace ((1 + s) / (s * s) * (s * s))%R with (1 + s)%R by (field; lra).
    assert (s < 19)%R by nra. nra.
Qed.

Lemma abc_frequency (w : string) :
  In w ["a"; "b"; "c"]%string ->
  relative_frequency [["a"; "b"; "c"]%string] w = (1 / 3)%R.
Proof.
  unfold relative_frequency.
  intros [<-|[<-|[<-|[]]]]; cbn [chain concat app length];
    eval_counts; simpl INR; lra.
Qed.

Lemma abc_subsampled :
  exists n,
    subsample_frequent_words half_then_zero [["a"; "b"; "c"]%string] 0
    = Returns ([["b"; "c"]%string], n).
Proof.
  destruct (subsample_frequent_words_run half_then_zero [["a"; "b"; "c"]%string] 0)
    as (out & Hrun & Hlen & Hnth).
  exists (0 + length (chain [["a"; "b"; "c"]%string])). rewrite Hrun.
  destruct out as [|text [|? ?]]; try discriminate Hlen.
  specialize (Hnth 0 ltac:(simpl; lia)). cbn [nth] in Hnth. rewrite Hnth.
  unfold kept_tokens, keeps, offset. cbn [nth firstn chain concat length Nat.add].
  rewrite enumerate_seq. cbn [length seq map nth filter fst snd Nat.add].
  rewrite !abc_frequency by (simpl; auto).
  destruct keep_probability_third as [Hpos Hhalf].
  unfold Rltb. cbn [half_then_zero].
  destruct (Rlt_dec (1 / 2) (keep_probability (1 / 3))) as [H|_]; [lra|].
  destruct (Rlt_dec 0 (keep_probability (1 / 3))) as [_|H]; [|contradiction].
  reflexivity.
Qed.

Lemma bc_probability :
  sampling_probability [["b"; "c"]%string] ["b"; "c"]%string "b" = (1 / 2)%R.
Proof.
  unfold sampling_probability, sampling_weight. cbn [map chain concat app].
  eval_counts.
  rewrite pow075_1, !fsum_cons. unfold fsum. simpl. lra.
Qed.

Lemma abc_probability :
  sampling_probability [["a"; "b"; "c"]%string] ["a"; "b"; "c"]%string "b"
  = (1 / 3)%R.
Proof.
  unfold sampling_probability, sampling_weight. cbn [map chain concat app].
  eval_counts.
  rewrite pow075_1, !fsum_cons. unfold fsum. simpl. lra.
Qed.

(** C1 as stated fails.  On the corpus a b c, with a draw that drops a, the
    sampler's table gives b the probability 1/2, from the counts of the
    subsampled corpus b c; with the counts of the corpus before subsampling
    it would be 1/3; and a has no entry in the table. *)
Lemma sampler_counts_subsampled_corpus :
  exists corpus1 tuples sp words calls,
    notebook_pairs first_bin half_then_zero [["a"; "b"; "c"]%string]
    = Returns (corpus1, tuples, Suspended 4 sp words calls) /\
    In "b"%string (chain corpus1) /\
    dict_find sp "b"%string = Some (1 / 2)%R /\
    sampling_probability [["a"; "b"; "c"]%string] ["a"; "b"; "c"]%string "b"
    = (1 / 3)%R /\
    dict_find sp "a"%string = None.
Proof.
  destruct (@notebook_pairs_run first_bin first_bin_length half_then_zero
              [["a"; "b"; "c"]%string])
    as (corpus1 & n & tuples & gen & Hsub & Hrun & Hpairs & _ & Hgen).
  destruct abc_subsampled as [n' Hsub']. rewrite Hsub' in Hsub.
  injection Hsub as <- _.
  destruct Hgen as (sp & words & -> & Hpro & _ & _ & Hkeys & _ & _ & Hfind & _).
  { intros ->. discriminate Hpairs. }
  destruct (sample_negative_prologue_spec [["b"; "c"]%string])
    as (sp' & Hpro' & _).
  rewrite Hpro' in Hpro. injection Hpro as -> <-.
  exists [["b"; "c"]%string], tuples, sp,
         (keys (Counter (chain [["b"; "c"]%string]))), (length tuples).
  split; [exact Hrun|]. split; [simpl; auto|]. split; [|split].
  - rewrite Hfind by (simpl; auto).
    change (keys (Counter (chain [["b"; "c"]%string]))) with ["b"; "c"]%string.
    now rewrite bc_probability.
  - apply abc_probability.
  - destruct (dict_find sp "a"%string) eqn:E; [|reflexivity].
    exfalso.
    assert (Hin : In "a"%string (keys sp)) by (apply dict_find_keys; rewrite E; discriminate).
    rewrite Hkeys in Hin.
    change (keys (Counter (chain [["b"; "c"]%string]))) with ["b"; "c"]%string in Hin.
    simpl in Hin. intuition discriminate.
Qed.

Lemma sampler_distribution_witness :
  (forall c k pvals, length (first_bin c k pvals) = length pvals) /\
  exists sp words,
    sample_negative first_bin [["b"; "c"; "b"]%string] (Created 4)
    = Returns (drawn_words words
                 (first_bin 0 4
                    (map (sampling_probability [["b"; "c"; "b"]%string] words)
                         words)),
               Suspended 4 sp words 1) /\
    fsum (map (sampling_probability [["b"; "c"; "b"]%string] words) words)
    = 1%R.
Proof.
  split; [exact first_bin_length|].
  destruct (@sampler_distribution first_bin first_bin_length
              [["b"; "c"; "b"]%string] 4)
    as (sp & words & _ & _ & _ & _ & _ & Hsum & _ & Hfirst & _).
  exists sp, words. split; [exact Hfirst|]. apply Hsum. discriminate.
Defined.

(* ================================================================= *)
(** * Part IV: further properties of the code *)
(* ================================================================= *)

(** ** The pair loop and its generator *)

Section Pulls.

Variables G N : Type.
Variable next : G -> outcome (N * G).

Hypothesis next_total : forall g, exists r, next g = Returns r.

(** X5.  The generator is pulled once per tuple, in the order of the tuples. *)
Theorem context_tuple_list_pulls (w : nat) (corpus : list (list string)) (g : G) :
  exists tuples g',
    context_tuple_list next w corpus g = Returns (tuples, g') /\
    length tuples = length (window_positions w corpus) /\
    pull next (length (window_positions w corpus)) g
    = Returns (map snd tuples, g').
Proof.
  destruct (context_tuple_list_pairs_total next w corpus g next_total)
    as (tuples & g' & Hrun & Hmap).
  assert (Hlen : length tuples = length (window_positions w corpus)).
  { rewrite flat_map_doc_pairs in Hmap.
    rewrite <- (length_map pair_of tuples), Hmap. apply length_map. }
  exists tuples, g'. split; [exact Hrun|]. split; [exact Hlen|].
  rewrite <- Hlen. apply (@context_tuple_list_pull _ _ _ _ _ _ _ _ Hrun).
Qed.

End Pulls.

(** ** The reach and the number of the context pairs *)

Lemma filter_out_seq_length (i : nat) :
  forall n a,
    a <= i < a + n ->
    length (filter (fun j => negb (j =? i)) (seq a n)) = n - 1.
Proof.
  induction n as [|n IH]; intros a Hi; [lia|].
  cbn [seq filter]. destruct (Nat.eqb_spec a i) as [->|Hne]; cbn [negb].
  - rewrite forallb_filter_id.
    + rewrite length_seq. lia.
    + apply forallb_forall. intros j Hj. apply in_seq in Hj.
      apply negb_true_iff, Nat.eqb_neq. lia.
  - cbn [length]. rewrite IH by lia. lia.
Qed.

Lemma window_length (len w i : nat) :
  i < len -> length (window len w i) <= 2 * w - 1.
Proof.
  intros Hi. unfold window. destruct w as [|w].
  - replace (Nat.min len (i + 0) - Nat.max 0 (i - 0)) with 0 by lia. simpl. lia.
  - rewrite filter_out_seq_length by lia. lia.
Qed.

Lemma doc_pairs_length (w : nat) (text : list string) :
  length (doc_pairs w text) <= (2 * w - 1) * length text.
Proof.
  unfold doc_pairs, doc_positions. rewrite length_map.
  assert (H : forall l : list nat,
             (forall i, In i l -> i < length text) ->
             length (flat_map (fun i => map (fun j => (i, j))
                                            (window (length text) w i)) l)
             <= (2 * w - 1) * length l).
  { induction l as [|i l IH]; intros Hl; simpl; [lia|].
    rewrite length_app, length_map.
    pose proof (@window_length (length text) w i (Hl i (or_introl eq_refl))).
    assert (length (flat_map (fun i => map (fun j => (i, j))
                                           (window (length text) w i)) l)
            <= (2 * w - 1) * length l)
      by (apply IH; intros; apply Hl; simpl; auto).
    nia. }
  specialize (H (seq 0 (length text))). rewrite length_seq in H.
  apply H. intros i Hi. apply in_seq in Hi. lia.
Qed.

Lemma corpus_pairs_length (w : nat) (corpus : list (list string)) :
  length (flat_map (doc_pairs w) corpus) <= (2 * w - 1) * length (chain corpus).
Proof.
  induction corpus as [|text corpus IH]; simpl; [lia|].
  unfold chain in *. simpl. rewrite !length_app.
  pose proof (doc_pairs_length w text). nia.
Qed.

Section PairCounts.

Variables G N : Type.
Variable next : G -> outcome (N * G).
Hypothesis next_total : forall g, exists r, next g = Returns r.

(** X4.  A target is paired with the contexts up to [w] places before it and
    up to [w - 1] places after it: the window is not symmetric. *)
Theorem context_window_reach (w : nat) (corpus : list (list string)) (g : G) :
  exists tuples g',
    context_tuple_list next w corpus g = Returns (tuples, g') /\
    map pair_of tuples
    = map (fun p : nat * nat * nat =>
             let '(d, i, j) := p in (token corpus d i, token corpus d j))
          (window_positions w corpus) /\
    (forall d i j,
        In (d, i, j) (window_positions w corpus) ->
        (j < i /\ i - j <= w) \/ (i < j /\ j - i < w)) /\
    (forall d i,
        0 < w -> d < length corpus -> w <= i -> i < length (nth d corpus []) ->
        In (d, i, i - w) (window_positions w corpus) /\
        ~ In (d, i - w, i) (window_positions w corpus)).
Proof.
  destruct (context_tuple_list_pairs_total next w corpus g next_total)
    as (tuples & g' & Hrun & Hmap).
  exists tuples, g'. split; [exact Hrun|].
  split; [rewrite Hmap; apply flat_map_doc_pairs|]. split.
  - intros d i j Hin. apply window_positions_In in Hin. lia.
  - intros d i Hw Hd Hi Hlen. split.
    + apply window_positions_In. lia.
    + intros Hin. apply window_positions_In in Hin. lia.
Qed.

(** X6.  At most [2w - 1] tuples per token of the corpus; none when [w = 0]. *)
Theorem context_tuple_count (w : nat) (corpus : list (list string)) (g : G) :
  exists tuples g',
    context_tuple_list next w corpus g = Returns (tuples, g') /\
    length tuples <= (2 * w - 1) * length (chain corpus) /\
    (w = 0 -> tuples = []).
Proof.
  destruct (context_tuple_list_pairs_total next w corpus g next_total)
    as (tuples & g' & Hrun & Hmap).
  assert (Hlen : length tuples <= (2 * w - 1) * length (chain corpus)).
  { rewrite <- (length_map pair_of tuples), Hmap. apply corpus_pairs_length. }
  exists tuples, g'. split; [exact Hrun|]. split; [exact Hlen|].
  intros ->. simpl in Hlen. destruct tuples; [reflexivity | simpl in Hlen; lia].
Qed.

End PairCounts.

Lemma counting_total : forall g, exists r, counting g = Returns r.
Proof. intros g. exists (g, S g). reflexivity. Qed.

Lemma context_tuple_list_pulls_witness :
  (forall g, exists r, counting g = Returns r) /\
  exists tuples,
    context_tuple_list counting 2 [["x"; "y"; "z"]%string] 0
    = Returns (tuples, 5) /\
    map snd tuples = [0; 1; 2; 3; 4].
Proof.
  split; [exact counting_total|].
  destruct (@context_tuple_list_pulls nat nat counting counting_total 2
              [["x"; "y"; "z"]%string] 0)
    as (tuples & g' & Hrun & _ & Hpull).
  assert (Hp : pull counting
                 (length (window_positions 2 [["x"; "y"; "z"]%string])) 0
               = Returns ([0; 1; 2; 3; 4], 5)) by reflexivity.
  rewrite Hp in Hpull. inversion Hpull as [[Hyields Hstate]].
  rewrite <- Hstate in Hrun.
  exists tuples. split; [exact Hrun | symmetry; exact Hyields].
Defined.

Lemma context_window_reach_witness :
  (forall g, exists r, counting g = Returns r) /\
  In (0, 2, 0) (window_positions 2 [["x"; "y"; "z"; "u"; "v"]%string]) /\
  ~ In (0, 0, 2) (window_positions 2 [["x"; "y"; "z"; "u"; "v"]%string]).
Proof.
  split; [exact counting_total|].
  destruct (@context_window_reach nat nat counting counting_total 2
              [["x"; "y"; "z"; "u"; "v"]%string] 0)
    as (tuples & g' & _ & _ & _ & Hasym).
  apply (Hasym 0 2); simpl; lia.
Defined.

Lemma context_tuple_count_witness :
  (forall g, exists r, counting g = Returns r) /\
  exists tuples g',
    context_tuple_list counting 2 [["x"; "y"; "z"]%string; ["u"%string]] 0
    = Returns (tuples, g') /\
    length tuples <= 12.
Proof.
  split; [exact counting_total|].
  destruct (@context_tuple_count nat nat counting counting_total 2
              [["x"; "y"; "z"]%string; ["u"%string]] 0)
    as (tuples & g' & Hrun & Hlen & _).
  exists tuples, g'. split; [exact Hrun | exact Hlen].
Defined.

(** ** The vocabulary mappings *)

Lemma setitem_new {V : Type} (d : dict V) (k : string) (v : V) :
  ~ In k (keys d) -> setitem d k v = d ++ [(k, v)].
Proof.
  induction d as [|[k' v'] d IH]; simpl; [reflexivity|].
  intros Hin. destruct (String.eqb k' k) eqn:E.
  - apply String.eqb_eq in E. tauto.
  - f_equal. apply IH. tauto.
Qed.

Lemma setindex_new (d : list (nat * string)) (k : nat) (v : string) :
  ~ In k (map fst d) -> setindex d k v = d ++ [(k, v)].
Proof.
  induction d as [|[k' v'] d IH]; simpl; [reflexivity|].
  intros Hin. destruct (Nat.eqb_spec k' k) as [E|E].
  - tauto.
  - f_equal. apply IH. tauto.
Qed.

Lemma word_indices_from_exact (v : list string) :
  NoDup v ->
  forall (k : nat) (acc : dict nat),
    (forall w, In w v -> ~ In w (keys acc)) ->
    word_indices_from k v acc = acc ++ combine v (seq k (length v)).
Proof.
  unfold word_indices_from.
  induction 1 as [|a v Hnotin Hnd IH]; intros k acc Hfresh; simpl.
  - now rewrite app_nil_r.
  - rewrite setitem_new by (apply Hfresh; simpl; auto).
    rewrite IH.
    + now rewrite <- app_assoc.
    + intros w Hw. unfold keys. rewrite map_app, in_app_iff. simpl.
      intros [Hin|[<-|[]]]; [|contradiction].
      apply (Hfresh w); simpl; auto.
Qed.

Lemma index_words_from_exact (v : list string) :
  forall (k : nat) (acc : list (nat * string)),
    (forall j, In j (map fst acc) -> j < k) ->
    index_words_from k v acc = acc ++ combine (seq k (length v)) v.
Proof.
  unfold index_words_from.
  induction v as [|a v IH]; intros k acc Hfresh; simpl.
  - now rewrite app_nil_r.
  - rewrite setindex_new by (intros Hin; apply Hfresh in Hin; lia).
    rewrite IH.
    + now rewrite <- app_assoc.
    + intros j. rewrite map_app, in_app_iff. simpl.
      intros [Hin|[<-|[]]]; [apply Hfresh in Hin|]; lia.
Qed.

Section VocabularyMappings.

Variable set_order : list string -> list string.
Hypothesis set_order_NoDup : forall l, NoDup (set_order l).
Hypothesis set_order_In : forall l x, In x (set_order l) <-> In x l.

(** X3.  The two comprehensions never overwrite an entry: the mappings list
    the vocabulary once, in the iteration order of the set, with the
    indices 0 .. V-1; V is the number of distinct tokens; each index below V
    maps to a token that maps back to it; a token outside the corpus and an
    index from V on raise [KeyError]. *)
Theorem vocabulary_mappings (corpus : list (list string)) :
  let v := vocabulary set_order corpus in
  word_to_index set_order corpus = combine v (seq 0 (length v)) /\
  index_to_word set_order corpus = enumerate v /\
  length v = length (nodup string_dec (chain corpus)) /\
  (forall idx, idx < length v ->
     exists w,
       getitem_index (index_to_word set_order corpus) idx = Returns w /\
       getitem (word_to_index set_order corpus) w = Returns idx /\
       In w (chain corpus)) /\
  (forall w, ~ In w (chain corpus) ->
     getitem (word_to_index set_order corpus) w = Raises KeyError) /\
  (forall idx, length v <= idx ->
     getitem_index (index_to_word set_order corpus) idx = Raises KeyError).
Proof.
  intros v.
  pose proof (set_order_NoDup (chain corpus)) as Hnd. fold (vocabulary set_order corpus) in Hnd.
  fold v in Hnd.
  assert (Hw2i : word_to_index set_order corpus = combine v (seq 0 (length v))).
  { change (word_to_index set_order corpus) with (word_indices_from 0 v []).
    rewrite word_indices_from_exact; [reflexivity | exact Hnd | intros w _ []]. }
  assert (Hi2w : index_to_word set_order corpus = enumerate v).
  { change (index_to_word set_order corpus) with (index_words_from 0 v []).
    rewrite index_words_from_exact; [reflexivity | intros j []]. }
  destruct (word_indices_find Hnd 0 []) as [Hin Hout].
  change (word_indices_from 0 v []) with (word_to_index set_order corpus) in Hin, Hout.
  pose proof (index_words_find v 0 []) as Hidx.
  change (index_words_from 0 v []) with (index_to_word set_order corpus) in Hidx.
  split; [exact Hw2i|]. split; [exact Hi2w|]. split; [|split; [|split]].
  - apply Permutation_length. apply NoDup_Permutation;
      [exact Hnd | apply NoDup_nodup |].
    intros x. unfold v, vocabulary. rewrite set_order_In, nodup_In. tauto.
  - intros idx Hlt.
    destruct (nth_error v idx) as [w|] eqn:E;
      [|apply nth_error_None in E; lia].
    exists w. split; [|split].
    + unfold getitem_index. rewrite Hidx. simpl.
      apply Nat.ltb_lt in Hlt. rewrite Hlt, Nat.sub_0_r, E. reflexivity.
    + unfold getitem. rewrite (Hin idx w E). reflexivity.
    + apply nth_error_In in E. unfold v, vocabulary in E.
      apply (proj1 (set_order_In _ _)) in E. exact E.
  - intros w Hw. unfold getitem. rewrite Hout; [reflexivity|].
    unfold v, vocabulary. rewrite set_order_In. exact Hw.
  - intros idx Hge. unfold getitem_index. rewrite Hidx. simpl.
    apply Nat.ltb_ge in Hge. rewrite Hge. reflexivity.
Qed.

End VocabularyMappings.

Lemma vocabulary_mappings_witness :
  (forall l, NoDup (nodup string_dec l)) /\
  (forall l x, In x (nodup string_dec l) <-> In x l) /\
  word_to_index (nodup string_dec) [["b"; "a"; "b"]%string]
  = [("a", 0); ("b", 1)]%string /\
  getitem (word_to_index (nodup string_dec) [["b"; "a"; "b"]%string]) "c"%string
  = Raises KeyError.
Proof.
  split; [exact (NoDup_nodup string_dec)|].
  split; [exact (fun l x => nodup_In string_dec l x)|].
  destruct (@vocabulary_mappings (nodup string_dec) (NoDup_nodup string_dec)
              (fun l x => nodup_In string_dec l x) [["b"; "a"; "b"]%string])
    as (Hw2i & _ & _ & _ & Hkey & _).
  split; [exact Hw2i|].
  apply Hkey. simpl. intuition discriminate.
Defined.

(** ** Subsampling: what is always kept *)

Lemma map_snd_enumerate {A : Type} (l : list A) : map snd (enumerate l) = l.
Proof.
  induction l as [|a l IH]; [reflexivity|].
  rewrite enumerate_cons. cbn [map snd]. rewrite map_map. f_equal.
  transitivity (map snd (enumerate l)); [apply map_ext; intros; reflexivity | exact IH].
Qed.

Lemma enumerate_In_snd {A : Type} (l : list A) (i : nat) (a : A) :
  In (i, a) (enumerate l) -> In a l.
Proof. unfold enumerate. apply in_combine_r. Qed.

Lemma relative_frequency_le_1 (corpus : list (list string)) (word : string) :
  In word (chain corpus) -> (relative_frequency corpus word <= 1)%R.
Proof.
  intros Hin. unfold relative_frequency.
  assert (Hl : 0 < length (chain corpus))
    by (destruct (chain corpus); [contradiction | simpl; lia]).
  apply (Rmult_le_reg_r (INR (length (chain corpus)))); [apply lt_0_INR; exact Hl|].
  unfold Rdiv. rewrite Rmult_assoc, Rinv_l by (apply not_0_INR; lia).
  rewrite Rmult_1_r, Rmult_1_l. apply le_INR. apply count_occ_bound.
Qed.

Lemma keep_probability_floor (p : R) :
  (0 < p <= 1)%R -> (32e-3 < keep_probability p)%R.
Proof.
  intros [Hp Hle].
  destruct (keep_probability_root Hp) as (s & Hs & Hss & ->).
  assert (Hs2 : (0 < s * s)%R) by nra.
  apply (Rmult_lt_reg_r (s * s)); [exact Hs2|].
  replace ((1 + s) / (s * s) * (s * s))%R with (1 + s)%R by (field; lra).
  assert (Hb : (s < 32)%R) by nra.
  nra.
Qed.

(** When every token of the corpus is kept by its draw, the output is the
    input. *)
Lemma subsample_all_kept (draws : random_source) (corpus : list (list string))
    (n : nat) :
  (forall k word, In word (chain corpus) -> keeps draws n corpus k word = true) ->
  subsample_frequent_words draws corpus n
  = Returns (corpus, n + length (chain corpus)).
Proof.
  intros Hkeep.
  destruct (subsample_frequent_words_run draws corpus n)
    as (out & Hrun & Hlen & Hnth).
  rewrite Hrun. f_equal. f_equal.
  apply (nth_ext out corpus [] [] Hlen). intros d Hd. rewrite Hlen in Hd.
  rewrite (Hnth d Hd). unfold kept_tokens.
  rewrite forallb_filter_id; [apply map_snd_enumerate|].
  apply forallb_forall. intros [i w] Hin. cbn [fst snd]. apply Hkeep.
  apply enumerate_In_snd in Hin. unfold chain. apply in_concat.
  exists (nth d corpus []). split; [apply nth_In; exact Hd | exact Hin].
Qed.

(** X1.  No word is frequent enough to be dropped by a draw below 0.032: with
    such draws the subsampler returns the corpus as it is. *)
Theorem subsample_low_draws (draws : random_source)
    (corpus : list (list string)) (n : nat) :
  (forall m, draws m < 32e-3)%R ->
  subsample_frequent_words draws corpus n
  = Returns (corpus, n + length (chain corpus)).
Proof.
  intros Hdraws. apply subsample_all_kept. intros k word Hin.
  unfold keeps. apply Rltb_true.
  apply Rlt_trans with 32e-3%R; [apply Hdraws|].
  apply keep_probability_floor. split.
  - apply relative_frequency_pos. exact Hin.
  - apply relative_frequency_le_1. exact Hin.
Qed.

Lemma subsample_low_draws_witness :
  (forall m : nat, (fun _ : nat => 1e-2) m < 32e-3)%R /\
  subsample_frequent_words (fun _ => 1e-2%R) [["a"; "a"; "b"]%string; ["a"%string]] 0
  = Returns ([["a"; "a"; "b"]%string; ["a"%string]], 4).
Proof.
  assert (Hd : (forall m : nat, (fun _ : nat => 1e-2) m < 32e-3)%R)
    by (intros m; lra).
  split; [exact Hd|].
  exact (subsample_low_draws (fun _ => 1e-2%R)
           [["a"; "a"; "b"]%string; ["a"%string]] 0 Hd).
Defined.

(** X2.  A corpus in which no word has a relative frequency above 0.0025 is
    returned as it is, whatever the draws in [0, 1). *)
Theorem subsample_rare_corpus (draws : random_source)
    (corpus : list (list string)) (n : nat) :
  (forall m, 0 <= draws m < 1)%R ->
  (forall word, In word (chain corpus) ->
                (relative_frequency corpus word <= 25e-4)%R) ->
  subsample_frequent_words draws corpus n
  = Returns (corpus, n + length (chain corpus)).
Proof.
  intros Hdraws Hrare. apply subsample_all_kept. intros k word Hin.
  unfold keeps. apply Rltb_true.
  assert (H1 : (1 <= keep_probability (relative_frequency corpus word))%R).
  { apply keep_probability_rare. split.
    - apply relative_frequency_pos. exact Hin.
    - apply Hrare. exact Hin. }
  destruct (Hdraws (n + k)). lra.
Qed.

Lemma numbered_corpus_rare (word : string) :
  In word (chain numbered_corpus) ->
  (relative_frequency numbered_corpus word <= 25e-4)%R.
Proof.
  intros Hin. unfold relative_frequency.
  assert (Hnd : NoDup (chain numbered_corpus)).
  { assert (H : nodup string_dec (chain numbered_corpus) = chain numbered_corpus)
      by (vm_compute; reflexivity).
    rewrite <- H. apply NoDup_nodup. }
  rewrite (proj1 (NoDup_count_occ' string_dec (chain numbered_corpus)) Hnd word Hin).
  replace (length (chain numbered_corpus)) with 400 by (vm_compute; reflexivity).
  rewrite (INR_IZR_INZ 400). change (Z.of_nat 400) with 400%Z.
  simpl INR. lra.
Qed.

Lemma subsample_rare_corpus_witness :
  (forall m : nat, 0 <= (fun _ : nat => 9e-1) m < 1)%R /\
  (forall word, In word (chain numbered_corpus) ->
                (relative_frequency numbered_corpus word <= 25e-4)%R) /\
  subsample_frequent_words (fun _ => 9e-1%R) numbered_corpus 0
  = Returns (numbered_corpus, 0 + length (chain numbered_corpus)).
Proof.
  assert (Hd : (forall m : nat, 0 <= (fun _ : nat => 9e-1) m < 1)%R)
    by (intros m; lra).
  split; [exact Hd|]. split; [exact numbered_corpus_rare|].
  exact (@subsample_rare_corpus (fun _ => 9e-1%R) numbered_corpus 0 Hd
           numbered_corpus_rare).
Defined.

(** ** Batches: edge cases and the number of batches *)

Lemma getitem_KeyError {V : Type} (d : dict V) (k : string) :
  ~ In k (keys d) -> getitem d k = Raises KeyError.
Proof.
  intros Hk. unfold getitem.
  destruct (dict_find d k) eqn:E; [|reflexivity].
  exfalso. apply Hk. apply dict_find_keys. rewrite E. discriminate.
Qed.

Lemma mapM_getitem_KeyError (d : dict nat) (ws : list string) :
  ~ Forall (fun w => In w (keys d)) ws ->
  mapM (getitem d) ws = Raises KeyError.
Proof.
  induction ws as [|w ws IH]; intros Hnot.
  - exfalso. apply Hnot. constructor.
  - cbn [mapM]. destruct (in_dec string_dec w (keys d)) as [Hin|Hout].
    + rewrite (getitem_get d w Hin). cbn [bind].
      rewrite IH; [reflexivity|]. intros Hall. apply Hnot. constructor; assumption.
    + rewrite (getitem_KeyError d w Hout). reflexivity.
Qed.

Lemma in_vocabulary_dec (d : dict nat) (e : example) :
  {in_vocabulary d e} + {~ in_vocabulary d e}.
Proof.
  destruct e as [[target context] negatives]. unfold in_vocabulary.
  destruct (in_dec string_dec target (keys d)) as [Ht|Ht]; [|right; tauto].
  destruct (in_dec string_dec context (keys d)) as [Hc|Hc]; [|right; tauto].
  destruct (Forall_dec (fun w => In w (keys d))
                       (fun w => in_dec string_dec w (keys d)) negatives)
    as [Hn|Hn]; [left; tauto | right; tauto].
Qed.

Section BatchEdges.

Variable word_to_index : dict nat.

Lemma batch_loop_KeyError (batch_size len k : nat) :
  0 < batch_size ->
  forall (rest : list example) (i : nat) (bt bc : list nat)
         (bn : list (list nat)) (batches : list batch),
    Forall (fun e : example => length (snd e) = k) rest ->
    Forall (fun r => length r = k) bn ->
    Exists (fun e => ~ in_vocabulary word_to_index e) rest ->
    batch_loop word_to_index batch_size len rest i bt bc bn batches
    = Raises KeyError.
Proof.
  intros Hbs. induction rest as [|[[target context] negatives] rest IH];
    intros i bt bc bn batches Hsame Hrows Hex.
  - inversion Hex.
  - pose proof (Forall_inv Hsame) as Hk. cbn [snd] in Hk.
    pose proof (Forall_inv_tail Hsame) as Hsame'.
    cbn [batch_loop].
    destruct (in_vocabulary_dec word_to_index (target, context, negatives))
      as [Hin|Hout].
    + destruct (index_triple_in_vocabulary Hin) as (Ht & Hc & Hn & _).
      rewrite Ht. cbn [bind]. rewrite Hc. cbn [bind]. rewrite Hn. cbn [bind].
      unfold pymod. destruct (Nat.eqb_spec batch_size 0) as [|_]; [lia|].
      cbn [bind].
      assert (Hrest : Exists (fun e => ~ in_vocabulary word_to_index e) rest)
        by (inversion Hex; [contradiction | assumption]).
      assert (Hrows' : Forall (fun r => length r = k)
                              (bn ++ [map (fun w => get word_to_index w 0)
                                          negatives])).
      { apply Forall_app. split; [exact Hrows|].
        constructor; [|constructor]. now rewrite length_map. }
      destruct ((((i + 1) mod batch_size) =? 0) || (i =? len - 1)).
      * rewrite (long_tensor_same Hrows'). cbn [bind].
        apply IH; [exact Hsame' | constructor | exact Hrest].
      * apply IH; [exact Hsame' | exact Hrows' | exact Hrest].
    + unfold in_vocabulary in Hout.
      destruct (in_dec string_dec target (keys word_to_index)) as [Ht|Ht];
        [|rewrite (getitem_KeyError _ _ Ht); reflexivity].
      rewrite (getitem_get _ _ Ht). cbn [bind].
      destruct (in_dec string_dec context (keys word_to_index)) as [Hc|Hc];
        [|rewrite (getitem_KeyError _ _ Hc); reflexivity].
      rewrite (getitem_get _ _ Hc). cbn [bind].
      rewrite mapM_getitem_KeyError by tauto. reflexivity.
Qed.

Variable shuffle : list example -> list example.
Hypothesis shuffle_Permutation : forall l, Permutation l (shuffle l).

(** X10.  An empty list gives no batch, whatever the batch size; a batch size
    of 0 raises [ZeroDivisionError] on a non-empty list of known tokens. *)
Theorem get_batches_edges :
  (forall batch_size,
      get_batches shuffle word_to_index [] batch_size = Returns []) /\
  (forall context_tuple_list,
      context_tuple_list <> [] ->
      Forall (in_vocabulary word_to_index) context_tuple_list ->
      get_batches shuffle word_to_index context_tuple_list 0
      = Raises ZeroDivisionError).
Proof.
  split.
  - intros batch_size. unfold get_batches.
    pose proof (shuffle_Permutation []) as Hp. apply Permutation_nil in Hp.
    rewrite Hp. reflexivity.
  - intros l Hne Hvoc. unfold get_batches.
    pose proof (shuffle_Permutation l) as Hp.
    destruct (shuffle l) as [|[[target context] negatives] rest] eqn:E.
    + apply Permutation_sym, Permutation_nil in Hp. contradiction.
    + assert (Hin : in_vocabulary word_to_index (target, context, negatives)).
      { rewrite Forall_forall in Hvoc. apply Hvoc.
        apply Permutation_in with ((target, context, negatives) :: rest);
          [apply Permutation_sym; exact Hp | simpl; auto]. }
      destruct (index_triple_in_vocabulary Hin) as (Ht & Hc & Hn & _).
      cbn [batch_loop]. rewrite Ht. cbn [bind]. rewrite Hc. cbn [bind].
      rewrite Hn. reflexivity.
Qed.

(** X11.  With a positive batch size, a list holding a token that is not in the
    vocabulary raises [KeyError] (the negative lists having one length, so
    that the batches before the token are made). *)
Theorem get_batches_unknown_token (context_tuple_list : list example)
    (batch_size : nat) :
  0 < batch_size ->
  same_negatives context_tuple_list ->
  Exists (fun e => ~ in_vocabulary word_to_index e) context_tuple_list ->
  get_batches shuffle word_to_index context_tuple_list batch_size
  = Raises KeyError.
Proof.
  intros Hbs Hsame Hex. unfold get_batches.
  destruct (same_negatives_Permutation
              (shuffle_Permutation context_tuple_list) Hsame) as [k Hk].
  apply (@batch_loop_KeyError batch_size _ k);
    [exact Hbs | exact Hk | constructor |].
  apply Exists_exists in Hex. destruct Hex as (e & He & Hout).
  apply Exists_exists. exists e. split; [|exact Hout].
  apply Permutation_in with context_tuple_list;
    [apply shuffle_Permutation | exact He].
Qed.

Lemma get_batches_returns (context_tuple_list : list example) (batch_size : nat) :
  0 < batch_size ->
  same_negatives context_tuple_list ->
  Forall (in_vocabulary word_to_index) context_tuple_list ->
  exists batches,
    get_batches shuffle word_to_index context_tuple_list batch_size
    = Returns batches /\
    length batches = (length context_tuple_list + batch_size - 1) / batch_size /\
    length (concat (map batch_triples batches)) = length context_tuple_list.
Proof.
  intros Hbs Hsame Hvoc.
  pose proof (shuffle_Permutation context_tuple_list) as Hperm.
  destruct (same_negatives_Permutation Hperm Hsame) as [k Hk].
  assert (Hvoc' : Forall (in_vocabulary word_to_index) (shuffle context_tuple_list)).
  { apply Forall_forall. intros e He. rewrite Forall_forall in Hvoc.
    apply Hvoc. apply Permutation_in with (shuffle context_tuple_list);
      [apply Permutation_sym; exact Hperm | exact He]. }
  assert (Hmod : shuffle context_tuple_list <> [] -> 0 = 0 mod batch_size)
    by (intros _; symmetry; apply Nat.Div0.mod_0_l).
  destruct (@batch_loop_spec word_to_index batch_size
              (length (shuffle context_tuple_list)) Hbs k
              (shuffle context_tuple_list) 0 [] [] [] [] 0
              (Nat.add_0_r _) Hvoc' Hk (Forall_nil _)
              eq_refl eq_refl eq_refl Hmod (fun _ => eq_refl))
    as (new & Hrun & Hcont & Hnil & Hnew).
  exists new. split; [exact Hrun|].
  assert (Htotal : length (concat (map batch_triples new))
                   = length context_tuple_list).
  { rewrite (Permutation_length Hperm).
    rewrite <- (length_map Some), <- Hcont. simpl. apply length_map. }
  split; [|exact Htotal].
  rewrite <- Htotal.
  destruct (shuffle context_tuple_list) as [|e rest] eqn:E.
  - rewrite (Hnil eq_refl). simpl. symmetry. apply Nat.div_small. lia.
  - destruct Hnew as (front & last & n & -> & Hfront & Hlast & Hn);
      [discriminate|].
    rewrite map_app, concat_app, !length_app. simpl. rewrite app_nil_r.
    assert (Hlast_len : length (batch_triples last) = n).
    { destruct last as [[ts cs] ns]. destruct Hlast as (H1 & H2 & H3).
      unfold batch_triples. rewrite !length_combine. lia. }
    assert (Hfront_len : length (concat (map batch_triples front))
                         = batch_size * length front).
    { clear -Hfront. induction Hfront as [|b front Hb _ IH]; simpl; [lia|].
      rewrite length_app, IH. destruct b as [[ts cs] ns].
      destruct Hb as (H1 & H2 & H3).
      unfold batch_triples. rewrite !length_combine. lia. }
    rewrite Hfront_len, Hlast_len.
    apply (Nat.div_unique _ batch_size (length front + 1) (n - 1)); lia.
Qed.

(** X12.  On examples of known tokens with negative lists of one length, the
    number of batches is the number of examples divided by the batch size,
    rounded up, and the batches hold as many triples as there are examples. *)
Theorem get_batches_count (context_tuple_list : list example) (batch_size : nat) :
  0 < batch_size ->
  same_negatives context_tuple_list ->
  Forall (in_vocabulary word_to_index) context_tuple_list ->
  exists batches,
    get_batches shuffle word_to_index context_tuple_list batch_size
    = Returns batches /\
    length batches = (length context_tuple_list + batch_size - 1) / batch_size /\
    length (concat (map batch_triples batches)) = length context_tuple_list.
Proof. apply get_batches_returns. Qed.

End BatchEdges.

Lemma get_batches_edges_witness :
  (forall l : list example, Permutation l (rev l)) /\
  get_batches (@rev example) [("a", 0)]%string [] 0 = Returns [] /\
  get_batches (@rev example) [("a", 0)]%string [("a", "a", ["a"])]%string 0
  = Raises ZeroDivisionError.
Proof.
  split; [exact (@Permutation_rev example)|].
  destruct (@get_batches_edges [("a", 0)]%string (@rev example)
              (@Permutation_rev example)) as [Hnil Hzero].
  split; [apply Hnil|]. apply Hzero; [discriminate|].
  repeat (apply Forall_cons || apply Forall_nil);
    cbv [in_vocabulary keys map fst]; repeat split;
    repeat (apply Forall_cons || apply Forall_nil); simpl; auto.
Defined.

Lemma get_batches_unknown_token_witness :
  (forall l : list example, Permutation l (rev l)) /\
  get_batches (@rev example) [("a", 0)]%string
    [("a", "a", ["a"]); ("a", "a", ["b"])]%string 2
  = Raises KeyError.
Proof.
  split; [exact (@Permutation_rev example)|].
  apply (@get_batches_unknown_token [("a", 0)]%string (@rev example)
           (@Permutation_rev example)); [lia | |].
  { exists 1. repeat constructor. }
  apply Exists_cons_tl, Exists_cons_hd.
  cbv [in_vocabulary keys map fst]. intros (_ & _ & Hn).
  apply Forall_inv in Hn. simpl in Hn. intuition discriminate.
Defined.

Lemma get_batches_count_witness :
  (forall l : list example, Permutation l (rev l)) /\
  exists batches,
    get_batches (@rev example) [("a", 0); ("b", 1)]%string
      [("a", "b", ["a"]); ("b", "a", ["b"]); ("a", "b", ["b"])]%string 2
    = Returns batches /\
    length batches = 2.
Proof.
  split; [exact (@Permutation_rev example)|].
  destruct (@get_batches_count [("a", 0); ("b", 1)]%string (@rev example)
              (@Permutation_rev example)
              [("a", "b", ["a"]); ("b", "a", ["b"]); ("a", "b", ["b"])]%string 2)
    as (batches & Hrun & Hlen & _).
  - lia.
  - exists 1. repeat constructor.
  - repeat (apply Forall_cons || apply Forall_nil);
      cbv [in_vocabulary keys map fst]; repeat split;
      repeat (apply Forall_cons || apply Forall_nil); simpl; auto.
  - exists batches. split; [exact Hrun | exact Hlen].
Defined.

(** ** Early stopping: edge cases *)

(** X13.  With a patience of 0 or less no loss is retained, and the stop
    decision raises [ValueError] whatever was recorded. *)
Theorem stop_training_no_patience (p : Z) (g : R) (losses : list R) :
  (p <= 0)%Z ->
  loss_list (record_losses p g losses) = [] /\
  stop_training (record_losses p g losses) = Raises ValueError.
Proof.
  intros Hp.
  assert (Hw : loss_list (record_losses p g losses) = []).
  { rewrite record_losses_window.
    replace (Z.to_nat p) with 0 by lia. rewrite Nat.sub_0_r. apply skipn_all. }
  split; [exact Hw|]. unfold stop_training. rewrite Hw. reflexivity.
Qed.

Lemma stop_training_no_patience_witness :
  (0 <= 0)%Z /\
  stop_training (record_losses 0 1 [3; 2; 1]%R) = Raises ValueError.
Proof.
  split; [lia|].
  apply (@stop_training_no_patience 0%Z 1%R [3; 2; 1]%R). lia.
Defined.

(** X14.  With a patience of 1 the window holds the last loss only and the stop
    decision is "do not stop" after every recorded loss. *)
Theorem stop_training_patience_one (g : R) (losses : list R) :
  losses <> [] ->
  loss_list (record_losses 1 g losses) = [last losses 0%R] /\
  stop_training (record_losses 1 g losses) = Returns false.
Proof.
  intros Hne.
  assert (Hw : loss_list (record_losses 1 g losses) = [last losses 0%R]).
  { rewrite record_losses_window.
    destruct (exists_last Hne) as (l & x & ->).
    rewrite last_last, length_app. simpl.
    replace (length l + 1 - Pos.to_nat 1) with (length l) by lia.
    rewrite skipn_app, skipn_all, Nat.sub_diag. reflexivity. }
  split; [exact Hw|].
  apply (proj1 (stop_training_window (record_losses 1 g losses))).
  rewrite Hw. reflexivity.
Qed.

Lemma stop_training_patience_one_witness :
  [5; 5; 5]%R <> [] /\
  stop_training (record_losses 1 1 [5; 5; 5]%R) = Returns false.
Proof.
  assert (Hne : [5; 5; 5]%R <> []) by discriminate.
  split; [exact Hne|].
  exact (proj2 (@stop_training_patience_one 1%R [5; 5; 5]%R Hne)).
Defined.



(** X16.  On a window of two or more positive losses the decision is "stop"
    exactly when the minimum exceeds the maximum times one minus the
    threshold; on a window of two or more negative losses with a positive
    threshold it is always "stop". *)
Theorem stop_training_signs (es : EarlyStopping) :
  2 <= length (loss_list es) ->
  ((forall x, In x (loss_list es) -> (0 < x)%R) ->
   exists hi lo stop,
     In hi (loss_list es) /\ (forall x, In x (loss_list es) -> (x <= hi)%R) /\
     In lo (loss_list es) /\ (forall x, In x (loss_list es) -> (lo <= x)%R) /\
     stop_training es = Returns stop /\
     (stop = true <-> ((1 - min_percent_gain es) * hi < lo)%R)) /\
  ((forall x, In x (loss_list es) -> (x < 0)%R) ->
   (0 < min_percent_gain es)%R ->
   stop_training es = Returns true).
Proof.
  intros Hlen.
  destruct (proj2 (stop_training_window es) Hlen)
    as (hi & lo & Hhi & Hub & Hlo & Hlb & Hrun).
  split.
  - intros Hpos. pose proof (Hpos hi Hhi) as Hhi0.
    exists hi, lo, (Rltb ((hi - lo) / hi) (min_percent_gain es)).
    repeat split; try assumption.
    + apply Hrun. lra.
    + intros H. apply Rltb_true in H.
      apply (Rmult_lt_compat_r hi) in H; [|exact Hhi0].
      replace ((hi - lo) / hi * hi)%R with (hi - lo)%R in H by (field; lra). lra.
    + intros H. apply Rltb_true.
      apply (Rmult_lt_reg_r hi); [exact Hhi0|].
      replace ((hi - lo) / hi * hi)%R with (hi - lo)%R by (field; lra). lra.
  - intros Hneg Hthr. pose proof (Hneg hi Hhi) as Hhi0.
    rewrite Hrun by lra. f_equal. apply Rltb_true.
    apply Rle_lt_trans with 0%R; [|exact Hthr].
    pose proof (Hub lo Hlo) as Hle.
    assert (Hinv : (/ hi < 0)%R) by (apply Rinv_lt_0_compat; exact Hhi0).
    unfold Rdiv. nra.
Qed.

Lemma stop_training_signs_witness :
  stop_training (record_losses 5 1 [-3; -2]%R) = Returns true.
Proof.
  destruct (@stop_training_signs (record_losses 5 1 [-3; -2]%R)) as [_ Hneg].
  - simpl. lia.
  - apply Hneg.
    + simpl. intros x [<-|[<-|[]]]; lra.
    + simpl. lra.
Defined.

(** ** The loss on a whole batch *)

Lemma mapM_getindex {A : Type} (l : list A) (d : A) (idx : list nat) :
  Forall (fun i => i < length l) idx ->
  mapM (getindex l) idx = Returns (map (fun i => nth i l d) idx).
Proof.
  induction 1 as [|i idx Hi _ IH]; [reflexivity|].
  cbn [mapM map]. rewrite (@getindex_nth _ l i d Hi). cbn [bind].
  rewrite IH. reflexivity.
Qed.

Lemma embedding_rows (weight : matrix) (idx : list nat) :
  Forall (fun i => i < length weight) idx ->
  embedding weight idx = Returns (map (row weight) idx).
Proof. intros H. unfold embedding. apply (@mapM_getindex _ weight [] idx H). Qed.

Lemma embedding2_rows (weight : matrix) (idx : list (list nat)) :
  Forall (Forall (fun i => i < length weight)) idx ->
  embedding2 weight idx = Returns (map (map (row weight)) idx).
Proof.
  unfold embedding2. induction 1 as [|ns idx Hns _ IH]; [reflexivity|].
  cbn [mapM map]. rewrite (@embedding_rows _ _ Hns). cbn [bind].
  rewrite IH. reflexivity.
Qed.

Lemma transpose_column (t : list R) :
  t <> [] -> transpose (map (fun x => [x]) t) = [t].
Proof.
  induction t as [|x t IH]; intros Hne; [contradiction|].
  destruct t as [|y t]; [reflexivity|].
  change (transpose (map (fun x => [x]) (x :: y :: t)))
    with (map2 cons [x] (transpose (map (fun x => [x]) (y :: t)))).
  rewrite IH by discriminate. reflexivity.
Qed.

Lemma fsum_app (l l' : list R) : fsum (l ++ l') = (fsum l + fsum l')%R.
Proof.
  induction l as [|x l IH]; simpl.
  - unfold fsum at 2. simpl. lra.
  - rewrite !fsum_cons, IH. lra.
Qed.

Lemma fsum_nil : fsum [] = 0%R.
Proof. reflexivity. Qed.

Lemma negative_scores_summed (negs : matrix) (t : list R) :
  negs <> [] -> t <> [] ->
  map fsum (transpose (matmul negs (map (fun x => [x]) t)))
  = [fsum (map (fun eN => dot eN t) negs)].
Proof.
  intros Hn Ht. unfold matmul. rewrite (@transpose_column _ Ht).
  cbn [map].
  rewrite <- (map_map (fun eN => dot eN t) (fun x => [x])).
  rewrite transpose_column; [reflexivity|].
  destruct negs; [contradiction | discriminate].
Qed.

Lemma forward_terms :
  forall (et ec : matrix) (en : list matrix),
    length ec = length et -> length en = length et ->
    Forall (fun r => r <> []) et -> Forall (fun ns => ns <> []) en ->
    (- (fsum (map logsigmoid (sum_dim1 (mul et ec)))
        + sum_all (map (map (fun x => logsigmoid (- x)))
                       (sum_dim1_3d (bmm en (unsqueeze2 et))))))%R
    = fsum (map (fun e : list R * list R * matrix =>
                   let '(t, c, ns) := e in example_loss t c ns)
                (combine (combine et ec) en)).
Proof.
  induction et as [|t et IH]; intros ec en Hc Hn Ht Hns.
  - destruct ec; [|discriminate]. destruct en; [|discriminate].
    unfold sum_all. simpl. rewrite !fsum_nil. lra.
  - destruct ec as [|c ec]; [discriminate|]. destruct en as [|ns en]; [discriminate|].
    simpl in Hc, Hn.
    specialize (IH ec en ltac:(lia) ltac:(lia)
                   (Forall_inv_tail Ht) (Forall_inv_tail Hns)).
    cbn [combine map]. rewrite fsum_cons, <- IH.
    unfold mul, sum_dim1, bmm, unsqueeze2, sum_dim1_3d, sum_all.
    cbn [map2 map concat].
    rewrite (@negative_scores_summed _ _ (Forall_inv Hns) (Forall_inv Ht)).
    cbn [map]. rewrite fsum_cons, fsum_app, fsum_cons, fsum_nil.
    unfold example_loss, dot. lra.
Qed.

Lemma combine_map {A B A' B' : Type} (f : A -> A') (g : B -> B')
    (l : list A) (l' : list B) :
  combine (map f l) (map g l') = map (fun p => (f (fst p), g (snd p))) (combine l l').
Proof.
  revert l'. induction l as [|a l IH]; intros [|b l']; simpl; try reflexivity.
  now rewrite IH.
Qed.

(** What [forward] returns on a well-shaped batch. *)
Lemma forward_run (self : Word2Vec) (target_word context_word : list nat)
    (negative_example : list (list nat)) :
  well_shaped self target_word context_word negative_example ->
  forward self target_word context_word negative_example
  = Returns (fsum (batch_losses self target_word context_word negative_example)).
Proof.
  intros (Hc & Hn & Ht & Hcx & Hnx & Hne & Hd).
  unfold forward. rewrite (@embedding_rows _ _ Ht). cbn [bind].
  rewrite (@embedding_rows _ _ Hcx). cbn [bind].
  rewrite (@embedding2_rows _ _ Hnx). cbn [bind]. f_equal.
  rewrite forward_terms.
  - unfold batch_losses. rewrite !combine_map, !map_map.
    apply f_equal. apply map_ext. intros [[t c] ns]. reflexivity.
  - now rewrite !length_map.
  - now rewrite !length_map.
  - apply Forall_map. revert Ht. apply Forall_impl. intros i Hi.
    destruct Hd as (D & HD & Hrows & _). rewrite Forall_forall in Hrows.
    assert (Hlen : length (row (embeddings_target self) i) = D)
      by (apply Hrows; apply nth_In; exact Hi).
    intros Hnil. rewrite Hnil in Hlen. simpl in Hlen. lia.
  - apply Forall_map. revert Hne. apply Forall_impl. intros ns Hns.
    destruct ns; [contradiction | discriminate].
Qed.

Lemma logsigmoid_neg (x : R) : (logsigmoid x < 0)%R.
Proof.
  unfold logsigmoid, sigmoid. rewrite <- ln_1.
  pose proof (exp_pos (- x)) as He.
  apply ln_increasing.
  - apply Rdiv_lt_0_compat; lra.
  - apply (Rmult_lt_reg_r (1 + exp (- x))); [lra|].
    replace (1 / (1 + exp (- x)) * (1 + exp (- x)))%R with 1%R by (field; lra).
    lra.
Qed.

Lemma example_loss_pos (eT eC : list R) (eNs : list (list R)) :
  (0 < example_loss eT eC eNs)%R.
Proof.
  unfold example_loss.
  pose proof (logsigmoid_neg (dot eT eC)).
  pose proof (logsigmoid_neg (- fsum (map (fun eN => dot eN eT) eNs))).
  lra.
Qed.

Lemma fsum_nonneg (l : list R) :
  Forall (fun x => 0 < x)%R l -> (0 <= fsum l)%R.
Proof.
  induction 1 as [|x l Hx _ IH]; [rewrite fsum_nil; lra|].
  rewrite fsum_cons. lra.
Qed.

Lemma batch_losses_pos (self : Word2Vec) (tw cw : list nat) (ne : list (list nat)) :
  Forall (fun x => 0 < x)%R (batch_losses self tw cw ne).
Proof.
  unfold batch_losses. apply Forall_map. apply Forall_forall.
  intros [[t c] ns] _. apply example_loss_pos.
Qed.

Lemma combine_app_same {A B : Type} (l1 l2 : list A) (l1' l2' : list B) :
  length l1 = length l1' ->
  combine (l1 ++ l2) (l1' ++ l2') = combine l1 l1' ++ combine l2 l2'.
Proof.
  revert l1'. induction l1 as [|a l1 IH]; intros [|b l1'] Hlen;
    simpl in *; try discriminate; [reflexivity|].
  f_equal. apply IH. lia.
Qed.

Lemma batch_losses_app (self : Word2Vec) (tw1 tw2 cw1 cw2 : list nat)
    (ne1 ne2 : list (list nat)) :
  length cw1 = length tw1 -> length ne1 = length tw1 ->
  batch_losses self (tw1 ++ tw2) (cw1 ++ cw2) (ne1 ++ ne2)
  = batch_losses self tw1 cw1 ne1 ++ batch_losses self tw2 cw2 ne2.
Proof.
  intros Hc Hn. unfold batch_losses.
  rewrite (@combine_app_same _ _ tw1 tw2 cw1 cw2) by lia.
  rewrite combine_app_same by (rewrite length_combine; lia).
  apply map_app.
Qed.

Lemma well_shaped_app (self : Word2Vec) (tw1 tw2 cw1 cw2 : list nat)
    (ne1 ne2 : list (list nat)) :
  well_shaped self tw1 cw1 ne1 -> well_shaped self tw2 cw2 ne2 ->
  well_shaped self (tw1 ++ tw2) (cw1 ++ cw2) (ne1 ++ ne2).
Proof.
  intros (Hc1 & Hn1 & Ht1 & Hcx1 & Hnx1 & Hne1 & Hd)
         (Hc2 & Hn2 & Ht2 & Hcx2 & Hnx2 & Hne2 & _).
  unfold well_shaped. rewrite !length_app.
  repeat split; try lia; try (apply Forall_app; split; assumption).
  exact Hd.
Qed.

(** X17.  On a well-shaped batch [forward] returns the sum, over the examples,
    of [-log(sigma(t . c)) - log(sigma(-(n_1 . t + ... + n_k . t)))], with
    [t], [c] and [n_j] the embeddings of the target, the context and the
    negatives of the example. *)
Theorem forward_value (self : Word2Vec) (target_word context_word : list nat)
    (negative_example : list (list nat)) :
  well_shaped self target_word context_word negative_example ->
  forward self target_word context_word negative_example
  = Returns (fsum (batch_losses self target_word context_word negative_example)).
Proof. apply forward_run. Qed.

(** X18.  The loss is positive on a non-empty well-shaped batch, zero on the
    empty one, and the loss of two batches put end to end is the sum of
    their losses: it is a sum over the batch, not a mean. *)
Theorem forward_adds_up (self : Word2Vec) (tw1 tw2 cw1 cw2 : list nat)
    (ne1 ne2 : list (list nat)) :
  well_shaped self tw1 cw1 ne1 ->
  well_shaped self tw2 cw2 ne2 ->
  exists l1 l2,
    forward self tw1 cw1 ne1 = Returns l1 /\
    forward self tw2 cw2 ne2 = Returns l2 /\
    forward self (tw1 ++ tw2) (cw1 ++ cw2) (ne1 ++ ne2) = Returns (l1 + l2)%R /\
    (0 <= l1)%R /\ (tw1 <> [] -> 0 < l1)%R /\ (tw1 = [] -> l1 = 0%R).
Proof.
  intros H1 H2.
  exists (fsum (batch_losses self tw1 cw1 ne1)),
         (fsum (batch_losses self tw2 cw2 ne2)).
  split; [apply forward_run; exact H1|]. split; [apply forward_run; exact H2|].
  split; [|split; [|split]].
  - rewrite (forward_run (well_shaped_app H1 H2)).
    destruct H1 as (Hc & Hn & _).
    rewrite batch_losses_app by assumption. now rewrite fsum_app.
  - apply fsum_nonneg, batch_losses_pos.
  - intros Hne. destruct H1 as (Hc & Hn & _).
    destruct tw1 as [|t tw1]; [contradiction|].
    destruct cw1 as [|c cw1]; [discriminate|].
    destruct ne1 as [|ns ne1]; [discriminate|].
    change (batch_losses self (t :: tw1) (c :: cw1) (ns :: ne1))
      with (example_loss (row (embeddings_target self) t)
                         (row (embeddings_context self) c)
                         (map (row (embeddings_context self)) ns)
            :: batch_losses self tw1 cw1 ne1).
    rewrite fsum_cons.
    pose proof (example_loss_pos (row (embeddings_target self) t)
                  (row (embeddings_context self) c)
                  (map (row (embeddings_context self)) ns)).
    pose proof (fsum_nonneg (batch_losses_pos self tw1 cw1 ne1)). lra.
  - intros ->. reflexivity.
Qed.

Ltac prove_well_shaped :=
  unfold well_shaped, same_dimension; simpl;
  repeat match goal with
         | |- exists D : nat, _ => exists 2
         | |- _ /\ _ => split
         | |- Forall _ _ => constructor
         | |- _ <> _ => discriminate
         | |- _ = _ => reflexivity
         | |- _ < _ => lia
         end.

Lemma small_net_shape_1 : well_shaped small_net [0; 2] [1; 0] [[2; 1]; [0; 0]].
Proof. prove_well_shaped. Qed.

Lemma small_net_shape_2 : well_shaped small_net [1] [2] [[0; 1]].
Proof. prove_well_shaped. Qed.

Lemma forward_value_witness :
  well_shaped small_net [0; 2] [1; 0] [[2; 1]; [0; 0]] /\
  forward small_net [0; 2] [1; 0] [[2; 1]; [0; 0]]
  = Returns (fsum (batch_losses small_net [0; 2] [1; 0] [[2; 1]; [0; 0]])).
Proof.
  split; [exact small_net_shape_1|].
  exact (forward_value small_net_shape_1).
Defined.

Lemma forward_adds_up_witness :
  well_shaped small_net [0; 2] [1; 0] [[2; 1]; [0; 0]] /\
  well_shaped small_net [1] [2] [[0; 1]] /\
  exists l1 l2,
    forward small_net [0; 2] [1; 0] [[2; 1]; [0; 0]] = Returns l1 /\
    forward small_net [1] [2] [[0; 1]] = Returns l2 /\
    forward small_net [0; 2; 1] [1; 0; 2] [[2; 1]; [0; 0]; [0; 1]]
    = Returns (l1 + l2)%R /\
    (0 < l1)%R.
Proof.
  split; [exact small_net_shape_1|]. split; [exact small_net_shape_2|].
  destruct (forward_adds_up small_net_shape_1 small_net_shape_2)
    as (l1 & l2 & H1 & H2 & H12 & _ & Hpos & _).
  exists l1, l2. repeat split; try assumption.
  apply Hpos. discriminate.
Defined.

(** ** Indices outside the embedding tables *)

Lemma mapM_getindex_IndexError {A : Type} (l : list A) (idx : list nat) :
  Exists (fun i => length l <= i) idx ->
  mapM (getindex l) idx = Raises IndexError.
Proof.
  induction idx as [|i idx IH]; intros Hex; [inversion Hex|].
  cbn [mapM]. unfold getindex at 1.
  destruct (nth_error l i) as [a|] eqn:E; cbn [bind].
  - rewrite IH; [reflexivity|].
    inversion Hex as [? ? Hi|]; subst; [|assumption].
    apply nth_error_None in Hi. congruence.
  - reflexivity.
Qed.

Lemma index_range_dec (n : nat) (idx : list nat) :
  {Forall (fun i => i < n) idx} + {Exists (fun i => n <= i) idx}.
Proof.
  induction idx as [|i idx [IH|IH]].
  - left. constructor.
  - destruct (lt_dec i n) as [Hi|Hi].
    + left. constructor; assumption.
    + right. apply Exists_cons_hd. lia.
  - right. apply Exists_cons_tl. exact IH.
Qed.

(** X19.  A target or context index that is not a row of its embedding table
    makes [forward] raise [IndexError]. *)
Theorem forward_index_out_of_range (self : Word2Vec)
    (target_word context_word : list nat) (negative_example : list (list nat)) :
  Exists (fun i => length (embeddings_target self) <= i) target_word \/
  Exists (fun i => length (embeddings_context self) <= i) context_word ->
  forward self target_word context_word negative_example = Raises IndexError.
Proof.
  intros Hbad. unfold forward.
  destruct (index_range_dec (length (embeddings_target self)) target_word)
    as [Ht|Ht].
  2:{ unfold embedding. rewrite (mapM_getindex_IndexError _ Ht). reflexivity. }
  rewrite (@embedding_rows _ _ Ht). cbn [bind].
  destruct Hbad as [Hbad|Hbad].
  - exfalso. apply Exists_exists in Hbad. destruct Hbad as (i & Hi & Hge).
    rewrite Forall_forall in Ht. specialize (Ht i Hi). lia.
  - unfold embedding. rewrite (mapM_getindex_IndexError _ Hbad). reflexivity.
Qed.

Lemma forward_index_out_of_range_witness :
  forward small_net [0; 1] [1; 3] [[2; 1]; [0; 0]] = Raises IndexError.
Proof.
  apply forward_index_out_of_range. right.
  apply Exists_cons_tl, Exists_cons_hd. simpl. lia.
Defined.

(** ** What the sampler yields *)

Lemma expanded_length (words : list string) (ics : list (nat * nat)) :
  length (flat_map (fun ic => repeat (nth (fst ic) words ""%string) (snd ic)) ics)
  = isum (map snd ics).
Proof.
  induction ics as [|[index count] ics IH]; [reflexivity|].
  simpl. rewrite length_app, repeat_length, IH, isum_cons. reflexivity.
Qed.

Lemma expanded_members (words : list string) (ics : list (nat * nat)) :
  Forall (fun ic => fst ic < length words) ics ->
  Forall (fun w => In w words)
         (flat_map (fun ic => repeat (nth (fst ic) words ""%string) (snd ic)) ics).
Proof.
  intros Hics. apply Forall_forall. intros w Hw.
  apply in_flat_map in Hw. destruct Hw as ([index count] & Hic & Hw).
  apply repeat_spec in Hw. subst w. apply nth_In.
  rewrite Forall_forall in Hics. exact (Hics _ Hic).
Qed.

Lemma pull_Forall {G N : Type} (next : G -> outcome (N * G))
    (Inv : nat -> G -> Prop) (P : N -> Prop) :
  (forall k g x g', Inv k g -> next g = Returns (x, g') -> P x /\ Inv (S k) g') ->
  forall (n k : nat) (g g' : G) (xs : list N),
    Inv k g -> pull next n g = Returns (xs, g') -> Forall P xs.
Proof.
  intros Hstep. induction n as [|n IH]; intros k g g' xs Hg Hpull; simpl in Hpull.
  - inversion Hpull; subst. constructor.
  - inv_bind Hpull. destruct a as [x g1]. inv_bind Hpull. destruct a as [xs' g2].
    inversion Hpull; subst.
    destruct (Hstep k g x g1 Hg E) as [Hx Hg1].
    constructor; [exact Hx | exact (IH _ _ _ _ Hg1 E0)].
Qed.

Section SamplerYields.

Variable multinomial : nat -> nat -> list R -> list nat.
Hypothesis multinomial_length :
  forall c k pvals, length (multinomial c k pvals) = length pvals.

Lemma sample_negative_draw_yield (sample_size : nat) (sp : dict R)
    (words : list string) (calls : nat) :
  length (values sp) = length words ->
  exists word_list,
    sample_negative_draw multinomial sample_size sp words calls
    = Returns (word_list, Suspended sample_size sp words (S calls)) /\
    length word_list = isum (multinomial calls sample_size (values sp)) /\
    Forall (fun w => In w words) word_list.
Proof.
  intros Hlen. unfold sample_negative_draw.
  set (counts := multinomial calls sample_size (values sp)).
  assert (Hbound : Forall (fun ic : nat * nat => fst ic < length words)
                          (enumerate counts)).
  { rewrite <- Hlen. unfold counts.
    rewrite <- (multinomial_length calls sample_size (values sp)).
    apply enumerate_index_bound. }
  rewrite (expand_sample_spec words [] Hbound). cbn [bind app].
  eexists. split; [reflexivity|]. split.
  - rewrite expanded_length, map_snd_enumerate. reflexivity.
  - apply expanded_members. exact Hbound.
Qed.

Lemma sample_negative_step_yield (corpus : list (list string)) (sample_size : nat) :
  exists sp,
    sample_negative_prologue corpus = Returns (sp, keys (Counter (chain corpus))) /\
    length (values sp) = length (keys (Counter (chain corpus))) /\
    forall k gen word_list gen',
      generator_after sample_size sp (keys (Counter (chain corpus))) k gen ->
      sample_negative multinomial corpus gen = Returns (word_list, gen') ->
      generator_after sample_size sp (keys (Counter (chain corpus))) (S k) gen' /\
      length word_list = isum (multinomial k sample_size (values sp)) /\
      Forall (fun w => In w (chain corpus)) word_list.
Proof.
  destruct (sample_negative_prologue_spec corpus) as (sp & Hpro & Hkeys & _).
  exists sp. split; [exact Hpro|].
  assert (Hlen : length (values sp) = length (keys (Counter (chain corpus)))).
  { rewrite <- Hkeys. unfold values, keys. now rewrite !length_map. }
  split; [exact Hlen|].
  intros k gen word_list gen' Hgen Hnext.
  assert (Hdraw : sample_negative_draw multinomial sample_size sp
                    (keys (Counter (chain corpus))) k
                  = Returns (word_list, gen')).
  { destruct k as [|k]; simpl in Hgen; subst gen; cbn [sample_negative] in Hnext.
    - rewrite Hpro in Hnext. exact Hnext.
    - exact Hnext. }
  destruct (@sample_negative_draw_yield sample_size sp _ k Hlen)
    as (wl & Hwl & Hsize & Hmem).
  rewrite Hwl in Hdraw. inversion Hdraw; subst.
  split; [reflexivity|]. split; [exact Hsize|].
  revert Hmem. apply Forall_impl. intros w Hw. apply Counter_keys_In. exact Hw.
Qed.

Hypothesis multinomial_sum :
  forall c k pvals, pvals <> [] -> isum (multinomial c k pvals) = k.

(** X7.  On a corpus with at least one token, every pull from the generator
    yields [sample_size] words, all of them words of the corpus. *)
Theorem sample_negative_yields (corpus : list (list string)) (sample_size : nat) :
  chain corpus <> [] ->
  forall n, exists yields gen,
    pull (sample_negative multinomial corpus) n (Created sample_size)
    = Returns (yields, gen) /\
    length yields = n /\
    Forall (fun word_list =>
              length word_list = sample_size /\
              Forall (fun w => In w (chain corpus)) word_list) yields.
Proof.
  intros Hne n.
  destruct (sample_negative_step_yield corpus sample_size)
    as (sp & Hpro & Hlen & Hyield).
  destruct (@sample_negative_step multinomial multinomial_length corpus sample_size)
    as (sp' & Hpro' & Hstep).
  assert (sp' = sp) by congruence. subst sp'.
  set (words := keys (Counter (chain corpus))) in *.
  assert (Hsp : values sp <> []).
  { intros Hnil. rewrite Hnil in Hlen. simpl in Hlen.
    assert (Hex : exists w0, In w0 (chain corpus))
      by (destruct (chain corpus) as [|w0 l];
          [contradiction | exists w0; simpl; auto]).
    destruct Hex as [w0 Hw0]. apply Counter_keys_In in Hw0. fold words in Hw0.
    destruct words; [contradiction | discriminate]. }
  assert (Hrun : forall n k gen,
             generator_after sample_size sp words k gen ->
             exists yields gen',
               pull (sample_negative multinomial corpus) n gen
               = Returns (yields, gen') /\ length yields = n).
  { clear n. induction n as [|n IH]; intros k gen Hgen.
    - exists [], gen. split; reflexivity.
    - destruct (Hstep k gen Hgen) as (wl & gen1 & Hnext & Hgen1).
      destruct (IH (S k) gen1 Hgen1) as (yields & gen2 & Hpull & Hn).
      exists (wl :: yields), gen2. simpl. rewrite Hnext. cbn [bind].
      rewrite Hpull. cbn [bind]. split; [reflexivity | now rewrite Hn]. }
  destruct (Hrun n 0 (Created sample_size) eq_refl) as (yields & gen & Hpull & Hn).
  exists yields, gen. split; [exact Hpull|]. split; [exact Hn|].
  apply (@pull_Forall _ _ (sample_negative multinomial corpus)
           (generator_after sample_size sp words)
           (fun word_list => length word_list = sample_size /\
                             Forall (fun w => In w (chain corpus)) word_list))
    with (n := n) (k := 0) (g := Created sample_size) (g' := gen);
    [|reflexivity | exact Hpull].
  intros k g x g' Hg Hnext.
  destruct (Hyield k g x g' Hg Hnext) as (Hg' & Hsize & Hmem).
  split; [|exact Hg']. split; [|exact Hmem].
  rewrite Hsize. apply multinomial_sum. exact Hsp.
Qed.

End SamplerYields.

Lemma isum_zeros {A : Type} (l : list A) : isum (map (fun _ => 0) l) = 0.
Proof.
  induction l as [|a l IH]; [reflexivity|]. simpl. rewrite isum_cons. lia.
Qed.

Lemma first_bin_sum (c k : nat) (pvals : list R) :
  pvals <> [] -> isum (first_bin c k pvals) = k.
Proof.
  destruct pvals as [|p pvals]; [contradiction|]. intros _.
  simpl. rewrite isum_cons, isum_zeros. lia.
Qed.

Lemma sample_negative_yields_witness :
  (forall c k pvals, length (first_bin c k pvals) = length pvals) /\
  (forall c k pvals, pvals <> [] -> isum (first_bin c k pvals) = k) /\
  exists yields gen,
    pull (sample_negative first_bin [["b"; "c"; "b"]%string]) 3 (Created 4)
    = Returns (yields, gen) /\
    Forall (fun word_list => length word_list = 4) yields.
Proof.
  split; [exact first_bin_length|]. split; [exact first_bin_sum|].
  destruct (@sample_negative_yields first_bin first_bin_length first_bin_sum
              [["b"; "c"; "b"]%string] 4) with (n := 3)
    as (yields & gen & Hpull & _ & Hall).
  { discriminate. }
  exists yields, gen. split; [exact Hpull|].
  revert Hall. apply Forall_impl. intros wl [H _]. exact H.
Defined.

(** ** The sampling probabilities *)

Lemma fsum_member_le (l : list R) (x : R) :
  Forall (fun y => 0 < y)%R l -> In x l -> (x <= fsum l)%R.
Proof.
  induction 1 as [|y l Hy Hl IH]; intros Hin; [contradiction|].
  rewrite fsum_cons. pose proof (fsum_nonneg Hl) as Hnn.
  destruct Hin as [->|Hin]; [lra|]. specialize (IH Hin). lra.
Qed.

Lemma pow075_increasing (c c' : nat) :
  0 < c -> c < c' -> (pow075 c < pow075 c')%R.
Proof.
  intros Hc Hlt. unfold pow075. apply Rlt_Rpower_l; [lra|].
  split; [apply lt_0_INR; exact Hc | apply lt_INR; exact Hlt].
Qed.

Lemma pow075_flattens (c c' : nat) :
  0 < c -> c < c' -> (pow075 c' * INR c < pow075 c * INR c')%R.
Proof.
  intros Hc Hlt. unfold pow075.
  assert (Hc0 : (0 < INR c)%R) by (apply lt_0_INR; exact Hc).
  assert (Hc'0 : (0 < INR c')%R) by (apply lt_0_INR; lia).
  assert (Hsplit : forall x, (0 < x)%R -> (x = Rpower x 0.75 * Rpower x 0.25)%R).
  { intros x Hx. rewrite <- Rpower_plus.
    replace (0.75 + 0.25)%R with 1%R by lra. symmetry. apply Rpower_1. exact Hx. }
  pose proof (Hsplit (INR c) Hc0) as Ex. pose proof (Hsplit (INR c') Hc'0) as Ex'.
  assert (Hq : (Rpower (INR c) 0.25 < Rpower (INR c') 0.25)%R).
  { apply Rlt_Rpower_l; [lra|]. split; [exact Hc0 | apply lt_INR; exact Hlt]. }
  assert (Hw : (0 < Rpower (INR c) 0.75)%R) by (unfold Rpower; apply exp_pos).
  assert (Hw' : (0 < Rpower (INR c') 0.75)%R) by (unfold Rpower; apply exp_pos).
  remember (Rpower (INR c) 0.75) as W. remember (Rpower (INR c') 0.75) as W'.
  remember (Rpower (INR c) 0.25) as Q. remember (Rpower (INR c') 0.25) as Q'.
  remember (INR c) as x. remember (INR c') as x'.
  rewrite Ex, Ex'.
  assert (Hprod : (0 < W' * W)%R) by (apply Rmult_lt_0_compat; assumption).
  assert (H : (W' * W * Q < W' * W * Q')%R)
    by (apply Rmult_lt_compat_l; assumption).
  lra.
Qed.

(** X8.  The table of the sampler gives every word of the corpus a probability
    in (0, 1]; a word with more occurrences gets a strictly larger
    probability, but less than in proportion to its count. *)
Theorem sampling_table_order (corpus : list (list string)) :
  exists sp words,
    sample_negative_prologue corpus = Returns (sp, words) /\
    forall w, In w (chain corpus) ->
      exists p,
        dict_find sp w = Some p /\ (0 < p <= 1)%R /\
        forall w' p',
          dict_find sp w' = Some p' -> In w' (chain corpus) ->
          count_occ string_dec (chain corpus) w
          < count_occ string_dec (chain corpus) w' ->
          (p < p')%R /\
          (p' * INR (count_occ string_dec (chain corpus) w)
           < p * INR (count_occ string_dec (chain corpus) w'))%R.
Proof.
  destruct (sample_negative_prologue_spec corpus)
    as (sp & Hpro & Hkeys & Hvals & Hfind).
  set (words := keys (Counter (chain corpus))) in *.
  exists sp, words. split; [exact Hpro|].
  intros w Hw.
  set (nf := fsum (map (sampling_weight corpus) words)).
  assert (Hpos : Forall (fun y => 0 < y)%R (map (sampling_weight corpus) words)).
  { apply Forall_forall. intros x Hx. apply in_map_iff in Hx.
    destruct Hx as (w0 & <- & _). apply pow075_pos. }
  assert (Hwin : In w words) by (apply Counter_keys_In; exact Hw).
  assert (Hle : (sampling_weight corpus w <= nf)%R)
    by (apply fsum_member_le; [exact Hpos | apply in_map; exact Hwin]).
  assert (Hwpos : (0 < sampling_weight corpus w)%R) by apply pow075_pos.
  assert (Hnf : (0 < nf)%R) by lra.
  exists (sampling_probability corpus words w).
  split; [apply Hfind; exact Hw|]. split.
  - unfold sampling_probability. fold nf. split.
    + apply Rdiv_lt_0_compat; assumption.
    + apply (Rmult_le_reg_r nf); [exact Hnf|].
      replace (sampling_weight corpus w / nf * nf)%R
        with (sampling_weight corpus w) by (field; lra). lra.
  - intros w' p' Hp' Hw' Hlt.
    rewrite (Hfind w' Hw') in Hp'. inversion Hp'; subst p'.
    unfold sampling_probability. fold nf.
    assert (Hc : 0 < count_occ string_dec (chain corpus) w)
      by (apply count_occ_In; exact Hw).
    pose proof (pow075_increasing Hc Hlt) as Hinc.
    pose proof (pow075_flattens Hc Hlt) as Hflat.
    unfold sampling_weight.
    set (W := pow075 (count_occ string_dec (chain corpus) w)) in *.
    set (W' := pow075 (count_occ string_dec (chain corpus) w')) in *.
    assert (Hinv : (0 < / nf)%R) by (apply Rinv_0_lt_compat; exact Hnf).
    unfold Rdiv. split.
    + apply Rmult_lt_compat_r; assumption.
    + replace (W' * / nf * INR (count_occ string_dec (chain corpus) w))%R
        with (W' * INR (count_occ string_dec (chain corpus) w) * / nf)%R by ring.
      replace (W * / nf * INR (count_occ string_dec (chain corpus) w'))%R
        with (W * INR (count_occ string_dec (chain corpus) w') * / nf)%R by ring.
      apply Rmult_lt_compat_r; assumption.
Qed.

Lemma sampling_table_order_witness :
  exists sp words p p',
    sample_negative_prologue [["b"; "c"; "b"]%string] = Returns (sp, words) /\
    dict_find sp "c"%string = Some p /\ dict_find sp "b"%string = Some p' /\
    (0 < p < p')%R /\ (p' * 1 < p * 2)%R.
Proof.
  destruct (sampling_table_order [["b"; "c"; "b"]%string])
    as (sp & words & Hpro & Hall).
  assert (Hc : In "c"%string (chain [["b"; "c"; "b"]%string])) by (simpl; auto).
  assert (Hb : In "b"%string (chain [["b"; "c"; "b"]%string])) by (simpl; auto).
  destruct (Hall "c"%string Hc) as (p & Hp & Hrange & Hcmp).
  destruct (Hall "b"%string Hb) as (p' & Hp' & _).
  assert (Hlt : count_occ string_dec (chain [["b"; "c"; "b"]%string]) "c"%string
                < count_occ string_dec (chain [["b"; "c"; "b"]%string]) "b"%string)
    by (vm_compute; lia).
  destruct (Hcmp "b"%string p' Hp' Hb Hlt) as [Hless Hflat].
  change (count_occ string_dec (chain [["b"; "c"; "b"]%string]) "c"%string)
    with 1 in Hflat.
  change (count_occ string_dec (chain [["b"; "c"; "b"]%string]) "b"%string)
    with 2 in Hflat.
  simpl INR in Hflat.
  exists sp, words, p, p'. repeat split; try assumption; try lra.
Defined.

(** ** From the corpus to the batches *)

Lemma doc_pairs_tokens (w : nat) (corpus : list (list string)) (p : string * string) :
  In p (flat_map (doc_pairs w) corpus) ->
  In (fst p) (chain corpus) /\ In (snd p) (chain corpus).
Proof.
  induction corpus as [|text corpus IH]; simpl; [tauto|].
  unfold chain in *. simpl. rewrite in_app_iff, !in_app_iff.
  intros [Hin|Hin]; [|specialize (IH Hin); tauto].
  unfold doc_pairs in Hin. apply in_map_iff in Hin.
  destruct Hin as ([i j] & <- & Hij). apply doc_positions_In in Hij.
  cbn [fst snd]. split; left; apply nth_In; lia.
Qed.

Lemma map_fst_combine_seq {A : Type} (v : list A) (k : nat) :
  map fst (combine v (seq k (length v))) = v.
Proof.
  revert k. induction v as [|a v IH]; intros k; [reflexivity|].
  simpl. now rewrite IH.
Qed.

Section Pipeline.

Variable set_order : list string -> list string.
Hypothesis set_order_NoDup : forall l, NoDup (set_order l).
Hypothesis set_order_In : forall l x, In x (set_order l) <-> In x l.

Variable shuffle : list example -> list example.
Hypothesis shuffle_Permutation : forall l, Permutation l (shuffle l).

Variable multinomial : nat -> nat -> list R -> list nat.
Hypothesis multinomial_length :
  forall c k pvals, length (multinomial c k pvals) = length pvals.
Hypothesis multinomial_sum :
  forall c k pvals, pvals <> [] -> isum (multinomial c k pvals) = k.

Lemma word_to_index_keys (corpus : list (list string)) (w : string) :
  In w (keys (word_to_index set_order corpus)) <-> In w (chain corpus).
Proof.
  change (word_to_index set_order corpus)
    with (word_indices_from 0 (vocabulary set_order corpus) []).
  rewrite word_indices_from_exact;
    [|apply set_order_NoDup | intros w0 _ []].
  cbn [app]. unfold keys. rewrite map_fst_combine_seq.
  apply set_order_In.
Qed.

(** X9.  In the notebook, from the raw corpus to the batches: every tuple
    holds 4 negatives, and the vocabulary built from the subsampled corpus
    knows every target, context and negative of the tuples, so that
    [get_batches] returns, without a [KeyError], the rounded-up number of
    batches. *)
Theorem notebook_batches (draws : random_source) (corpus : list (list string))
    (batch_size : nat) :
  0 < batch_size ->
  exists corpus1 tuples gen batches,
    notebook_pairs multinomial draws corpus = Returns (corpus1, tuples, gen) /\
    Forall (fun e : example => length (snd e) = 4) tuples /\
    Forall (in_vocabulary (word_to_index set_order corpus1)) tuples /\
    get_batches shuffle (word_to_index set_order corpus1) tuples batch_size
    = Returns batches /\
    length batches = (length tuples + batch_size - 1) / batch_size.
Proof.
  intros Hbs.
  destruct (subsample_frequent_words_run draws corpus 0) as (corpus1 & Hsub & _).
  destruct (@sample_negative_step_yield multinomial multinomial_length corpus1 4)
    as (sp & Hpro & Hlen & Hyield).
  destruct (@sample_negative_step multinomial multinomial_length corpus1 4)
    as (sp' & Hpro' & Hstep).
  assert (sp' = sp) by congruence. subst sp'.
  set (words := keys (Counter (chain corpus1))) in *.
  destruct (@context_tuple_list_pairs generator (list string)
              (sample_negative multinomial corpus1)
              (generator_after 4 sp words) Hstep 2 corpus1 0 (Created 4) eq_refl)
    as (tuples & gen & Hrun & _ & Hpairs).
  assert (Hnegs : Forall (fun word_list =>
                            Forall (fun w => In w (chain corpus1)) word_list)
                         (map snd tuples)).
  { apply (@pull_Forall _ _ (sample_negative multinomial corpus1)
             (generator_after 4 sp words)
             (fun word_list => Forall (fun w => In w (chain corpus1)) word_list))
      with (n := length tuples) (k := 0) (g := Created 4) (g' := gen);
      [|reflexivity | apply (@context_tuple_list_pull _ _ _ _ _ _ _ _ Hrun)].
    intros k g x g' Hg Hnext.
    destruct (Hyield k g x g' Hg Hnext) as (Hg' & _ & Hmem). tauto. }
  assert (Hfour : Forall (fun e : example => length (snd e) = 4) tuples).
  { destruct tuples as [|e0 tuples0] eqn:Etuples; [constructor|].
    rewrite <- Etuples in *.
    assert (Hsp : values sp <> []).
    { assert (Hp : In (pair_of e0) (flat_map (doc_pairs 2) corpus1)).
      { rewrite <- Hpairs, Etuples. simpl. auto. }
      apply doc_pairs_tokens in Hp. destruct Hp as [Hw0 _].
      apply Counter_keys_In in Hw0. fold words in Hw0.
      intros Hnil. rewrite Hnil in Hlen. simpl in Hlen.
      destruct words; [contradiction | discriminate]. }
    assert (Hall : Forall (fun word_list : list string => length word_list = 4)
                          (map snd tuples)).
    { apply (@pull_Forall _ _ (sample_negative multinomial corpus1)
               (generator_after 4 sp words)
               (fun word_list => length word_list = 4))
        with (n := length tuples) (k := 0) (g := Created 4) (g' := gen);
        [|reflexivity | apply (@context_tuple_list_pull _ _ _ _ _ _ _ _ Hrun)].
      intros k g x g' Hg Hnext.
      destruct (Hyield k g x g' Hg Hnext) as (Hg' & Hsize & _).
      split; [|exact Hg']. rewrite Hsize. apply multinomial_sum. exact Hsp. }
    apply Forall_forall. intros e He. rewrite Forall_forall in Hall.
    apply Hall. apply in_map. exact He. }
  assert (Hvoc : Forall (in_vocabulary (word_to_index set_order corpus1)) tuples).
  { apply Forall_forall. intros [[target context] negatives] Ht.
    assert (Hp : In (target, context) (flat_map (doc_pairs 2) corpus1)).
    { rewrite <- Hpairs. apply (in_map pair_of) in Ht. exact Ht. }
    apply doc_pairs_tokens in Hp. cbn [fst snd] in Hp.
    rewrite Forall_forall in Hnegs.
    specialize (Hnegs negatives (in_map snd _ _ Ht)).
    unfold in_vocabulary. rewrite !word_to_index_keys.
    split; [tauto|]. split; [tauto|].
    revert Hnegs. apply Forall_impl. intros w Hw.
    apply word_to_index_keys. exact Hw. }
  destruct (@get_batches_returns (word_to_index set_order corpus1) shuffle
              shuffle_Permutation tuples batch_size Hbs
              (ex_intro _ 4 Hfour) Hvoc)
    as (batches & Hbatches & Hcount & _).
  exists corpus1, tuples, gen, batches.
  split; [|split; [exact Hfour |
             split; [exact Hvoc | split; [exact Hbatches | exact Hcount]]]].
  unfold notebook_pairs. rewrite Hsub. cbn [bind]. rewrite Hrun. reflexivity.
Qed.

End Pipeline.

Lemma notebook_batches_witness :
  (forall l, NoDup (nodup string_dec l)) /\
  (forall l x, In x (nodup string_dec l) <-> In x l) /\
  (forall l : list example, Permutation l (rev l)) /\
  (forall c k pvals, length (first_bin c k pvals) = length pvals) /\
  (forall c k pvals, pvals <> [] -> isum (first_bin c k pvals) = k) /\
  exists corpus1 tuples gen batches,
    notebook_pairs first_bin half_then_zero [["a"; "b"; "c"]%string]
    = Returns (corpus1, tuples, gen) /\
    get_batches (@rev example) (word_to_index (nodup string_dec) corpus1) tuples 2
    = Returns batches.
Proof.
  split; [exact (NoDup_nodup string_dec)|].
  split; [exact (fun l x => nodup_In string_dec l x)|].
  split; [exact (@Permutation_rev example)|].
  split; [exact first_bin_length|]. split; [exact first_bin_sum|].
  destruct (@notebook_batches (nodup string_dec) (NoDup_nodup string_dec)
              (fun l x => nodup_In string_dec l x)
              (@rev example) (@Permutation_rev example)
              first_bin first_bin_length first_bin_sum
              half_then_zero [["a"; "b"; "c"]%string] 2)
    as (corpus1 & tuples & gen & batches & Hrun & _ & _ & Hbatches & _); [lia|].
  exists corpus1, tuples, gen, batches. split; [exact Hrun | exact Hbatches].
Defined.

(** ** The softmax network *)

Lemma log_softmax_normalised (x : list R) :
  x <> [] ->
  fsum (map exp (CBOW.log_softmax x)) = 1%R /\
  Forall (fun y => y <= 0)%R (CBOW.log_softmax x).
Proof.
  intros Hne. unfold CBOW.log_softmax.
  set (S := fsum (map exp x)).
  assert (Hpos : Forall (fun y => 0 < y)%R (map exp x)).
  { apply Forall_forall. intros y Hy. apply in_map_iff in Hy.
    destruct Hy as (z & <- & _). apply exp_pos. }
  assert (HS : (0 < S)%R).
  { apply fsum_pos; [|exact Hpos]. destruct x; [contradiction | discriminate]. }
  split.
  - rewrite map_map.
    rewrite (map_ext (fun xi => exp (xi - ln S)) (fun xi => exp xi / S)%R).
    + rewrite <- (map_map exp (fun y => y / S)%R), fsum_map_div.
      fold S. field. lra.
    + intros xi. unfold Rminus. rewrite exp_plus, exp_Ropp, exp_ln by exact HS.
      reflexivity.
  - apply Forall_map. apply Forall_forall. intros xi Hxi.
    assert (Hle : (exp xi <= S)%R)
      by (apply fsum_member_le; [exact Hpos | apply in_map; exact Hxi]).
    assert (Hln : (xi <= ln S)%R).
    { rewrite <- (ln_exp xi). destruct Hle as [Hlt|Heq].
      - left. apply ln_increasing; [apply exp_pos | exact Hlt].
      - rewrite Heq. lra. }
    lra.
Qed.

Lemma linear_length (weight : matrix) (bias : list R) (x : list R) :
  length bias = length weight ->
  length (CBOW.linear weight bias x) = length weight.
Proof.
  unfold CBOW.linear. revert bias.
  induction weight as [|r weight IH]; intros [|b bias] Hlen;
    simpl in *; try discriminate; [reflexivity|].
  f_equal. apply IH. lia.
Qed.

(** X20.  On a network whose layers have matching shapes, the first network
    returns, for every index of the input, one row of log-probabilities over
    the vocabulary: as many entries as the linear layer has outputs, none
    above 0, with exponentials that sum to 1. *)
Theorem cbow_forward_log_probabilities (self : CBOW.Word2Vec)
    (context_word : list nat) :
  Forall (fun i => i < length (CBOW.embeddings self)) context_word ->
  CBOW.linear_weight self <> [] ->
  length (CBOW.linear_bias self) = length (CBOW.linear_weight self) ->
  (exists D, Forall (fun r => length r = D) (CBOW.embeddings self) /\
             Forall (fun r => length r = D) (CBOW.linear_weight self)) ->
  exists out,
    CBOW.forward self context_word = Returns out /\
    length out = length context_word /\
    Forall (fun r =>
              length r = length (CBOW.linear_weight self) /\
              fsum (map exp r) = 1%R /\
              Forall (fun y => y <= 0)%R r) out.
Proof.
  intros Hidx Hw Hb _. unfold CBOW.forward.
  rewrite (@embedding_rows _ _ Hidx). cbn [bind].
  eexists. split; [reflexivity|]. split; [now rewrite !length_map|].
  rewrite !map_map. apply Forall_map. apply Forall_forall. intros i _.
  set (h := CBOW.linear (CBOW.linear_weight self) (CBOW.linear_bias self)
              (row (CBOW.embeddings self) i)).
  assert (Hlen : length h = length (CBOW.linear_weight self))
    by (apply linear_length; exact Hb).
  assert (Hne : h <> []).
  { intros Hnil. rewrite Hnil in Hlen. simpl in Hlen.
    destruct (CBOW.linear_weight self); [contradiction | discriminate]. }
  destruct (log_softmax_normalised Hne) as [Hsum Hneg].
  split; [|split; assumption].
  unfold CBOW.log_softmax. now rewrite length_map.
Qed.

Lemma cbow_forward_log_probabilities_witness :
  exists out,
    CBOW.forward small_cbow [1; 0] = Returns out /\
    Forall (fun r => length r = 2 /\ fsum (map exp r) = 1%R) out.
Proof.
  destruct (@cbow_forward_log_probabilities small_cbow [1; 0])
    as (out & Hrun & _ & Hall).
  - repeat constructor.
  - discriminate.
  - reflexivity.
  - exists 1. split; repeat constructor.
  - exists out. split; [exact Hrun|].
    revert Hall. apply Forall_impl. intros r (H1 & H2 & _). split; assumption.
Defined.

(** ** Nearest words *)

Lemma insert_by_distance_perm (x : string * R) (l : list (string * R)) :
  Permutation (insert_by_distance x l) (x :: l).
Proof.
  induction l as [|y l IH]; simpl; [apply Permutation_refl|].
  destruct (Rle_dec (snd x) (snd y)); [apply Permutation_refl|].
  apply Permutation_trans with (y :: x :: l);
    [apply perm_skip; exact IH | apply perm_swap].
Qed.

Lemma sort_by_distance_perm (l : list (string * R)) :
  Permutation (sort_by_distance l) l.
Proof.
  induction l as [|x l IH]; simpl; [apply Permutation_refl|].
  apply Permutation_trans with (x :: sort_by_distance l);
    [apply insert_by_distance_perm | apply perm_skip; exact IH].
Qed.

Lemma insert_by_distance_sorted (x : string * R) (l : list (string * R)) :
  sorted_by_distance l -> sorted_by_distance (insert_by_distance x l).
Proof.
  unfold sorted_by_distance. induction 1 as [|y l Hs IH Hf]; simpl.
  - repeat constructor.
  - destruct (Rle_dec (snd x) (snd y)) as [Hle|Hgt].
    + constructor; [constructor; assumption|].
      constructor; [exact Hle|].
      revert Hf. apply Forall_impl. intros z Hz. lra.
    + constructor; [exact IH|].
      apply Forall_forall. intros z Hz.
      apply (Permutation_in _ (insert_by_distance_perm x l)) in Hz.
      destruct Hz as [<-|Hz]; [lra|].
      rewrite Forall_forall in Hf. apply Hf. exact Hz.
Qed.

Lemma sort_by_distance_sorted (l : list (string * R)) :
  sorted_by_distance (sort_by_distance l).
Proof.
  induction l as [|x l IH]; simpl; [constructor|].
  apply insert_by_distance_sorted. exact IH.
Qed.

Lemma in_firstn_in {A : Type} (n : nat) (l : list A) (a : A) :
  In a (firstn n l) -> In a l.
Proof.
  intros H. rewrite <- (firstn_skipn n l). apply in_or_app. auto.
Qed.

Lemma in_skipn_in {A : Type} (n : nat) (l : list A) (a : A) :
  In a (skipn n l) -> In a l.
Proof.
  intros H. rewrite <- (firstn_skipn n l). apply in_or_app. auto.
Qed.

Lemma sorted_firstn (n : nat) (l : list (string * R)) :
  sorted_by_distance l ->
  sorted_by_distance (firstn n l) /\
  forall a b, In a (firstn n l) -> In b (skipn n l) -> (snd a <= snd b)%R.
Proof.
  unfold sorted_by_distance. intros Hs. revert n.
  induction Hs as [|y l Hs IH Hf]; intros [|n]; simpl.
  - split; [constructor | intros a b []].
  - split; [constructor | intros a b []].
  - split; [constructor | intros a b []].
  - destruct (IH n) as [IH1 IH2]. split.
    + constructor; [exact IH1|].
      apply Forall_forall. intros z Hz. apply in_firstn_in in Hz.
      rewrite Forall_forall in Hf. apply Hf. exact Hz.
    + intros a b [<-|Ha] Hb.
      * rewrite Forall_forall in Hf. apply Hf. apply (in_skipn_in n). exact Hb.
      * apply IH2; assumption.
Qed.

Section DistanceLoop.

Variable emb : matrix.
Variable index_to_word : list (nat * string).
Variable word_of : nat -> string.
Variable i : nat.

Lemma distance_loop_spec :
  forall (js : list nat) (word_distance : list (string * R)),
    Forall (fun j => j < length emb /\ find_index index_to_word j = Some (word_of j)) js ->
    distance_loop emb index_to_word i [row emb i] js word_distance
    = Returns (word_distance
               ++ map (fun j => (word_of j, pairwise_distance (row emb i) (row emb j)))
                      (filter (fun j => negb (j =? i)) js)).
Proof.
  induction js as [|j js IH]; intros word_distance Hjs; simpl.
  - now rewrite app_nil_r.
  - destruct (Forall_inv Hjs) as [Hj Hw].
    pose proof (Forall_inv_tail Hjs) as Hjs'.
    destruct (negb (j =? i)).
    + unfold embedding. cbn [mapM].
      rewrite (@getindex_nth _ emb j [] Hj). cbn [bind].
      unfold getitem_index. rewrite Hw. cbn [bind pdist map2 float_of].
      rewrite IH by exact Hjs'. cbn [map]. rewrite <- app_assoc. reflexivity.
    + apply IH. exact Hjs'.
Qed.

End DistanceLoop.

Section ClosestWords.

Variable set_order : list string -> list string.
Hypothesis set_order_NoDup : forall l, NoDup (set_order l).
Hypothesis set_order_In : forall l x, In x (set_order l) <-> In x l.

(** What [get_closest_word] returns for a word of the corpus, on the
    mappings of the notebook and a table with a row per word. *)
Lemma get_closest_word_run (net : Word2Vec) (corpus : list (list string))
    (word : string) (topn : nat) :
  let v := vocabulary set_order corpus in
  let E := embeddings_target net in
  In word (chain corpus) ->
  length v <= length E ->
  exists i,
    i < length v /\ nth_error v i = Some word /\
    getitem (word_to_index set_order corpus) word = Returns i /\
    get_closest_word net (word_to_index set_order corpus)
      (index_to_word set_order corpus) (length v) word topn
    = Returns
        (firstn topn
           (sort_by_distance
              (map (fun j => (nth j v ""%string,
                              pairwise_distance (row E i) (row E j)))
                   (filter (fun j => negb (j =? i)) (seq 0 (length v)))))).
Proof.
  intros v E Hword Hrows.
  pose proof (set_order_NoDup (chain corpus)) as Hnd.
  fold (vocabulary set_order corpus) in Hnd. fold v in Hnd.
  assert (Hin : In word v) by (unfold v, vocabulary; apply set_order_In; exact Hword).
  destruct (In_nth_error _ _ Hin) as [i Hi].
  assert (Hlt : i < length v) by (apply nth_error_Some; rewrite Hi; discriminate).
  destruct (word_indices_find Hnd 0 []) as [Hfind _].
  change (word_indices_from 0 v []) with (word_to_index set_order corpus) in Hfind.
  assert (Hget : getitem (word_to_index set_order corpus) word = Returns i).
  { unfold getitem. rewrite (Hfind i word Hi). reflexivity. }
  exists i. split; [exact Hlt|]. split; [exact Hi|]. split; [exact Hget|].
  unfold get_closest_word. rewrite Hget. cbn [bind].
  fold E. unfold embedding at 1. cbn [mapM].
  rewrite (@getindex_nth _ E i [] ltac:(lia)). cbn [bind].
  change [nth i E []] with [row E i].
  rewrite (@distance_loop_spec E (index_to_word set_order corpus)
             (fun j => nth j v ""%string) i (range 0 (length v)) []).
  - cbn [bind app]. unfold range. rewrite Nat.sub_0_r. reflexivity.
  - apply Forall_forall. intros j Hj. unfold range in Hj. apply in_seq in Hj.
    split; [lia|].
    change (index_to_word set_order corpus) with (index_words_from 0 v []).
    rewrite index_words_find. simpl.
    assert (Hjv : j < length v) by lia.
    apply Nat.ltb_lt in Hjv. rewrite Hjv, Nat.sub_0_r.
    apply nth_error_nth'. apply Nat.ltb_lt. exact Hjv.
Qed.

(** X21.  For a word of the corpus, [get_closest_word] returns [topn] entries,
    or all the other words when there are fewer; they are in order of
    distance, none is the word itself, each is a word of the vocabulary with
    its distance to the word, and every word left out is at least as far as
    every word returned. *)
Theorem get_closest_word_nearest (net : Word2Vec) (corpus : list (list string))
    (word : string) (topn : nat) :
  let v := vocabulary set_order corpus in
  let E := embeddings_target net in
  In word (chain corpus) ->
  length v <= length E ->
  (exists D, Forall (fun r => length r = D) E) ->
  exists i result,
    getitem (word_to_index set_order corpus) word = Returns i /\
    get_closest_word net (word_to_index set_order corpus)
      (index_to_word set_order corpus) (length v) word topn
    = Returns result /\
    length result = Nat.min topn (length v - 1) /\
    sorted_by_distance result /\
    (forall w d, In (w, d) result ->
       w <> word /\
       exists j, j < length v /\ j <> i /\ nth_error v j = Some w /\
                 d = pairwise_distance (row E i) (row E j)) /\
    (forall j, j < length v -> j <> i ->
       In (nth j v ""%string, pairwise_distance (row E i) (row E j)) result \/
       forall a, In a result ->
                 (snd a <= pairwise_distance (row E i) (row E j))%R).
Proof.
  intros v E Hword Hrows _.
  destruct (@get_closest_word_run net corpus word topn Hword Hrows)
    as (i & Hlt & Hi & Hget & Hrun).
  fold v in Hlt, Hi, Hrun. fold E in Hrun.
  set (cands := map (fun j => (nth j v ""%string,
                               pairwise_distance (row E i) (row E j)))
                    (filter (fun j => negb (j =? i)) (seq 0 (length v)))) in *.
  pose proof (sort_by_distance_perm cands) as Hperm.
  pose proof (sort_by_distance_sorted cands) as Hsorted.
  destruct (sorted_firstn topn Hsorted) as [Hfirst Hrest].
  pose proof (set_order_NoDup (chain corpus)) as Hnd.
  fold (vocabulary set_order corpus) in Hnd. fold v in Hnd.
  exists i, (firstn topn (sort_by_distance cands)).
  split; [exact Hget|]. split; [exact Hrun|].
  split; [|split; [exact Hfirst | split]].
  - rewrite length_firstn, (Permutation_length Hperm). unfold cands.
    rewrite length_map, filter_out_seq_length by lia. reflexivity.
  - intros w d Hin. apply in_firstn_in in Hin.
    apply (Permutation_in _ Hperm) in Hin. unfold cands in Hin.
    apply in_map_iff in Hin. destruct Hin as (j & Heq & Hj).
    apply filter_In in Hj. destruct Hj as [Hj Hne].
    apply in_seq in Hj. apply negb_true_iff, Nat.eqb_neq in Hne.
    inversion Heq; subst w d.
    assert (Hnth : nth_error v j = Some (nth j v ""%string))
      by (apply nth_error_nth'; lia).
    split.
    + intros Heqw. rewrite Heqw in Hnth. apply Hne.
      apply (proj1 (NoDup_nth_error v) Hnd j i); [lia | congruence].
    + exists j. repeat split; try assumption; lia.
  - intros j Hj Hne.
    assert (Hc : In (nth j v ""%string, pairwise_distance (row E i) (row E j))
                    (sort_by_distance cands)).
    { apply (Permutation_in _ (Permutation_sym Hperm)). unfold cands.
      apply (in_map (fun j => (nth j v ""%string,
                               pairwise_distance (row E i) (row E j)))).
      apply filter_In. split; [apply in_seq; lia|].
      apply negb_true_iff, Nat.eqb_neq. exact Hne. }
    rewrite <- (firstn_skipn topn (sort_by_distance cands)) in Hc.
    apply in_app_or in Hc. destruct Hc as [Hc|Hc]; [left; exact Hc|].
    right. intros a Ha. apply (Hrest a _ Ha Hc).
Qed.

(** X22.  For a word that is not in the corpus [get_closest_word] raises
    [KeyError]. *)
Theorem get_closest_word_unknown (net : Word2Vec) (corpus : list (list string))
    (word : string) (topn : nat) :
  ~ In word (chain corpus) ->
  get_closest_word net (word_to_index set_order corpus)
    (index_to_word set_order corpus)
    (length (vocabulary set_order corpus)) word topn
  = Raises KeyError.
Proof.
  intros Hout. unfold get_closest_word.
  pose proof (set_order_NoDup (chain corpus)) as Hnd.
  destruct (word_indices_find Hnd 0 []) as [_ Hnone].
  change (word_indices_from 0 (set_order (chain corpus)) [])
    with (word_to_index set_order corpus) in Hnone.
  unfold getitem. rewrite Hnone; [reflexivity|].
  rewrite set_order_In. exact Hout.
Qed.

End ClosestWords.

Lemma get_closest_word_nearest_witness :
  (forall l, NoDup (nodup string_dec l)) /\
  (forall l x, In x (nodup string_dec l) <-> In x l) /\
  exists result,
    get_closest_word small_net
      (word_to_index (nodup string_dec) [["b"; "a"; "b"; "c"]%string])
      (index_to_word (nodup string_dec) [["b"; "a"; "b"; "c"]%string])
      3 "a"%string 5
    = Returns result /\
    length result = 2 /\
    forall w d, In (w, d) result -> w <> "a"%string.
Proof.
  split; [exact (NoDup_nodup string_dec)|].
  split; [exact (fun l x => nodup_In string_dec l x)|].
  destruct (@get_closest_word_nearest (nodup string_dec) (NoDup_nodup string_dec)
              (fun l x => nodup_In string_dec l x)
              small_net [["b"; "a"; "b"; "c"]%string] "a"%string 5)
    as (i & result & _ & Hrun & Hlen & _ & Hmem & _).
  - simpl. auto.
  - simpl. lia.
  - exists 2. repeat constructor.
  - exists result. split; [exact Hrun|]. split; [exact Hlen|].
    intros w d Hin. exact (proj1 (Hmem w d Hin)).
Defined.

Lemma get_closest_word_unknown_witness :
  (forall l, NoDup (nodup string_dec l)) /\
  (forall l x, In x (nodup string_dec l) <-> In x l) /\
  get_closest_word small_net
    (word_to_index (nodup string_dec) [["b"; "a"]%string])
    (index_to_word (nodup string_dec) [["b"; "a"]%string])
    2 "z"%string 5
  = Raises KeyError.
Proof.
  split; [exact (NoDup_nodup string_dec)|].
  split; [exact (fun l x => nodup_In string_dec l x)|].
  apply (@get_closest_word_unknown (nodup string_dec) (NoDup_nodup string_dec)
           (fun l x => nodup_In string_dec l x)
           small_net [["b"; "a"]%string] "z"%string 5).
  simpl. intuition discriminate.
Defined.
